(** * go-testdeep: the Array/Slice, Re/ReAll and JSON operators

    A shallow embedding of [td_array.go], of the regexp operator file and of
    the JSON operator file of the [td] package, together with the properties
    of their constructors and of their [Match] methods; and of the
    operators written inside a JSON expectation, of the requests of package
    [tdhttp], of the mocks of package [internal/test] and of the wrapper [T]
    of [t_struct.go]. *)

From stdpp Require Import base list strings pretty gmap.

From Stdlib Require Import ZArith Lia.

Set Warnings "-register-all".

Local Open Scope Z_scope.

(** ** A model of the [reflect] view of Go values *)

Module reflect.

(** [reflect.Kind]. *)
Inductive Kind : Set :=
| Invalid | Bool
| Int | Int8 | Int16 | Int32 | Int64
| Uint | Uint8 | Uint16 | Uint32 | Uint64 | Uintptr
| Float32 | Float64 | Complex64 | Complex128
| Array | Chan | Func | Interface | Map | Ptr | Slice | String | Struct
| UnsafePointer.

Definition Kind_eqb (a b : Kind) : bool :=
  match a, b with
  | Invalid, Invalid | Bool, Bool | Int, Int | Int8, Int8 | Int16, Int16
  | Int32, Int32 | Int64, Int64 | Uint, Uint | Uint8, Uint8
  | Uint16, Uint16 | Uint32, Uint32 | Uint64, Uint64 | Uintptr, Uintptr
  | Float32, Float32 | Float64, Float64 | Complex64, Complex64
  | Complex128, Complex128 | Array, Array | Chan, Chan | Func, Func
  | Interface, Interface | Map, Map | Ptr, Ptr | Slice, Slice
  | String, String | Struct, Struct | UnsafePointer, UnsafePointer => true
  | _, _ => false
  end.

(** [reflect.Type]: a type of a non-composite kind is known by its kind and
    name; [TDef] is a defined type ([type MySlice []int]) over its underlying
    type. *)
Inductive rtype : Type :=
| TBasic (k : Kind) (name : string)
| TArray (n : nat) (e : rtype)
| TSlice (e : rtype)
| TPtr (e : rtype)
| TChan (e : rtype)
| TMap (k e : rtype)
| TStruct (name : string) (fields : list rtype)
| TDef (name : string) (under : rtype).

Fixpoint kindOf (t : rtype) : Kind :=
  match t with
  | TBasic k _ => k
  | TArray _ _ => Array
  | TSlice _ => Slice
  | TPtr _ => Ptr
  | TChan _ => Chan
  | TMap _ _ => Map
  | TStruct _ _ => Struct
  | TDef _ u => kindOf u
  end.

(** [Type.Elem()], which panics on a kind that has no element type. *)
Fixpoint elemOf (t : rtype) : option rtype :=
  match t with
  | TArray _ e | TSlice e | TPtr e | TChan e | TMap _ e => Some e
  | TDef _ u => elemOf u
  | _ => None
  end.

(** [Type.Len()], defined on array types only. *)
Fixpoint lenOf (t : rtype) : option Z :=
  match t with
  | TArray n _ => Some (Z.of_nat n)
  | TDef _ u => lenOf u
  | _ => None
  end.

Fixpoint rtype_eqb (a b : rtype) {struct a} : bool :=
  match a, b with
  | TBasic k n, TBasic k' n' => Kind_eqb k k' && String.eqb n n'
  | TArray n e, TArray n' e' => Nat.eqb n n' && rtype_eqb e e'
  | TSlice e, TSlice e' | TPtr e, TPtr e' | TChan e, TChan e' => rtype_eqb e e'
  | TMap k e, TMap k' e' => rtype_eqb k k' && rtype_eqb e e'
  | TStruct n fs, TStruct n' fs' =>
      String.eqb n n' &&
      (fix all2 (l : list rtype) (l' : list rtype) : bool :=
         match l, l' with
         | [], [] => true
         | x :: r, y :: r' => rtype_eqb x y && all2 r r'
         | _, _ => false
         end) fs fs'
  | TDef n u, TDef n' u' => String.eqb n n' && rtype_eqb u u'
  | _, _ => false
  end.

Definition tInt : rtype := TBasic Int "int".

Definition tUint8 : rtype := TBasic Uint8 "uint8".

Definition tString : rtype := TBasic String "string".

Definition tBool : rtype := TBasic Bool "bool".

Definition tFloat64 : rtype := TBasic Float64 "float64".

(** [interface{}], and the types [[]interface{}], [[]string] and
    [map[string]interface{}]. *)
Definition tInterface : rtype := TBasic Interface "interface {}".

Definition SliceInterface : rtype := TSlice tInterface.

Definition SliceString : rtype := TSlice tString.

Definition MapStringInterface : rtype := TMap tString tInterface.

(** [reflect.Value].  [VInvalid] is the zero [reflect.Value{}], which is also
    what [reflect.ValueOf] gives for a nil interface; [VNil t] is the typed
    nil of a nilable type.  A value stored in an interface-typed slot is
    represented by the dynamic value it holds.  [VOp] is a TestDeep operator
    held in an interface, known by its name and arguments. *)
Inductive value : Type :=
| VInvalid
| VNil (t : rtype)
| VBool (t : rtype) (b : bool)
| VNum (t : rtype) (n : Z)
| VStr (t : rtype) (s : string)
| VSeq (t : rtype) (l : list value)
| VPtrTo (t : rtype) (v : value)
| VMap (t : rtype) (kvs : list (string * value))
| VStruct (t : rtype) (fs : list value)
| VOp (name : string) (args : list value).

Definition IsValid (v : value) : bool :=
  match v with VInvalid => false | _ => true end.

(** [Value.Type()]; it panics on the invalid value. *)
Definition typeOf (v : value) : option rtype :=
  match v with
  | VInvalid => None
  | VNil t | VBool t _ | VNum t _ | VStr t _ | VSeq t _ | VPtrTo t _
  | VMap t _ | VStruct t _ => Some t
  | VOp name _ => Some (TPtr (TStruct ("td." +:+ name) []))
  end.

Definition valueKind (v : value) : Kind :=
  match typeOf v with Some t => kindOf t | None => Invalid end.

(** The elements of an array or slice; a nil slice has none. *)
Definition elements (v : value) : list value :=
  match v with VSeq _ l => l | _ => [] end.

(** [Value.Len()], on the arrays and slices the operators apply it to. *)
Definition Len (v : value) : Z := Z.of_nat (length (elements v)).

(** [Value.Index(i)].  The operators call it for [0 <= i < Len] only; out of
    that range, where Go panics, the model gives the invalid value. *)
Definition Index (v : value) (i : Z) : value :=
  if 0 <=? i then default VInvalid (elements v !! Z.to_nat i) else VInvalid.

(** [Value.IsNil()] for the nilable kinds. *)
Definition IsNil (v : value) : bool :=
  match v with VNil _ => true | _ => false end.

(** The kinds whose zero value is nil, the ones [populateExpectedEntries]
    lists. *)
Definition nilable (k : Kind) : bool :=
  match k with
  | Chan | Func | Interface | Map | Ptr | Slice => true
  | _ => false
  end.

(** [reflect.Zero(t)]: [zeroAs t u] builds the zero value of type [t] by
    following its underlying type [u]. *)
Fixpoint zeroAs (t u : rtype) {struct u} : value :=
  match u with
  | TBasic k _ =>
      match k with
      | Invalid => VInvalid
      | Bool => VBool t false
      | String => VStr t ""
      | Interface | Func | UnsafePointer => VNil t
      | Array | Chan | Map | Ptr | Slice | Struct => VNil t
      | _ => VNum t 0
      end
  | TArray n e => VSeq t (replicate n (zeroAs e e))
  | TSlice _ | TPtr _ | TChan _ | TMap _ _ => VNil t
  | TStruct _ fs => VStruct t (List.map (fun f => zeroAs f f) fs)
  | TDef _ u' => zeroAs t u'
  end.

Definition Zero (t : rtype) : value := zeroAs t t.

End reflect.

Export reflect.

(** ** Usage errors and the outcome of a constructor *)

(** An argument of a message format. *)
Inductive farg : Type :=
| AInt (z : Z)
| AStr (s : string)
| AType (t : rtype).

(** The messages package [color] builds: [color.Bad(format, args...)],
    [color.BadUsage(usage, param, pos, kind)] and
    [color.TooManyParams(usage)]. *)
Inductive usage : Type :=
| Bad (format : string) (args : list farg)
| BadUsage (usg : string) (param : value) (pos : Z) (knd : bool)
| TooManyParams (usg : string).

(** A constructor gives its operator, or stops with a usage error (the
    [error] it returns, which [Fatal] reports), or panics. *)
Inductive outcome (A : Type) : Type :=
| Ok (a : A)
| Fatal (e : usage)
| Panic (why : string).

Arguments Ok {A} a.

Arguments Fatal {A} e.

Arguments Panic {A} why.

Definition andThen {A B} (o : outcome A) (k : A -> outcome B) : outcome B :=
  match o with
  | Ok a => k a
  | Fatal e => Fatal e
  | Panic w => Panic w
  end.

Notation "x <-! o ;; k" := (andThen o (fun x => k))
  (at level 100, o at next level, right associativity).

Definition isOk {A} (o : outcome A) : bool :=
  match o with Ok _ => true | _ => false end.

(** ** Contexts, errors and the collaborators of the operators *)

(** Modelled from the spec: the comparison context of package [ctxerr], which
    is not part of the sources at hand.  It carries the path (an ordered list
    of segments), the laxness flag, the boolean-only flag and the maximum
    number of errors. *)
Inductive segment : Type :=
| SegRoot (name : string)
| SegIndex (i : Z).

Record Context : Type := mkContext {
  Path : list segment;
  BooleanError : bool;
  BeLax : bool;
  MaxErrors : Z
}.

Definition AddArrayIndex (ctx : Context) (index : Z) : Context :=
  mkContext (Path ctx ++ [SegIndex index]) (BooleanError ctx) (BeLax ctx)
            (MaxErrors ctx).

Definition ResetPath (ctx : Context) (name : string) : Context :=
  mkContext [SegRoot name] (BooleanError ctx) (BeLax ctx) (MaxErrors ctx).

Definition setBeLax (ctx : Context) (b : bool) : Context :=
  mkContext (Path ctx) (BooleanError ctx) b (MaxErrors ctx).

Definition setBooleanError (ctx : Context) (b : bool) : Context :=
  mkContext (Path ctx) b (BeLax ctx) (MaxErrors ctx).

(** What an error shows for its got and expected sides: a
    [types.RawString] or a value. *)
Inductive repr : Type :=
| NoRepr
| RawString (s : string)
| OfValue (v : value).

(** [ctxerr.Error], with the context [CollectError] stamps on it. *)
Record ErrorInfo : Type := mkError {
  Message : string;
  Got : repr;
  Expected : repr;
  Summary : option string;
  Where : option Context
}.

(** A [*ctxerr.Error] that is not nil: one of the two sentinels or a
    detailed error. *)
Inductive Error : Type :=
| ctxerr_BooleanError
| ErrTooManyErrors
| Detailed (e : ErrorInfo).

(** The error sink [*ctx.Errors] shared by a whole comparison. *)
Definition Sink : Type := list Error.

Definition Res : Type := (option Error * Sink)%type.

(** [tdExpectedType] and [tdMap], as far as the operators here fill them. *)
Record tdExpectedType : Type := mkExpectedType {
  location_Func : string;
  expectedType : rtype;
  isPtr : bool
}.

Inductive mapKind : Set := allMap | subMap | superMap.

Record tdMap : Type := mkMap {
  map_base : tdExpectedType;
  kind : mapKind;
  map_expectedEntries : list (string * value)
}.

(** A compiled [*regexp.Regexp] of Go's standard library, given by what its
    methods answer. *)
Record Regexp : Type := mkRegexp {
  re_String : string;
  re_MatchString : string -> bool;
  re_FindAllStringSubmatch : string -> Z -> list (list string);
  re_Match : list Byte.byte -> bool;
  re_FindAllSubmatch : list Byte.byte -> Z -> list (list (list Byte.byte))
}.

(** The functions the operators call that live outside the sources at hand:
    the dispatcher [deepValueEqual], the accumulation point [CollectError],
    the type checks of [tdExpectedType], the matcher of [tdMap], package
    [dark], and Go's [encoding/json] and [reflect]. *)
Class Externals : Type := {
  deepValueEqual : Context -> value -> value -> Sink -> Res;
  CollectError : Context -> Error -> Sink -> Res;
  CannotCompareError : Context -> Error;
  checkPtr : tdExpectedType -> Context -> value -> bool -> option Error * value;
  checkType : tdExpectedType -> Context -> value -> option Error;
  tdMap_match : tdMap -> Context -> value -> Sink -> Res;
  GetInterface : value -> bool -> option value;
  json_Marshal : value -> string + list Byte.byte;
  json_Unmarshal : list Byte.byte -> value;
  (** [tdJSONUnmarshaler.unmarshal], whose parser is package [json] of the
      repository: the decoded expectation, or the panic it raises *)
  unmarshal : string -> value -> list value -> outcome value;
  tdMap_populateExpectedEntries : tdMap -> value -> tdMap;
  regexp_MustCompile : string -> outcome Regexp;
  AssignableTo : rtype -> rtype -> bool;
  DeepEqual : value -> value -> bool;
  (** the [Error()] text of a value whose type implements [error], and the
      [String()] text of one whose type implements [fmt.Stringer] *)
  errorView : value -> option string;
  stringerView : value -> option string
}.

(** ** Methods as state transformers

    A method with a pointer receiver runs on the receiver's fields and on the
    error sink; it may read and write both. *)
Definition M (O A : Type) : Type := O -> Sink -> A * O * Sink.

Definition ret {O A} (a : A) : M O A := fun o s => (a, o, s).

Definition bind {O A B} (m : M O A) (k : A -> M O B) : M O B :=
  fun o s => let '(a, o', s') := m o s in k a o' s'.

(** Read the receiver. *)
Definition self {O} : M O O := fun o s => (o, o, s).

(** Run a function that works on the sink alone. *)
Definition onSink {O A} (f : Sink -> A * Sink) : M O A :=
  fun o s => let '(a, s') := f s in (a, o, s').

Notation "x <- m ;; k" := (bind m (fun x => k))
  (at level 100, m at next level, right associativity).

(** The result and the sink a method leaves, and the receiver it leaves. *)
Definition run {O A} (m : M O A) (o : O) (s : Sink) : A * Sink :=
  let '(a, _, s') := m o s in (a, s').

Definition receiverAfter {O A} (m : M O A) (o : O) (s : Sink) : O :=
  let '(_, o', _) := m o s in o'.

(** ** td_array.go *)

(** [ArrayEntries], a [map[int]interface{}].  The entries are listed in the
    order in which [range] visits them, which Go leaves unspecified: a map
    is any list without a repeated index.  A nil expected value is
    [VInvalid]. *)
Definition ArrayEntries : Type := list (Z * value).

Definition wfEntries (m : ArrayEntries) : Prop := NoDup (m.*1).

(** [expectedEntries[index]] with its [ok] flag. *)
Fixpoint lookupEntry (m : ArrayEntries) (index : Z) : option value :=
  match m with
  | [] => None
  | (i, v) :: rest => if i =? index then Some v else lookupEntry rest index
  end.

Definition hasEntry (m : ArrayEntries) (index : Z) : bool :=
  match lookupEntry m index with Some _ => true | None => false end.

Record tdArray : Type := mkArray {
  array_base : tdExpectedType;
  expectedEntries : list value
}.

Definition withEntries (a : tdArray) (es : list value) : tdArray :=
  mkArray (array_base a) es.

(** The operator check [expectedValue.(TestDeep)]. *)
Definition isTestDeep (v : value) : bool :=
  match v with VOp _ _ => true | _ => false end.

(** [s[index] = v] on a slice, which panics out of range. *)
Definition store (s : list value) (index : Z) (v : value) : outcome (list value) :=
  if (0 <=? index) && (index <? Z.of_nat (length s))
  then Ok (<[Z.to_nat index := v]> s)
  else Panic "index out of range".

Section Array.

Context `{Externals}.

(** The first loop of [populateExpectedEntries]. *)
Definition maxIndexOf (expectedEntries : ArrayEntries) : Z :=
  fold_left (fun maxIndex e => if maxIndex <? e.1 then e.1 else maxIndex)
            expectedEntries (-1).

(** The body of the loop over [expectedEntries]: the value to store for one
    entry. *)
Definition entryValue (elemType : rtype) (maxLength index : Z)
    (expectedValue : value) : outcome value :=
  if negb (IsValid expectedValue) then
    if nilable (kindOf elemType) then Ok (Zero elemType)
    else Fatal (Bad "expected value of #%d cannot be nil as items type is %s"
                    [AInt index; AType elemType])
  else
    if negb (isTestDeep expectedValue) &&
       negb (match typeOf expectedValue with
             | Some t => AssignableTo t elemType
             | None => false
             end)
    then Fatal (Bad "type %s of #%d expected value differs from %s contents (%s)"
                    [match typeOf expectedValue with
                     | Some t => AType t
                     | None => AStr ""
                     end;
                     AInt index;
                     AStr (if maxLength <? 0 then "slice" else "array");
                     AType elemType])
    else Ok expectedValue.

Fixpoint fillEntries (elemType : rtype) (maxLength : Z)
    (expectedEntries : ArrayEntries) (es : list value) : outcome (list value) :=
  match expectedEntries with
  | [] => Ok es
  | (index, expectedValue) :: rest =>
      v <-! entryValue elemType maxLength index expectedValue ;;
      es' <-! store es index v ;;
      fillEntries elemType maxLength rest es'
  end.

(** The loop over the model, from its last index [n - 1] down to 0. *)
Fixpoint fromModel (expectedEntries : ArrayEntries) (expectedModel zero : value)
    (n : nat) (es : list value) : outcome (list value) :=
  match n with
  | O => Ok es
  | S n' =>
      let index := Z.of_nat n' in
      let ventry := Index expectedModel index in
      if hasEntry expectedEntries index then
        if negb (DeepEqual zero ventry) then
          Fatal (Bad "non zero #%d entry in model already exists in expectedEntries"
                     [AInt index])
        else fromModel expectedEntries expectedModel zero n' es
      else
        es' <-! store es index ventry ;;
        fromModel expectedEntries expectedModel zero n' es'
  end.

(** The last loop, [for ; index < numEntries; index++], that runs [count]
    times. *)
Fixpoint fillZero (expectedEntries : ArrayEntries) (vzero : value)
    (count : nat) (index : Z) (es : list value) : outcome (list value) :=
  match count with
  | O => Ok es
  | S count' =>
      es' <-! (if hasEntry expectedEntries index then Ok es
               else store es index vzero) ;;
      fillZero expectedEntries vzero count' (index + 1) es'
  end.

Definition populateExpectedEntries (a : tdArray) (expectedEntries : ArrayEntries)
    (expectedModel : value) : outcome tdArray :=
  let expectedType := expectedType (array_base a) in
  let maxIndex := maxIndexOf expectedEntries in
  sizes <-! (if Kind_eqb (kindOf expectedType) reflect.Array then
               match lenOf expectedType with
               | None => Panic "Len of non-array type"
               | Some maxLength =>
                   if maxLength <=? maxIndex then
                     Fatal (Bad "array length is %d, so cannot have #%d expected index"
                                [AInt maxLength; AInt maxIndex])
                   else Ok (maxLength, maxLength)
               end
             else
               let numEntries := maxIndex + 1 in
               Ok (-1,
                   if IsValid expectedModel && (numEntries <? Len expectedModel)
                   then Len expectedModel else numEntries)) ;;
  let maxLength := sizes.1 in
  let numEntries := sizes.2 in
  let es0 := replicate (Z.to_nat numEntries) VInvalid in
  elemType <-! (match elemOf expectedType with
                | Some t => Ok t
                | None => Panic "Elem of a type without elements"
                end) ;;
  es1 <-! fillEntries elemType maxLength expectedEntries es0 ;;
  let vzero := Zero elemType in
  if IsValid expectedModel then
    es2 <-! fromModel expectedEntries expectedModel vzero
              (Z.to_nat (Len expectedModel)) es1 ;;
    if 0 <=? maxLength then Ok (withEntries a es2)
    else
      let index := Len expectedModel in
      es3 <-! fillZero expectedEntries vzero (Z.to_nat (numEntries - index))
                index es2 ;;
      Ok (withEntries a es3)
  else if Kind_eqb (kindOf expectedType) reflect.Slice then
    Ok (withEntries a es1)
  else if 0 <=? maxLength then
    es3 <-! fillZero expectedEntries vzero (Z.to_nat (numEntries - 0)) 0 es1 ;;
    Ok (withEntries a es3)
  else Panic "Len of the zero Value".

(** [newArray]: [Ok None] is its [nil, nil] answer, [Fatal] the error it
    returns next to the operator.  [fn] is the name [newBase] reads from the
    call stack. *)
Definition newArray (fn : string) (kind : Kind) (model : value)
    (expectedEntries : ArrayEntries) : outcome (option tdArray) :=
  match typeOf model with
  | None => Ok None
  | Some tmodel =>
      if Kind_eqb (kindOf tmodel) reflect.Ptr then
        match elemOf tmodel with
        | None => Panic "Elem of a type without elements"
        | Some te =>
            if negb (Kind_eqb (kindOf te) kind) then Ok None
            else match model with
                 | VPtrTo _ vmodel =>
                     match typeOf vmodel with
                     | None => Panic "Type of the zero Value"
                     | Some t =>
                         a <-! populateExpectedEntries
                                 (mkArray (mkExpectedType fn t true) [])
                                 expectedEntries vmodel ;;
                         Ok (Some a)
                     end
                 | _ =>
                     a <-! populateExpectedEntries
                             (mkArray (mkExpectedType fn te true) [])
                             expectedEntries VInvalid ;;
                     Ok (Some a)
                 end
        end
      else if Kind_eqb (kindOf tmodel) kind then
        a <-! populateExpectedEntries
                (mkArray (mkExpectedType fn tmodel false) [])
                expectedEntries model ;;
        Ok (Some a)
      else Ok None
  end.

Definition Array (model : value) (expectedEntries : ArrayEntries) : outcome tdArray :=
  a <-! newArray "Array" reflect.Array model expectedEntries ;;
  match a with
  | Some a => Ok a
  | None => Fatal (BadUsage "Array(ARRAY|&ARRAY, EXPECTED_ENTRIES)" model 1 true)
  end.

Definition Slice (model : value) (expectedEntries : ArrayEntries) : outcome tdArray :=
  a <-! newArray "Slice" reflect.Slice model expectedEntries ;;
  match a with
  | Some a => Ok a
  | None => Fatal (BadUsage "Slice(SLICE|&SLICE, EXPECTED_ENTRIES)" model 1 true)
  end.

End Array.

Section ArrayMatch.

Context `{Externals}.

(** The loop of [tdArray.Match] over [a.expectedEntries], from [index] on.
    [Some r] is a [return r] from inside the loop, [None] its normal end. *)
Fixpoint matchEntries (ctx : Context) (got : value) (gotLen index : Z)
    (es : list value) : M tdArray (option (option Error)) :=
  match es with
  | [] => ret None
  | expectedValue :: rest =>
      let curCtx := AddArrayIndex ctx index in
      if gotLen <=? index then
        if BooleanError ctx then ret (Some (Some ctxerr_BooleanError))
        else
          r <- onSink (CollectError curCtx (Detailed (mkError
                 "expected value out of range"
                 (RawString "<non-existent value>")
                 (OfValue expectedValue) None None))) ;;
          ret (Some r)
      else
        err <- onSink (deepValueEqual curCtx (Index got index) expectedValue) ;;
        match err with
        | Some e => ret (Some (Some e))
        | None => matchEntries ctx got gotLen (index + 1) rest
        end
  end.

Definition tdArray_Match (ctx : Context) (got : value) : M tdArray (option Error) :=
  a <- self ;;
  let '(err, got) := checkPtr (array_base a) ctx got true in
  match err with
  | Some e => onSink (CollectError ctx e)
  | None =>
      match checkType (array_base a) ctx got with
      | Some e => onSink (CollectError ctx e)
      | None =>
          let gotLen := Len got in
          r <- matchEntries ctx got gotLen 0 (expectedEntries a) ;;
          match r with
          | Some res => ret res
          | None =>
              let n := Z.of_nat (length (expectedEntries a)) in
              if n <? gotLen then
                if BooleanError ctx then ret (Some ctxerr_BooleanError)
                else onSink (CollectError (AddArrayIndex ctx n) (Detailed (mkError
                       "got value out of range"
                       (OfValue (Index got n))
                       (RawString "<non-existent value>") None None)))
              else ret None
          end
      end
  end.

End ArrayMatch.

(** ** The regexp operators [Re] and [ReAll] *)

(** [Kind.String()]. *)
Definition KindString (k : Kind) : string :=
  match k with
  | Invalid => "invalid" | Bool => "bool"
  | Int => "int" | Int8 => "int8" | Int16 => "int16" | Int32 => "int32"
  | Int64 => "int64"
  | Uint => "uint" | Uint8 => "uint8" | Uint16 => "uint16"
  | Uint32 => "uint32" | Uint64 => "uint64" | Uintptr => "uintptr"
  | Float32 => "float32" | Float64 => "float64"
  | Complex64 => "complex64" | Complex128 => "complex128"
  | reflect.Array => "array" | Chan => "chan" | Func => "func"
  | Interface => "interface" | Map => "map" | Ptr => "ptr"
  | reflect.Slice => "slice" | reflect.String => "string"
  | Struct => "struct" | UnsafePointer => "unsafe.Pointer"
  end.

(** [Type.String()]. *)
Fixpoint typeString (t : rtype) : string :=
  match t with
  | TBasic _ name | TStruct name _ | TDef name _ => name
  | TArray n e => "[" +:+ pretty n +:+ "]" +:+ typeString e
  | TSlice e => "[]" +:+ typeString e
  | TPtr e => "*" +:+ typeString e
  | TChan e => "chan " +:+ typeString e
  | TMap k e => "map[" +:+ typeString k +:+ "]" +:+ typeString e
  end.

(** [Value.String()] of a value of kind string. *)
Definition gotString (v : value) : string :=
  match v with VStr _ s => s | _ => "" end.

Definition byteOfZ (n : Z) : Byte.byte :=
  default Byte.x00 (Byte.of_N (Z.to_N (n mod 256))).

(** [Value.Bytes()] of a slice of bytes. *)
Definition gotBytes (v : value) : list Byte.byte :=
  (fun e => match e with VNum _ n => byteOfZ n | _ => Byte.x00 end) <$> elements v.

(** A [[]byte] seen as a value again. *)
Definition bytesValue (b : list Byte.byte) : value :=
  VSeq (TSlice tUint8) ((fun x => VNum tUint8 (Z.of_N (Byte.to_N x))) <$> b).

(** Modelled from the spec: [Path.String()] of package [ctxerr], the path
    segments rendered with a separator per kind. *)
Definition PathString (p : list segment) : string :=
  foldr (fun seg acc =>
           match seg with
           | SegRoot name => name +:+ acc
           | SegIndex i => "[" +:+ pretty i +:+ "]" +:+ acc
           end) "" p.

Record tdRe : Type := mkRe {
  re_location_Func : string;
  re : Regexp;
  captures : value;
  numMatches : Z
}.

(** The first argument of [newRe], an [interface{}]. *)
Inductive regArg : Type :=
| RegCompiled (r : Regexp)
| RegString (s : string)
| RegOther (v : value).

Section Re.

Context `{Externals}.

Definition re_usage : string := "(STRING|*regexp.Regexp[, NON_NIL_CAPTURE])".

(** [newRe]; [fn] is the name [newBase] reads from the call stack, and
    [numMatches] starts at Go's zero. *)
Definition newRe (fn : string) (regIf : regArg) (capture : list value) : outcome tdRe :=
  caps <-! (match capture with
            | [] => Ok VInvalid
            | [c] => Ok c
            | _ => Fatal (TooManyParams (fn +:+ re_usage))
            end) ;;
  match regIf with
  | RegCompiled reg => Ok (mkRe fn reg caps 0)
  | RegString reg =>
      r <-! regexp_MustCompile reg ;;
      Ok (mkRe fn r caps 0)
  | RegOther v => Fatal (BadUsage (fn +:+ re_usage) v 1 false)
  end.

Definition Re (reg : regArg) (capture : list value) : outcome tdRe :=
  r <-! newRe "Re" reg capture ;;
  Ok (mkRe (re_location_Func r) (re r) (captures r) 1).

Definition ReAll (reg : regArg) (capture : value) : outcome tdRe :=
  r <-! newRe "ReAll" reg [capture] ;;
  Ok (mkRe (re_location_Func r) (re r) (captures r) (-1)).

Definition needCaptures (r : tdRe) : bool := IsValid (captures r).

Definition tdRe_String (r : tdRe) : string := re_String (re r).

Definition doesNotMatch (ctx : Context) (got : value) : M tdRe (option Error) :=
  if BooleanError ctx then ret (Some ctxerr_BooleanError)
  else
    r <- self ;;
    onSink (CollectError ctx (Detailed (mkError
      "does not match Regexp" (OfValue got)
      (RawString (re_String (re r))) None None))).

Definition matchBool (ctx : Context) (got : value) (result : bool) : M tdRe (option Error) :=
  if result then ret None else doesNotMatch ctx got.

Definition matchCaptures (ctx : Context) (caps : value) : M tdRe (option Error) :=
  r <- self ;;
  onSink (deepValueEqual
            (ResetPath ctx ("(" +:+ PathString (Path ctx) +:+ " =~ " +:+
                            tdRe_String r +:+ ")"))
            caps (captures r)).

(** [num], the capacity the capture slices are made with. *)
Definition numCaptures {A} (result : list (list A)) : Z :=
  fold_left (fun num set => num + (Z.of_nat (length set) - 1)) result 0.

(** The nested loops that append [conv match] for every [match] of
    [set[1:]] of every [set]; a set always starts with the whole match. *)
Definition appendEach {A B} (conv : A -> B) (result : list (list A)) : list B :=
  fold_left (fun caps set =>
               fold_left (fun caps match_ => caps ++ [conv match_])
                         (drop 1 set) caps)
            result [].

(** The loop [captures = append(captures, set[1:]...)]. *)
Definition appendSets {A} (result : list (list A)) : list A :=
  fold_left (fun caps set => caps ++ drop 1 set) result [].

Definition hasType (v : value) (t : rtype) : bool :=
  match typeOf v with Some t' => rtype_eqb t' t | None => false end.

Definition matchByteCaptures (ctx : Context) (got : list Byte.byte)
    (result : list (list (list Byte.byte))) : M tdRe (option Error) :=
  if (length result =? 0)%nat then doesNotMatch ctx (bytesValue got)
  else
    r <- self ;;
    if hasType (captures r) SliceInterface then
      matchCaptures ctx
        (VSeq SliceInterface
           (appendEach (fun m => VStr tString (String.string_of_list_byte m)) result))
    else
      matchCaptures ctx
        (VSeq SliceString
           (VStr tString <$> appendEach String.string_of_list_byte result)).

Definition matchStringCaptures (ctx : Context) (got : string)
    (result : list (list string)) : M tdRe (option Error) :=
  if (length result =? 0)%nat then doesNotMatch ctx (VStr tString got)
  else
    r <- self ;;
    if hasType (captures r) SliceInterface then
      matchCaptures ctx
        (VSeq SliceInterface (appendEach (VStr tString) result))
    else
      matchCaptures ctx (VSeq SliceString (VStr tString <$> appendSets result)).

(** The end of [tdRe.Match], once [str] is known. *)
Definition matchStr (ctx : Context) (str : string) : M tdRe (option Error) :=
  r <- self ;;
  if needCaptures r then
    matchStringCaptures ctx str
      (re_FindAllStringSubmatch (re r) str (numMatches r))
  else matchBool ctx (VStr tString str) (re_MatchString (re r) str).

Definition tdRe_Match (ctx : Context) (got : value) : M tdRe (option Error) :=
  match valueKind got with
  | reflect.String => matchStr ctx (gotString got)
  | reflect.Slice =>
      let elemKind := match typeOf got ≫= elemOf with
                      | Some e => kindOf e
                      | None => Invalid
                      end in
      if Kind_eqb elemKind Uint8 then
        let gotBytes := gotBytes got in
        r <- self ;;
        if needCaptures r then
          matchByteCaptures ctx gotBytes
            (re_FindAllSubmatch (re r) gotBytes (numMatches r))
        else matchBool ctx (bytesValue gotBytes) (re_Match (re r) gotBytes)
      else if BooleanError ctx then ret (Some ctxerr_BooleanError)
      else onSink (CollectError ctx (Detailed (mkError
             "bad slice type"
             (RawString ("[]" +:+ KindString elemKind))
             (RawString "[]uint8") None None)))
  | _ =>
      match errorView got with
      | Some str => matchStr ctx str
      | None =>
          match stringerView got with
          | Some str => matchStr ctx str
          | None =>
              if BooleanError ctx then ret (Some ctxerr_BooleanError)
              else onSink (CollectError ctx (Detailed (mkError
                     "bad type"
                     (RawString (from_option typeString "" (typeOf got)))
                     (RawString "string (convertible) OR fmt.Stringer OR error OR []uint8")
                     None None)))
          end
      end
  end.

End Re.

(** ** The JSON operators [JSON], [SubJSONOf] and [SuperJSONOf] *)

Record tdJSON : Type := mkJSON {
  json_location_Func : string;
  json_expected : value
}.

Record tdMapJSON : Type := mkMapJSON {
  mapjson_tdMap : tdMap;
  mapjson_expected : value
}.

Section JSON.

Context `{Externals}.

(** [jsonify]: the value decoded again, or the error. *)
Definition jsonify (ctx : Context) (got : value) : value * option Error :=
  match GetInterface got true with
  | None => (VInvalid, Some (CannotCompareError ctx))
  | Some gotIf =>
      match json_Marshal gotIf with
      | inl err =>
          if BooleanError ctx then (VInvalid, Some ctxerr_BooleanError)
          else (VInvalid,
                Some (Detailed (mkError "json.Marshal failed" NoRepr NoRepr
                                        (Some err) None)))
      | inr b => (json_Unmarshal b, None)
      end
  end.

(** [gotViaJSON], which overwrites [*pGot] on success: the error and the
    value [got] holds afterwards. *)
Definition gotViaJSON (ctx : Context) (got : value) : option Error * value :=
  match jsonify ctx got with
  | (_, Some err) => (Some err, got)
  | (vgot, None) => (None, vgot)
  end.

Definition JSON (expectedJSON : value) (params : list value) : outcome tdJSON :=
  v <-! unmarshal "JSON" expectedJSON params ;;
  Ok (mkJSON "JSON" v).

Definition tdJSON_Match (ctx : Context) (got : value) : M tdJSON (option Error) :=
  j <- self ;;
  let '(err, got) := gotViaJSON ctx got in
  match err with
  | Some e => onSink (CollectError ctx e)
  | None =>
      let ctx := setBeLax ctx true in
      onSink (deepValueEqual ctx got (json_expected j))
  end.

(** The type assertion [v.(map[string]interface{})]. *)
Definition isJSONObject (v : value) : bool :=
  match v with
  | VMap t _ => rtype_eqb t MapStringInterface
  | VNil t => rtype_eqb t MapStringInterface
  | _ => false
  end.

Definition newMapJSON (fn : string) (k : mapKind) (expectedJSON : value)
    (params : list value) : outcome tdMapJSON :=
  v <-! unmarshal fn expectedJSON params ;;
  if negb (isJSONObject v) then
    Panic (fn +:+ "() only accepts JSON objects {…}")
  else
    let m := mkMap (mkExpectedType fn MapStringInterface false) k [] in
    Ok (mkMapJSON (tdMap_populateExpectedEntries m v) v).

Definition SubJSONOf (expectedJSON : value) (params : list value) : outcome tdMapJSON :=
  newMapJSON "SubJSONOf" subMap expectedJSON params.

Definition SuperJSONOf (expectedJSON : value) (params : list value) : outcome tdMapJSON :=
  newMapJSON "SuperJSONOf" superMap expectedJSON params.

Definition tdMapJSON_Match (ctx : Context) (got : value) : M tdMapJSON (option Error) :=
  m <- self ;;
  let '(err, got) := gotViaJSON ctx got in
  match err with
  | Some e => onSink (CollectError ctx e)
  | None =>
      if negb (IsValid got) then
        if BooleanError ctx then ret (Some ctxerr_BooleanError)
        else onSink (CollectError ctx (Detailed (mkError
               "values differ" (RawString "null") (RawString "non-null")
               None None)))
      else
        let ctx := setBeLax ctx true in
        onSink (tdMap_match (mapjson_tdMap m) ctx got)
  end.

Definition tdMapJSON_HandleInvalid (m : tdMapJSON) : bool := true.

End JSON.

(** ** A reference instance of the collaborators

    Concrete collaborators on which the operators can be run: they stand for
    the parts of the repository and of Go's library that the sources at hand
    call but do not hold. *)

Module Ref.

(** Remove the first element of [l] that satisfies [f]. *)
Fixpoint removeFirst {A} (f : A -> bool) (l : list A) : option (list A) :=
  match l with
  | [] => None
  | x :: rest =>
      if f x then Some rest
      else match removeFirst f rest with
           | Some rest' => Some (x :: rest')
           | None => None
           end
  end.

(** Modelled from the spec: the comparison of the dispatcher
    [deepValueEqual], which the sources at hand call but do not hold, on
    scalars, nils and sequences: scalars by direct equality, a kind mismatch
    being an error unless laxness is on; sequences by length then element by
    element; an operator by its own matching, here the unordered bag [Bag]. *)
Fixpoint sameValue (lax : bool) (got expected : value) {struct expected} : bool :=
  match expected with
  | VInvalid => negb (IsValid got)
  | VNil t =>
      match got with VNil t' => lax || rtype_eqb t' t | _ => false end
  | VBool t b =>
      match got with
      | VBool t' b' => (lax || rtype_eqb t' t) && Bool.eqb b' b
      | _ => false
      end
  | VNum t n =>
      match got with
      | VNum t' n' => (lax || rtype_eqb t' t) && (n' =? n)
      | _ => false
      end
  | VStr t s =>
      match got with
      | VStr t' s' => (lax || rtype_eqb t' t) && String.eqb s' s
      | _ => false
      end
  | VSeq t l =>
      match got with
      | VSeq t' l' =>
          (lax || rtype_eqb t' t) &&
          (fix each (l : list value) (l' : list value) : bool :=
             match l, l' with
             | [], [] => true
             | e :: r, g :: r' => sameValue lax g e && each r r'
             | _, _ => false
             end) l l'
      | _ => false
      end
  | VOp name args =>
      String.eqb name "Bag" &&
      (fix bag (args : list value) (l' : list value) : bool :=
         match args with
         | [] => match l' with [] => true | _ => false end
         | e :: r =>
             match removeFirst (fun g => sameValue lax g e) l' with
             | Some l'' => bag r l''
             | None => false
             end
         end) args (elements got)
  | VPtrTo _ _ | VMap _ _ | VStruct _ _ => false
  end.

(** The context [CollectError] stamps on an error that has none. *)
Definition stamp (ctx : Context) (err : Error) : Error :=
  match err with
  | Detailed e =>
      Detailed (mkError (Message e) (Got e) (Expected e) (Summary e)
                  (Some (from_option id ctx (Where e))))
  | _ => err
  end.

(** Modelled from the spec: the accumulation point [CollectError] of package
    [ctxerr]: the boolean sentinel goes through untouched; with a maximum of
    one error the error is returned at once; otherwise it is appended to the
    sink, and the "too many errors" sentinel is returned once the sink holds
    the maximum. *)
Definition CollectError (ctx : Context) (err : Error) (s : Sink) : Res :=
  match err with
  | ctxerr_BooleanError => (Some err, s)
  | _ =>
      if MaxErrors ctx =? 1 then (Some (stamp ctx err), s)
      else
        let s' := s ++ [stamp ctx err] in
        if (0 <=? MaxErrors ctx) && (MaxErrors ctx <=? Z.of_nat (length s'))
        then (Some ErrTooManyErrors, s')
        else (None, s')
  end.

Definition deepValueEqual (ctx : Context) (got expected : value) (s : Sink) : Res :=
  if sameValue (BeLax ctx) got expected then (None, s)
  else if BooleanError ctx then (Some ctxerr_BooleanError, s)
  else CollectError ctx (Detailed (mkError "values differ" (OfValue got)
                                     (OfValue expected) None None)) s.

(** Modelled from the spec: [Context.CannotCompareError] of package
    [ctxerr]. *)
Definition CannotCompareError (ctx : Context) : Error :=
  if BooleanError ctx then ctxerr_BooleanError
  else Detailed (mkError "cannot compare" NoRepr NoRepr
                   (Some "unexported field that cannot be overridden") None).

Definition errorTypeMismatch (t : tdExpectedType) (got : value) : Error :=
  Detailed (mkError "type mismatch"
              (RawString (from_option typeString "nil" (typeOf got)))
              (RawString ((if isPtr t then "*" else "") +:+
                          typeString (expectedType t)))
              None None).

(** Modelled from the spec: [tdExpectedType.checkPtr], which the sources at
    hand call but do not hold: when a pointer is expected, got has to be one
    and is replaced by what it points to. *)
Definition checkPtr (t : tdExpectedType) (ctx : Context) (got : value)
    (nilAllowed : bool) : option Error * value :=
  if isPtr t then
    match got with
    | VPtrTo _ v => (None, v)
    | VNil (TPtr e) =>
        if nilAllowed then (None, VInvalid)
        else if BooleanError ctx then (Some ctxerr_BooleanError, got)
        else (Some (Detailed (mkError "nil pointer" (RawString "nil pointer")
                                (RawString "non-nil pointer") None None)), got)
    | _ =>
        if BooleanError ctx then (Some ctxerr_BooleanError, got)
        else (Some (errorTypeMismatch t got), got)
    end
  else (None, got).

(** Modelled from the spec: [tdExpectedType.checkType], likewise: the type
    of got has to be the expected type. *)
Definition checkType (t : tdExpectedType) (ctx : Context) (got : value) : option Error :=
  if from_option (fun tg => rtype_eqb tg (expectedType t)) false (typeOf got)
  then None
  else if BooleanError ctx then Some ctxerr_BooleanError
  else Some (errorTypeMismatch t got).

Fixpoint lookupKey (kvs : list (string * value)) (k : string) : option value :=
  match kvs with
  | [] => None
  | (k', v) :: rest => if String.eqb k' k then Some v else lookupKey rest k
  end.

(** Every entry of [a] has a matching entry in [b]. *)
Definition entriesWithin (lax : bool) (flip : bool) (a b : list (string * value)) : bool :=
  forallb (fun kv =>
             match lookupKey b kv.1 with
             | Some v' => if flip then sameValue lax kv.2 v' else sameValue lax v' kv.2
             | None => false
             end) a.

(** Modelled from the spec: [tdMap.match], which the sources at hand call but
    do not hold: got has to be of the expected map type, and the keys are
    compared under the exact, sub or super rule. *)
Definition tdMap_match (m : tdMap) (ctx : Context) (got : value) (s : Sink) : Res :=
  match checkType (map_base m) ctx got with
  | Some e => CollectError ctx e s
  | None =>
      let gotKvs := match got with VMap _ kvs => kvs | _ => [] end in
      let exp := map_expectedEntries m in
      let ok := match kind m with
                | allMap => entriesWithin (BeLax ctx) true gotKvs exp &&
                            entriesWithin (BeLax ctx) false exp gotKvs
                | subMap => entriesWithin (BeLax ctx) true gotKvs exp
                | superMap => entriesWithin (BeLax ctx) false exp gotKvs
                end in
      if ok then (None, s)
      else if BooleanError ctx then (Some ctxerr_BooleanError, s)
      else CollectError ctx (Detailed (mkError "comparing map" (OfValue got)
                                         NoRepr None None)) s
  end.

Definition tdMap_populateExpectedEntries (m : tdMap) (v : value) : tdMap :=
  mkMap (map_base m) (kind m) (match v with VMap _ kvs => kvs | _ => []%list end).

(** The double quote character. *)
Definition dquote : Ascii.ascii := Ascii.ascii_of_nat 34.

Definition quoted (s : string) : string :=
  String.String dquote (s +:+ String.String dquote EmptyString).

(** Go's [json.Marshal], on the fragment made of null, booleans, integers
    and strings without escapes; channels and functions cannot be encoded. *)
Definition json_Marshal (v : value) : string + list Byte.byte :=
  match v with
  | VInvalid => inr (String.list_byte_of_string "null")
  | VNil t =>
      match kindOf t with
      | Chan | Func => inl ("json: unsupported type: " +:+ typeString t)
      | _ => inr (String.list_byte_of_string "null")
      end
  | VBool _ b => inr (String.list_byte_of_string (if b then "true" else "false"))
  | VNum _ n => inr (String.list_byte_of_string (pretty n))
  | VStr _ s => inr (String.list_byte_of_string (quoted s))
  | _ => inl "json: unsupported value"
  end.

Fixpoint digits (s : string) (acc : Z) : option Z :=
  match s with
  | EmptyString => Some acc
  | String.String c rest =>
      let n := Z.of_nat (Ascii.nat_of_ascii c) in
      if (48 <=? n) && (n <=? 57) then digits rest (10 * acc + (n - 48))
      else None
  end.

(** Go's [json.Unmarshal] into an [interface{}], on the same fragment: a
    number is decoded as a [float64]. *)
Definition json_Unmarshal (b : list Byte.byte) : value :=
  let s := String.string_of_list_byte b in
  if String.eqb s "null" then VInvalid
  else if String.eqb s "true" then VBool tBool true
  else if String.eqb s "false" then VBool tBool false
  else match s with
       | String.String c rest =>
           if Ascii.eqb c dquote then
             VStr tString (String.substring 0 (String.length rest - 1) rest)
           else if Ascii.eqb c (Ascii.ascii_of_nat 45) then
             from_option (fun n => VNum tFloat64 (- n)) VInvalid (digits rest 0)
           else from_option (VNum tFloat64) VInvalid (digits s 0)
       | EmptyString => VInvalid
       end.

(** [unmarshal] on expectations without placeholders, in the same
    fragment. *)
Definition unmarshal (fn : string) (expectedJSON : value) (params : list value) : outcome value :=
  match expectedJSON with
  | VStr _ text => Ok (json_Unmarshal (String.list_byte_of_string text))
  | _ => Panic (fn +:+ "(STRING_JSON|STRING_FILENAME|[]byte|io.Reader, ...)")
  end.

(** Two types of a test program: [MyError], a struct with one string field
    whose [Error()] returns it, and [Errors], a slice of strings whose
    [Error()] returns the first one. *)
Definition tMyError : rtype := TStruct "test.MyError" [tString].

Definition tErrors : rtype := TDef "test.Errors" (TSlice tString).

(** And [Celsius], an integer type whose [String()] prints the number and
    a degree sign. *)
Definition tCelsius : rtype := TDef "test.Celsius" tInt.

Definition errorView (v : value) : option string :=
  match v with
  | VStruct (TStruct "test.MyError" _) [VStr _ s] => Some s
  | VSeq (TDef "test.Errors" _) (VStr _ s :: _) => Some s
  | _ => None
  end.

Definition stringerView (v : value) : option string :=
  match v with
  | VNum (TDef "test.Celsius" _) n => Some (pretty n +:+ "C")
  | VStruct (TStruct "test.MyError" _) [VStr _ s] => Some ("MyError: " +:+ s)
  | _ => None
  end.

(** Go's [Type.AssignableTo], on identical types and towards
    [interface{}]. *)
Definition AssignableTo (t u : rtype) : bool :=
  rtype_eqb t u || Kind_eqb (kindOf u) Interface.

(** Go's [regexp.MustCompile]: the engine is not modelled, a compiled
    regexp is given by its answers. *)
Definition regexp_MustCompile (pattern : string) : outcome Regexp :=
  Panic ("regexp: Compile(" +:+ pattern +:+ "): outside the modelled fragment").

#[export] Instance externals : Externals :=
  Build_Externals deepValueEqual CollectError CannotCompareError checkPtr
    checkType tdMap_match (fun v _ => Some v) json_Marshal json_Unmarshal
    unmarshal tdMap_populateExpectedEntries regexp_MustCompile AssignableTo
    (sameValue false) errorView stringerView.

End Ref.

(** * The vocabulary of the properties

    The notions the lemmas and theorems below are stated with. *)

(** The value [populateExpectedEntries] keeps for an expected value [v]: a
    nil one becomes the typed nil of the items. *)
Definition resolved (elemType : rtype) (v : value) : value :=
  if IsValid v then v else Zero elemType.

(** The resolution rule: the override if present, else the model's value if
    the model covers the index, else the zero value of the items. *)
Definition effective (elemType : rtype) (m : ArrayEntries) (model : value)
    (j : Z) : value :=
  match lookupEntry m j with
  | Some v => resolved elemType v
  | None =>
      if IsValid model && (j <? Len model) then Index model j
      else Zero elemType
  end.

(** A model value is well formed for its type: an array holds as many items
    as its type says. *)
Definition modelFits (t : rtype) (model : value) : Prop :=
  IsValid model = true -> forall n, lenOf t = Some n -> Len model = n.

(** How [newArray] reads its model for the kind [kind]: the type it
    expects, whether a pointer is expected, and the model value handed to
    [populateExpectedEntries]. *)
Inductive modelOf (kind : Kind) : value -> rtype -> bool -> value -> Prop :=
| modelOf_direct (model : value) (t : rtype) :
    typeOf model = Some t -> kindOf t <> Ptr -> kindOf t = kind ->
    modelOf kind model t false model
| modelOf_pointer (tp te t : rtype) (vmodel : value) :
    kindOf tp = Ptr -> elemOf tp = Some te -> kindOf te = kind ->
    typeOf vmodel = Some t ->
    modelOf kind (VPtrTo tp vmodel) t true vmodel
| modelOf_nil_pointer (model : value) (tp te : rtype) :
    typeOf model = Some tp -> kindOf tp = Ptr -> elemOf tp = Some te ->
    kindOf te = kind -> (forall t v, model <> VPtrTo t v) ->
    modelOf kind model te true VInvalid.

Definition isErr (r : option Error) : bool :=
  match r with Some _ => true | None => false end.

(** A call that started on the sink [s] detected a mismatch: it returned an
    error, or it collected one in the sink. *)
Definition failed (s : Sink) (r : Res) : bool :=
  isErr r.1 || (length s <? length r.2)%nat.

(** What the operators need from their collaborators: the accumulation
    point reports every error it is given, nobody removes an error from the
    sink, and whether a collaborator detects a mismatch depends neither on
    the boolean-only flag nor on what the sink holds. *)
Class ExternalsOK (E : Externals) : Prop := {
  collect_fails : forall ctx e s, failed s (CollectError ctx e s) = true;
  collect_grows : forall ctx e s,
    (length s <= length (CollectError ctx e s).2)%nat;
  dispatch_grows : forall ctx got expected s,
    (length s <= length (deepValueEqual ctx got expected s).2)%nat;
  dispatch_flag : forall ctx got expected b b' s s',
    failed s (deepValueEqual (setBooleanError ctx b) got expected s) =
    failed s' (deepValueEqual (setBooleanError ctx b') got expected s');
  map_grows : forall m ctx got s,
    (length s <= length (tdMap_match m ctx got s).2)%nat;
  map_flag : forall m ctx got b b' s s',
    failed s (tdMap_match m (setBooleanError ctx b) got s) =
    failed s' (tdMap_match m (setBooleanError ctx b') got s');
  checkPtr_flag : forall t ctx got nilOK b b',
    isErr (checkPtr t (setBooleanError ctx b) got nilOK).1 =
    isErr (checkPtr t (setBooleanError ctx b') got nilOK).1 /\
    (checkPtr t (setBooleanError ctx b) got nilOK).2 =
    (checkPtr t (setBooleanError ctx b') got nilOK).2;
  checkType_flag : forall t ctx got b b',
    isErr (checkType t (setBooleanError ctx b) got) =
    isErr (checkType t (setBooleanError ctx b') got)
}.

(** The loop of [tdArray.Match] detected a mismatch: it returned an error or
    the sink grew beyond [n0]. *)
Definition loopFailed (n0 : nat) (x : option (option Error) * tdArray * Sink) : bool :=
  match x.1.1 with
  | Some (Some _) => true
  | _ => (n0 <? length x.2)%nat
  end.

(** The loop of [tdArray.Match] ran to its end. *)
Definition loopEnded (x : option (option Error) * tdArray * Sink) : bool :=
  match x.1.1 with None => true | Some _ => false end.

(** The captured groups of all the matches, in match order then in group
    order: the groups of the first match, then those of the second, and so
    on, the whole match that opens each set being left out. *)
Definition capturedGroups {A} (result : list (list A)) : list A :=
  concat (drop 1 <$> result).

(** Where a group lands: group [g + 1] of match [k] comes after all the
    groups of the matches before [k] and after the first [g] groups of
    match [k]. *)
Definition groupsBefore {A} (result : list (list A)) (k : nat) : nat :=
  length (capturedGroups (take k result)).

(** The captures value [Match] hands to the dispatcher: a [[]interface{}]
    when the expectation is one, a [[]string] otherwise. *)
Definition capturesValue (r : tdRe) (groups : list string) : value :=
  VSeq (if hasType (captures r) SliceInterface then SliceInterface else SliceString)
       (VStr tString <$> groups).

(** The context in which the captures are compared. *)
Definition capturesCtx (r : tdRe) (ctx : Context) : Context :=
  ResetPath ctx ("(" +:+ PathString (Path ctx) +:+ " =~ " +:+ tdRe_String r +:+ ")").

(** The error [jsonify] builds when [json.Marshal] fails with the text
    [err]. *)
Definition marshalFailed (ctx : Context) (err : string) : Error :=
  if BooleanError ctx then ctxerr_BooleanError
  else Detailed (mkError "json.Marshal failed" NoRepr NoRepr (Some err) None).

(** How [Match] reads got: as a string, as bytes, or not at all. *)
Inductive subject : Type :=
| AsString (str : string)
| AsBytes (b : list Byte.byte)
| BadSlice (elemKind : Kind)
| BadType.

Definition elemKindOf (got : value) : Kind :=
  match typeOf got ≫= elemOf with Some e => kindOf e | None => Invalid end.

(** A method that leaves its receiver as it found it. *)
Definition preserves {O A} (m : M O A) : Prop :=
  forall (o : O) (s : Sink), receiverAfter m o s = o.

(** A compiled regexp known by its answers on the inputs of the examples:
    its pattern, and for each input the submatches the engine finds in it
    (none in any other input). *)
Fixpoint lookupTable (table : list (string * list (list string))) (str : string)
    : list (list string) :=
  match table with
  | [] => []
  | (k, found) :: rest => if String.eqb k str then found else lookupTable rest str
  end.

(** At most [n] matches, all of them when [n] is negative. *)
Definition atMost {A} (n : Z) (l : list A) : list A :=
  if n <? 0 then l else take (Z.to_nat n) l.

Definition tableRe (pattern : string)
    (table : list (string * list (list string))) : Regexp :=
  mkRegexp pattern
    (fun str => match lookupTable table str with [] => false | _ => true end)
    (fun str n => atMost n (lookupTable table str))
    (fun b => match lookupTable table (String.string_of_list_byte b) with
              | [] => false
              | _ => true
              end)
    (fun b n =>
       atMost n (List.map (List.map String.list_byte_of_string)
                   (lookupTable table (String.string_of_list_byte b)))).

Section Vocabulary.
Context `{Externals}.

(** The two constructors and the kind each one asks of its model. *)
Inductive constructorOf :
  Kind -> (value -> ArrayEntries -> outcome tdArray) -> Prop :=
| constructor_Array : constructorOf reflect.Array Array
| constructor_Slice : constructorOf reflect.Slice Slice.

(** An expected entry that passes the checks of the loop: it is not nil, it
    is an operator or a value assignable to the items, and its index is not
    negative. *)
Definition acceptable (elemType : rtype) (e : Z * value) : Prop :=
  0 <= e.1 /\ IsValid e.2 = true /\
  (isTestDeep e.2 = true \/
   exists t, typeOf e.2 = Some t /\ AssignableTo t elemType = true).

(** What [doesNotMatch] answers. *)
Definition doesNotMatchRes (r : tdRe) (ctx : Context) (got : value) (s : Sink) : Res :=
  if BooleanError ctx then (Some ctxerr_BooleanError, s)
  else CollectError ctx (Detailed (mkError "does not match Regexp" (OfValue got)
                                     (RawString (re_String (re r))) None None)) s.

(** What the end of [Match] answers for the string [str]. *)
Definition matchStrRes (r : tdRe) (ctx : Context) (str : string) (s : Sink) : Res :=
  if needCaptures r then
    match re_FindAllStringSubmatch (re r) str (numMatches r) with
    | [] => doesNotMatchRes r ctx (VStr tString str) s
    | result => deepValueEqual (capturesCtx r ctx)
                  (capturesValue r (capturedGroups result)) (captures r) s
    end
  else if re_MatchString (re r) str then (None, s)
  else doesNotMatchRes r ctx (VStr tString str) s.

(** What [Match] answers for the bytes [b]. *)
Definition matchBytesRes (r : tdRe) (ctx : Context) (b : list Byte.byte) (s : Sink) : Res :=
  if needCaptures r then
    match re_FindAllSubmatch (re r) b (numMatches r) with
    | [] => doesNotMatchRes r ctx (bytesValue b) s
    | result => deepValueEqual (capturesCtx r ctx)
                  (capturesValue r (String.string_of_list_byte <$> capturedGroups result))
                  (captures r) s
    end
  else if re_Match (re r) b then (None, s)
  else doesNotMatchRes r ctx (bytesValue b) s.

Definition subjectOf (got : value) : subject :=
  match valueKind got with
  | reflect.String => AsString (gotString got)
  | reflect.Slice =>
      if Kind_eqb (elemKindOf got) Uint8 then AsBytes (gotBytes got)
      else BadSlice (elemKindOf got)
  | _ =>
      match errorView got with
      | Some str => AsString str
      | None =>
          match stringerView got with
          | Some str => AsString str
          | None => BadType
          end
      end
  end.

Definition badRes (ctx : Context) (message : string) (gotRepr expected : string)
    (s : Sink) : Res :=
  if BooleanError ctx then (Some ctxerr_BooleanError, s)
  else CollectError ctx (Detailed (mkError message (RawString gotRepr)
                                     (RawString expected) None None)) s.

(** What [tdMapJSON.Match] answers to a null got. *)
Definition nullRes (ctx : Context) (s : Sink) : Res :=
  if BooleanError ctx then (Some ctxerr_BooleanError, s)
  else CollectError ctx (Detailed (mkError "values differ" (RawString "null")
                                     (RawString "non-null") None None)) s.

End Vocabulary.

(** ** Values and operators for the examples *)

Section Samples.
#[local] Existing Instance Ref.externals.

Definition int3 : rtype := TArray 3 tInt.

Definition sparseModel : value := VSeq int3 [VNum tInt 0; VNum tInt 14; VNum tInt 0].

Definition dataCtx : Context := mkContext [SegRoot "DATA"] false false 10.

Definition ints (t : rtype) (l : list Z) : value := VSeq t (VNum tInt <$> l).

(** The pattern of the documentation and what Go's engine finds with it in
    "John Doe". *)
Definition nameRe : Regexp :=
  tableRe "^(\w+) (\w+)$" [("John Doe", [["John Doe"; "John"; "Doe"]])].

(** A pattern with one group per token and what the engine finds with it in
    "a1 b2". *)
Definition tokenRe : Regexp :=
  tableRe "(\w+)(?: |\z)" [("a1 b2", [["a1 "; "a1"]; ["b2"; "b2"]])].

Definition strings (l : list string) : value := VSeq SliceString (VStr tString <$> l).

Definition nameOp : tdRe := mkRe "Re" nameRe (strings ["John"; "Doe"]) 1.

(** An expectation of no captures at all: were the empty sequence of
    captures compared with it, the comparison would succeed. *)
Definition noCapturesOp : tdRe := mkRe "Re" nameRe (strings []) 1.

(** A regexp that matches the text "boom" and nothing else. *)
Definition boomRe : Regexp := tableRe "^boom$" [("boom", [["boom"]])].

Definition laxCtx : Context := setBeLax dataCtx true.

(** The expectation ["Bob"] and a got value that Go cannot encode, a
    channel. *)
Definition bobOp : tdJSON := mkJSON "JSON" (VStr tString "Bob").

Definition aChannel : value := VNil (TChan tInt).

(** A [SubJSONOf] operator for the object [{"name": "Bob"}]. *)
Definition bobObject : value := VMap MapStringInterface [("name", VStr tString "Bob")].

Definition subOp : tdMapJSON :=
  mkMapJSON
    (tdMap_populateExpectedEntries
       (mkMap (mkExpectedType "SubJSONOf" MapStringInterface false) subMap [])
       bobObject)
    bobObject.

End Samples.

(** * More vocabulary *)

(** The number of items an operator built by [Array] or [Slice] expects:
    the length of the array type, or for a slice the highest index given
    plus one, unless the model is longer. *)
Definition expectedLength (t : rtype) (m : ArrayEntries) (vmodel : value) : Z :=
  match lenOf t with
  | Some n => n
  | None => Z.max (maxIndexOf m + 1) (Len vmodel)
  end.

(** The highest index fits in an array type (a slice type has no limit). *)
Definition indexesFit (t : rtype) (m : ArrayEntries) : Prop :=
  kindOf t = reflect.Array -> exists n, lenOf t = Some n /\ maxIndexOf m < n.

(** The usage text of each constructor. *)
Definition usageOf (kind : Kind) : string :=
  if Kind_eqb kind reflect.Array then "Array(ARRAY|&ARRAY, EXPECTED_ENTRIES)"
  else "Slice(SLICE|&SLICE, EXPECTED_ENTRIES)".

(** A model that is not what a constructor asks for: nil, a value of
    another kind, or a pointer to a type of another kind. *)
Inductive wrongModel (kind : Kind) : value -> Prop :=
| wrongModel_nil model :
    typeOf model = None -> wrongModel kind model
| wrongModel_kind model t :
    typeOf model = Some t -> kindOf t <> Ptr -> kindOf t <> kind ->
    wrongModel kind model
| wrongModel_pointer model tp te :
    typeOf model = Some tp -> kindOf tp = Ptr -> elemOf tp = Some te ->
    kindOf te <> kind ->
    wrongModel kind model.

(** The word the type error of an entry uses for the container. *)
Definition containerWord (t : rtype) : string :=
  if Kind_eqb (kindOf t) reflect.Array then "array" else "slice".

Section MoreVocabulary.
Context `{Externals}.

(** The comparison of one item succeeds and reports nothing. *)
Definition accepts (ctx : Context) (got expected : value) : Prop :=
  failed [] (deepValueEqual ctx got expected []) = false.

(** The comparison of one item succeeds and leaves the sink [s] alone. *)
Definition silent (ctx : Context) (got expected : value) (s : Sink) : Prop :=
  deepValueEqual ctx got expected s = (None, s).

End MoreVocabulary.

Section MoreVocabulary2.
Context `{Externals}.

(** An expected value that passes the checks of the loop over the entries:
    it is not nil and is an operator or a value assignable to the items. *)
Definition fitsItems (elemType : rtype) (v : value) : Prop :=
  IsValid v = true /\
  (isTestDeep v = true \/
   exists t, typeOf v = Some t /\ AssignableTo t elemType = true).

End MoreVocabulary2.

(** The error [tdArray.Match] reports when got and the operator differ in
    length: at the first index that one of them lacks. *)
Definition lengthMismatch (got : value) (es : list value) : ErrorInfo :=
  let n := Z.of_nat (length es) in
  if Len got <? n then
    mkError "expected value out of range" (RawString "<non-existent value>")
            (OfValue (default VInvalid (es !! Z.to_nat (Len got)))) None None
  else
    mkError "got value out of range" (OfValue (Index got n))
            (RawString "<non-existent value>") None None.

(** ** The operators inside a JSON expectation *)

Definition dq : string := String.String (Ascii.ascii_of_nat 34) EmptyString.

(** [forbiddenOpsInJSON]: the operators refused inside a JSON expectation,
    each with the alternative that helps the user, if there is one. *)
Definition forbiddenOpsInJSON : list (string * string) :=
  [("Array", "literal []"); ("Cap", ""); ("Catch", ""); ("Code", "");
   ("Delay", ""); ("Isa", ""); ("JSON", "literal JSON"); ("Lax", "");
   ("Map", "literal {}"); ("PPtr", ""); ("Ptr", ""); ("SStruct", "");
   ("Shallow", ""); ("Slice", "literal []"); ("Smuggle", "");
   ("String", "literal " +:+ dq +:+ dq); ("SubJSONOf", "SubMapOf operator");
   ("SuperJSONOf", "SuperMapOf operator"); ("Struct", ""); ("Tag", "");
   ("TruncTime", "")].

(** The names of [jsonOpShortcuts], the operators usable as
    [$^OperatorName]. *)
Definition jsonOpShortcuts : list string :=
  ["Empty"; "Ignore"; "NaN"; "Nil"; "NotEmpty"; "NotNaN"; "NotNil";
   "NotZero"; "Zero"].

(** Reading a Go map that is written out in the source. *)
Fixpoint lookupName {A} (table : list (string * A)) (name : string) : option A :=
  match table with
  | [] => None
  | (k, v) :: rest => if String.eqb k name then Some v else lookupName rest name
  end.

(** [location.Location]: the position fields, which the functions here copy
    as they are, and the two fields they set. *)
Record Location : Type := mkLocation {
  loc_Position : string;
  loc_Func : string;
  loc_Inside : string
}.

(** An operator behind the [TestDeep] interface: what it is and the
    location it reports. *)
Record TestDeep : Type := mkTestDeep {
  td_value : value;
  td_location : Location
}.

(** [json.Operator] and [json.Position] of the parser. *)
Record json_Operator : Type := mkOperator {
  op_Name : string;
  op_Params : list value
}.

Record json_Position : Type := mkPosition {
  Pos : Z;
  Line : Z;
  Col : Z
}.

(** What a panic carries once recovered. *)
Inductive panicValue : Type :=
| PanicString (s : string)
| PanicOther (v : value).

(** A constructor of the registry seen through [reflect]: the types of its
    parameters, whether the last one is variadic, and what calling it
    gives, an operator or the value it panics with. *)
Record opFunc : Type := mkOpFunc {
  fn_In : list rtype;
  fn_IsVariadic : bool;
  fn_Call : list value -> TestDeep + panicValue
}.

Inductive BoundsKind : Type :=
| BoundsInIn | BoundsInOut | BoundsOutIn | BoundsOutOut.

(** What the functions here take from the rest of the package: the registry
    [allOperators], the values of the [BoundsKind] constants and of
    [MapEntries(nil)], [color.UnBad], the constructors behind
    [jsonOpShortcuts], the [String] method of the operators and the one of
    [json.Position]. *)
Class JSONOps : Type := {
  allOperators : string -> option opFunc;
  Bounds : BoundsKind -> value;
  nilMapEntries : value;
  UnBad : string -> string;
  shortcutOp : string -> TestDeep;
  TestDeep_String : TestDeep -> string;
  Position_String : json_Position -> string;
  AsOperatorNotJSONMarshallableError : string -> bool
}.

(** An error [resolveOp] returns. *)
Inductive jsonError : Type :=
| Errorf (format : string) (args : list farg)
| ErrorfPanic (name : string) (panicArg : panicValue).

(** What [resolveOp] does: it returns a value, returns an error, or
    panics. *)
Inductive answer (A : Type) : Type :=
| Returns (a : A)
| Fails (e : jsonError)
| Panics (why : string).

Arguments Returns {A} a.
Arguments Fails {A} e.
Arguments Panics {A} why.

(** [tdJSONPlaceholder]. *)
Record tdJSONPlaceholder : Type := mkPlaceholder {
  ph_TestDeep : TestDeep;
  ph_name : string;
  ph_num : N
}.

(** A parameter of [JSON], [SubJSONOf] or [SuperJSONOf] once flattened: a
    [Tag] operator, another operator, or a plain value. *)
Inductive param : Type :=
| PTag (tag : string) (op : TestDeep)
| POp (op : TestDeep)
| PValue (v : value).

(** What the loop of [unmarshal] leaves in [params]: a [Tag] operator as it
    was, a placeholder in the place of another operator, or a plain
    value. *)
Inductive slot : Type :=
| STag (tag : string) (op : TestDeep)
| SPlaceholder (p : tdJSONPlaceholder)
| SValue (v : value).

(** The type assertion [v.(string)]. *)
Definition asString (v : value) : option string :=
  match v with
  | VStr t s => if rtype_eqb t tString then Some s else None
  | _ => None
  end.

(** [strings.Repeat] and [strings.Replace(s, "\n", indent, -1)]. *)
Definition strings_Repeat (s : string) (count : nat) : string :=
  foldr (fun _ acc => s +:+ acc) EmptyString (replicate count tt).

Definition newline : Ascii.ascii := Ascii.ascii_of_nat 10.

(** The character that opens the name of a shortcut. *)
Definition caret : Ascii.ascii := Ascii.ascii_of_nat 94.

Fixpoint replaceNewlines (indent : string) (s : string) : string :=
  match s with
  | EmptyString => EmptyString
  | String.String c rest =>
      if Ascii.eqb c newline then indent +:+ replaceNewlines indent rest
      else String.String c (replaceNewlines indent rest)
  end.

Section JSONOperators.
Context `{JSONOps}.

(** [tdJSONUnmarshaler.replaceLocation]; the operator it updates is
    returned. *)
Definition replaceLocation (u : Location) (tdOp : TestDeep)
    (posInJSON : json_Position) : TestDeep :=
  mkTestDeep (td_value tdOp)
    (mkLocation (loc_Position u)
       (loc_Func (td_location tdOp))
       (Position_String posInJSON +:+ " inside operator " +:+ loc_Func u +:+ " ")).

(** The switch on [jop.Name]: [min], [max], [addNilParam] and the
    parameters, in which [Between] replaces its third one. *)
Definition specialCases (jop : json_Operator) (tfn : opFunc)
    : answer (Z * Z * bool * list value) :=
  let name := op_Name jop in
  let params := op_Params jop in
  if String.eqb name "Between" then
    if (length params =? 3)%nat then
      let s := default EmptyString (params !! 2%nat ≫= asString) in
      let bounds :=
        if String.eqb s "[]" || String.eqb s "BoundsInIn" then Some BoundsInIn
        else if String.eqb s "[[" || String.eqb s "BoundsInOut" then Some BoundsInOut
        else if String.eqb s "]]" || String.eqb s "BoundsOutIn" then Some BoundsOutIn
        else if String.eqb s "][" || String.eqb s "BoundsOutOut" then Some BoundsOutOut
        else None in
      match bounds with
      | Some b => Returns (2, 3, false, <[2%nat := Bounds b]> params)
      | None =>
          Fails (Errorf ("Between() bad 3rd parameter, use " +:+
                         dq +:+ "[]" +:+ dq +:+ ", " +:+ dq +:+ "[[" +:+ dq +:+
                         ", " +:+ dq +:+ "]]" +:+ dq +:+ " or " +:+
                         dq +:+ "][" +:+ dq) [])
      end
    else Returns (2, 3, false, params)
  else if String.eqb name "N" then Returns (1, 2, false, params)
  else if String.eqb name "Re" then Returns (1, 2, false, params)
  else if String.eqb name "SubMapOf" then Returns (1, 1, true, params)
  else if String.eqb name "SuperMapOf" then Returns (1, 1, true, params)
  else
    let min := Z.of_nat (length (fn_In tfn)) in
    Returns (min, if fn_IsVariadic tfn then -1 else min, false, params).

(** The error for a number of parameters out of [min] and [max]. *)
Definition arityError (name : string) (min max : Z) : jsonError :=
  if max <? 0 then Errorf "%s() requires at least one parameter" [AStr name]
  else if max =? 0 then Errorf "%s() requires no parameters" [AStr name]
  else if min =? max then
    if min =? 1 then Errorf "%s() requires only one parameter" [AStr name]
    else Errorf "%s() requires %d parameters" [AStr name; AInt min]
  else Errorf "%s() requires %d or %d parameters" [AStr name; AInt min; AInt max].

(** The loop over [in[:numCheck]], from the index [i] on. *)
Fixpoint checkParams (name : string) (tfn : opFunc) (i : nat)
    (ps : list value) : answer unit :=
  match ps with
  | [] => Returns tt
  | p :: rest =>
      match fn_In tfn !! i with
      | None => Panics "index out of range"
      | Some fpt =>
          if negb (Kind_eqb (kindOf fpt) Interface) then
            match typeOf p with
            | None => Panics "reflect: call of reflect.Value.Type on zero Value"
            | Some tp =>
                if negb (rtype_eqb tp fpt) then
                  Fails (Errorf "%s() bad #%d parameter type: %s required but %s received"
                                [AStr name; AInt (Z.of_nat i + 1); AType fpt; AType tp])
                else checkParams name tfn (S i) rest
            end
          else checkParams name tfn (S i) rest
      end
  end.

(** The closure [resolveOp] returns, for the unmarshaler located at [u]; the
    operator it answers is the one [tdJSONEmbedded] wraps. *)
Definition resolveOp (u : Location) (jop : json_Operator)
    (posInJSON : json_Position) : answer TestDeep :=
  let name := op_Name jop in
  match allOperators name with
  | None => Fails (Errorf "unknown operator %s()" [AStr name])
  | Some tfn =>
      match lookupName forbiddenOpsInJSON name with
      | Some hint =>
          if String.eqb hint "" then
            Fails (Errorf "%s() is not usable in JSON()" [AStr name])
          else
            Fails (Errorf "%s() is not usable in JSON(), use %s instead"
                          [AStr name; AStr hint])
      | None =>
          match specialCases jop tfn with
          | Fails e => Fails e
          | Panics why => Panics why
          | Returns (min, max, addNilParam, params) =>
              let n := Z.of_nat (length params) in
              if (n <? min) || ((0 <=? max) && (max <? n)) then
                Fails (arityError name min max)
              else
                let in_ :=
                  if (0 <? n) && addNilParam then params ++ [nilMapEntries]
                  else params in
                let numCheck :=
                  if fn_IsVariadic tfn then Z.of_nat (length (fn_In tfn)) - 1
                  else Z.of_nat (length in_) in
                let checked :=
                  if 0 <? n then
                    if (numCheck <? 0) || (Z.of_nat (length in_) <? numCheck) then
                      Panics "slice bounds out of range"
                    else checkParams name tfn 0 (take (Z.to_nat numCheck) in_)
                  else Returns tt in
                match checked with
                | Fails e => Fails e
                | Panics why => Panics why
                | Returns _ =>
                    match fn_Call tfn in_ with
                    | inl tdOp => Returns (replaceLocation u tdOp posInJSON)
                    | inr (PanicString s) =>
                        Fails (ErrorfPanic name (PanicString (UnBad s)))
                    | inr panicArg => Fails (ErrorfPanic name panicArg)
                    end
                end
          end
      end
  end.

(** The closure [resolveOpShortcut] returns. *)
Definition resolveOpShortcut (u : Location) (opName : string)
    (posInJSON : json_Position) : option tdJSONPlaceholder :=
  if bool_decide (opName ∈ jsonOpShortcuts) then
    Some (mkPlaceholder (replaceLocation u (shortcutOp opName) posInJSON)
            ("^" +:+ opName) 0)
  else None.

(** [tdJSONPlaceholder.MarshalJSON]; indexing the empty name panics. *)
Definition tdJSONPlaceholder_MarshalJSON (p : tdJSONPlaceholder) : outcome string :=
  let comment (b : string) : string :=
    let b := b +:+ " /* " in
    let indent := String.String newline (strings_Repeat " " (String.length b)) in
    b +:+ replaceNewlines indent (TestDeep_String (ph_TestDeep p)) +:+ " */" in
  if (ph_num p =? 0)%N then
    let b := dq +:+ "$" +:+ ph_name p +:+ dq in
    match ph_name p with
    | EmptyString => Panic "index out of range"
    | String.String c _ =>
        if Ascii.eqb c caret then Ok b else Ok (comment b)
    end
  else Ok (comment (dq +:+ "$" +:+ pretty (ph_num p) +:+ dq)).

(** The loop of [unmarshal] over the flattened parameters, from the index
    [i] on: the parameters as it leaves them and the map [byTag], or the
    message it panics with. *)
Fixpoint placeholders `{Externals} (fn : string) (i : nat) (params : list param)
    (byTag : gmap string tdJSONPlaceholder)
    : usage + (list slot * gmap string tdJSONPlaceholder) :=
  match params with
  | [] => inr ([], byTag)
  | p :: rest =>
      let continue (p' : slot) (byTag' : gmap string tdJSONPlaceholder) :=
        match placeholders fn (S i) rest byTag' with
        | inl e => inl e
        | inr (ps, tags) => inr (p' :: ps, tags)
        end in
      match p with
      | PTag tag op =>
          if bool_decide (is_Some (byTag !! tag)) then
            inl (Bad ("%s(): 2 params have the same tag " +:+ dq +:+ "%s" +:+ dq)
                     [AStr fn; AStr tag])
          else continue (STag tag op) (<[tag := mkPlaceholder op tag 0]> byTag)
      | POp op =>
          continue (SPlaceholder (mkPlaceholder op EmptyString (N.of_nat (i + 1))))
                   byTag
      | PValue v =>
          match json_Marshal v with
          | inl err =>
              if AsOperatorNotJSONMarshallableError err then continue (SValue v) byTag
              else inl (Bad "%s(): param #%d of type %T cannot be JSON marshalled"
                            [AStr fn; AInt (Z.of_nat i + 1);
                             match typeOf v with
                             | Some t => AType t
                             | None => AStr "<nil>"
                             end])
          | inr bp => continue (SValue (json_Unmarshal bp)) byTag
          end
      end
  end.

(** [tdJSONEmbedded.MarshalJSON]. *)
Definition tdJSONEmbedded_MarshalJSON (e : TestDeep) : outcome string :=
  Ok (TestDeep_String e).

(** *** Vocabulary *)

(** The tags of the parameters, in their order. *)
Definition tagsOf (params : list param) : list string :=
  omap (fun p => match p with PTag tag _ => Some tag | _ => None end) params.

(** A plain value that the loop of [unmarshal] accepts: it can be encoded,
    or it cannot because an operator is inside. *)
Definition encodable `{Externals} (p : param) : Prop :=
  match p with
  | PValue v =>
      match json_Marshal v with
      | inl err => AsOperatorNotJSONMarshallableError err = true
      | inr _ => True
      end
  | _ => True
  end.

(** The number of parameters whose type [resolveOp] checks. *)
Definition numChecked (tfn : opFunc) (given : nat) : Z :=
  if fn_IsVariadic tfn then Z.of_nat (length (fn_In tfn)) - 1
  else Z.of_nat given.

(** The signature of a constructor agrees with the numbers of parameters
    that [resolveOp] lets through for its name: a variadic one has no more
    fixed parameters than the minimum, another one has a parameter for each
    value it can be called with. *)
Definition signatureFits (jop : json_Operator) (tfn : opFunc) : Prop :=
  match specialCases jop tfn with
  | Returns (min, max, addNilParam, _) =>
      let numIn := Z.of_nat (length (fn_In tfn)) in
      if fn_IsVariadic tfn then 1 <= numIn /\ numIn - 1 <= min
      else max + (if addNilParam then 1 else 0) <= numIn
  | _ => True
  end.

(** The names [resolveOp] has a special case for. *)
Definition specialNames : list string :=
  ["Between"; "N"; "Re"; "SubMapOf"; "SuperMapOf"].

(** The quoted text that opens what [MarshalJSON] prints: the number of the
    placeholder, or its name when it has no number. *)
Definition placeholderText (p : tdJSONPlaceholder) : string :=
  dq +:+ "$" +:+
  (if (ph_num p =? 0)%N then ph_name p else pretty (ph_num p)) +:+ dq.

(** A placeholder made for [$^OperatorName]. *)
Definition isShortcut (p : tdJSONPlaceholder) : bool :=
  (ph_num p =? 0)%N &&
  match ph_name p with
  | String.String c _ => Ascii.eqb c caret
  | EmptyString => false
  end.

Fixpoint hasNewline (s : string) : bool :=
  match s with
  | EmptyString => false
  | String.String c rest => Ascii.eqb c newline || hasNewline rest
  end.

(** A parameter passes the check against the type [fpt]. *)
Definition passes (fpt : rtype) (p : value) : Prop :=
  kindOf fpt = Interface \/
  exists tp, typeOf p = Some tp /\ rtype_eqb tp fpt = true.

End JSONOperators.

(** A registry for the examples: [HasPrefix(string)], the variadic
    [All(...interface{})] and [Re(interface{}, ...interface{})], and a
    [Gt] that panics on what it is given. *)
Definition sampleOps : JSONOps := {|
  allOperators := fun name =>
    let built (args : list value) : TestDeep + panicValue :=
      inl (mkTestDeep (VOp name args) (mkLocation "ops.go:10" name "")) in
    if String.eqb name "HasPrefix" then Some (mkOpFunc [tString] false built)
    else if String.eqb name "All" then Some (mkOpFunc [SliceInterface] true built)
    else if String.eqb name "Re" then
      Some (mkOpFunc [tInterface; SliceInterface] true built)
    else if String.eqb name "Gt" then
      Some (mkOpFunc [tInterface] false
              (fun _ => inr (PanicString "usage: Gt(NUM|TIME)")))
    else None;
  Bounds := fun b =>
    VNum (TDef "td.BoundsKind" tUint8)
         match b with
         | BoundsInIn => 0 | BoundsInOut => 1 | BoundsOutIn => 2 | BoundsOutOut => 3
         end;
  nilMapEntries := VNil (TDef "td.MapEntries" (TMap tInterface tInterface));
  UnBad := fun s => s;
  shortcutOp := fun name => mkTestDeep (VOp name []) (mkLocation "ops.go:20" name "");
  TestDeep_String := fun op =>
    match td_value op with
    | VOp name [] => name +:+ "()"
    | VOp name args =>
        String.concat (String.String newline EmptyString)
          ([name +:+ "("] ++ ((fun _ => "  ...,") <$> args) ++ [")"])
    | _ => EmptyString
    end;
  Position_String := fun pos =>
    "line " +:+ pretty (Line pos) +:+ ":" +:+ pretty (Col pos) +:+
    " (pos " +:+ pretty (Pos pos) +:+ ")";
  AsOperatorNotJSONMarshallableError := fun err =>
    String.eqb err "operator not JSON marshallable"
|}.

(** The unmarshaler of a [JSON] operator declared at [file.go:23]. *)
Definition sampleLocation : Location := mkLocation "file.go:23" "JSON" "".

(** ** Package tdhttp: requests and their headers *)

Module tdhttp.

(** [http.Header], a [map[string][]string]. *)
Abbreviation http_Header := (gmap string (list string)).

(** An item of [headers ...interface{}]: a string, an [http.Header], or a
    value of any other type [t]. *)
Inductive iface : Type :=
| IString (s : string)
| IHeader (h : http_Header)
| IOther (t : rtype).

Definition tHeader : rtype :=
  TDef "http.Header" (TMap tString (TSlice tString)).

(** What [%T] prints for an item. *)
Definition typeOfItem (x : iface) : rtype :=
  match x with
  | IString _ => tString
  | IHeader _ => tHeader
  | IOther t => t
  end.

(** [*http.Request], as far as these functions look at it; the body is what
    its reader yields, [None] for a nil reader. *)
Record Request : Type := mkRequest {
  Method : string;
  Target : string;
  Body : option (list Byte.byte);
  Header : http_Header
}.

Definition withHeader (req : Request) (h : http_Header) : Request :=
  mkRequest (Method req) (Target req) (Body req) h.

(** What the package takes from elsewhere: [flat.Interfaces] of the
    repository, and Go's [textproto.CanonicalMIMEHeaderKey],
    [httptest.NewRequest], [xml.Marshal] and [url.Values.Encode]. *)
Class Net : Type := {
  Interfaces : list iface -> list iface;
  CanonicalMIMEHeaderKey : string -> string;
  httptest_NewRequest : string -> string -> option (list Byte.byte) -> outcome Request;
  xml_Marshal : value -> string + list Byte.byte;
  Values_Encode : gmap string (list string) -> string
}.

Definition MethodGet : string := "GET".
Definition MethodHead : string := "HEAD".
Definition MethodPost : string := "POST".
Definition MethodPut : string := "PUT".
Definition MethodPatch : string := "PATCH".
Definition MethodDelete : string := "DELETE".



Section Requests.
Context `{Externals} `{Net}.

(** [Header.Add]: the value goes after those of the canonical key. *)
Definition Add (h : http_Header) (key value : string) : http_Header :=
  let key := CanonicalMIMEHeaderKey key in
  <[key := default [] (h !! key) ++ [value]]> h.

(** [req.Header[k] = append(req.Header[k], v...)]. *)
Definition appendValues (h : http_Header) (k : string) (v : list string) : http_Header :=
  <[k := default [] (h !! k) ++ v]> h.

(** The loop [for k, v := range cur], in the order [order] in which [range]
    visits the entries. *)
Definition mergeIn (order : list (string * list string)) (h : http_Header) : http_Header :=
  foldl (fun h kv => appendValues h kv.1 kv.2) h order.

(** The loop of [addHeaders] from the index [i] on, over the rest of the
    flattened headers. *)
Fixpoint addHeadersFrom (h : http_Header) (i : Z) (headers : list iface)
    : outcome http_Header :=
  match headers with
  | [] => Ok h
  | IString cur :: rest =>
      match rest with
      | [] => Ok (Add h cur "")
      | IString val :: rest' => addHeadersFrom (Add h cur val) (i + 2) rest'
      | x :: _ =>
          Fatal (Bad ("header " +:+ dq +:+ "%s" +:+ dq +:+
                      " should have a string value, not a %T (@ headers[%d])")
                     [AStr cur; AType (typeOfItem x); AInt (i + 1)])
      end
  | IHeader cur :: rest =>
      addHeadersFrom (mergeIn (map_to_list cur) h) (i + 1) rest
  | IOther t :: _ =>
      Fatal (Bad "headers... can only contains string and http.Header, not %T (@ headers[%d])"
                 [AType t; AInt i])
  end.

Definition addHeaders (req : Request) (headers : list iface) : outcome Request :=
  h <-! addHeadersFrom (Header req) 0 (Interfaces headers) ;;
  Ok (withHeader req h).

Definition NewRequest (method target : string) (body : option (list Byte.byte))
    (headers : list iface) : outcome Request :=
  req <-! httptest_NewRequest method target body ;;
  addHeaders req headers.

Definition Get (target : string) (headers : list iface) : outcome Request :=
  req <-! httptest_NewRequest MethodGet target None ;;
  addHeaders req headers.

Definition Head (target : string) (headers : list iface) : outcome Request :=
  req <-! httptest_NewRequest MethodHead target None ;;
  addHeaders req headers.

Definition Post (target : string) (body : option (list Byte.byte))
    (headers : list iface) : outcome Request :=
  req <-! httptest_NewRequest MethodPost target body ;;
  addHeaders req headers.

Definition PostForm (target : string) (data : gmap string (list string))
    (headers : list iface) : outcome Request :=
  req <-! httptest_NewRequest MethodPost target
            (Some (String.list_byte_of_string (Values_Encode data))) ;;
  addHeaders req
    (headers ++ [IString "Content-Type";
                 IString "application/x-www-form-urlencoded"]).

Definition Put (target : string) (body : option (list Byte.byte))
    (headers : list iface) : outcome Request :=
  req <-! httptest_NewRequest MethodPut target body ;;
  addHeaders req headers.

Definition Patch (target : string) (body : option (list Byte.byte))
    (headers : list iface) : outcome Request :=
  req <-! httptest_NewRequest MethodPatch target body ;;
  addHeaders req headers.

Definition Delete (target : string) (body : option (list Byte.byte))
    (headers : list iface) : outcome Request :=
  req <-! httptest_NewRequest MethodDelete target body ;;
  addHeaders req headers.

Definition newJSONRequest (method target : string) (body : value)
    (headers : list iface) : outcome Request :=
  match json_Marshal body with
  | inl err => Fatal (Bad "JSON encoding failed: %s" [AStr err])
  | inr b =>
      req <-! NewRequest method target (Some b) [] ;;
      addHeaders req
        (headers ++ [IString "Content-Type"; IString "application/json"])
  end.

Definition NewJSONRequest := newJSONRequest.

Definition PostJSON (target : string) (body : value) (headers : list iface) :=
  newJSONRequest MethodPost target body headers.

Definition PutJSON (target : string) (body : value) (headers : list iface) :=
  newJSONRequest MethodPut target body headers.

Definition PatchJSON (target : string) (body : value) (headers : list iface) :=
  newJSONRequest MethodPatch target body headers.

Definition DeleteJSON (target : string) (body : value) (headers : list iface) :=
  newJSONRequest MethodDelete target body headers.

Definition newXMLRequest (method target : string) (body : value)
    (headers : list iface) : outcome Request :=
  match xml_Marshal body with
  | inl err => Fatal (Bad "XML encoding failed: %s" [AStr err])
  | inr b =>
      req <-! NewRequest method target (Some b) [] ;;
      addHeaders req
        (headers ++ [IString "Content-Type"; IString "application/xml"])
  end.

Definition NewXMLRequest := newXMLRequest.

Definition PostXML (target : string) (body : value) (headers : list iface) :=
  newXMLRequest MethodPost target body headers.

Definition PutXML (target : string) (body : value) (headers : list iface) :=
  newXMLRequest MethodPut target body headers.

Definition PatchXML (target : string) (body : value) (headers : list iface) :=
  newXMLRequest MethodPatch target body headers.

Definition DeleteXML (target : string) (body : value) (headers : list iface) :=
  newXMLRequest MethodDelete target body headers.

(** *** Vocabulary *)

(** Headers in which every string key is followed by its string value. *)
Inductive complete : list iface -> Prop :=
| complete_nil : complete []
| complete_pair k v l : complete l -> complete (IString k :: IString v :: l)
| complete_header h l : complete l -> complete (IHeader h :: l).

(** Key and value pairs as the strings a caller writes. *)
Definition pairsOf (pairs : list (string * string)) : list iface :=
  flat_map (fun kv => [IString kv.1; IString kv.2]) pairs.

(** The values given for the header whose canonical name is [key], in the
    order given. *)
Definition valuesFor (key : string) (pairs : list (string * string)) : list string :=
  (filter (fun kv => CanonicalMIMEHeaderKey kv.1 = key) pairs).*2.

(** The header of [key] once [more] is appended to its values; nothing
    changes when there is nothing to append. *)
Definition extended (h : http_Header) (key : string) (more : list string)
    : option (list string) :=
  match more with
  | [] => h !! key
  | _ => Some (default [] (h !! key) ++ more)
  end.

(** Every header of [h] is still in [h'], with the values it had first. *)
Definition extends (h h' : http_Header) : Prop :=
  forall key old, h !! key = Some old ->
  exists more, h' !! key = Some (old ++ more).

(** The content type each kind of request declares. *)
Definition contentType (mime : string) : list iface :=
  [IString "Content-Type"; IString mime].

End Requests.

(** Collaborators for the examples: nothing to flatten, the header names of
    the examples in their canonical form, and a request made of what
    [httptest.NewRequest] is given. *)
Definition plainNet : Net := {|
  Interfaces := fun headers => headers;
  CanonicalMIMEHeaderKey := fun key =>
    if String.eqb key "content-type" then "Content-Type"
    else if String.eqb key "x-test" then "X-Test"
    else key;
  httptest_NewRequest := fun method target body =>
    Ok (mkRequest method target body ∅);
  xml_Marshal := fun _ => inl "xml: unsupported type";
  Values_Encode := fun _ => EmptyString
|}.

End tdhttp.

(** ** Package internal/test: the mocks of [testing.T] and [testing.TB] *)

Module test.

Record TestingT : Type := mkTestingT {
  Messages : list string;
  IsFatal : bool;
  HasFailed : bool
}.

Definition NewTestingT : TestingT := mkTestingT [] false false.

(** Go's [fmt.Sprint] and [fmt.Sprintf]. *)
Class Fmt : Type := {
  Sprint : list value -> string;
  Sprintf : string -> list value -> string
}.

(** What a registered cleanup function does to the world [W] it runs in,
    and the value it panics with, if it panics. *)
Definition func (W : Type) : Type := W -> W * option string.

(** [TestingTB]; the embedded [testing.TB] stays nil.  The finalizer that
    [Cleanup] sets is left to the garbage collector, the field only is
    modelled. *)
Record TestingTB (W : Type) : Type := mkTestingTB {
  T : TestingT;
  name : string;
  cleanup : option (func W)
}.

Arguments mkTestingTB {W}.
Arguments T {W}.
Arguments name {W}.
Arguments cleanup {W}.

Section Mocks.
Context `{Fmt} {W : Type}.

Definition TestingT_Error (args : list value) (t : TestingT) : TestingT :=
  mkTestingT (Messages t ++ [Sprint args]) false true.

Definition TestingT_Fatal (args : list value) (t : TestingT) : TestingT :=
  mkTestingT (Messages t ++ [Sprint args]) true true.

Definition TestingT_Helper (t : TestingT) : TestingT := t.

Definition LastMessage (t : TestingT) : string :=
  if decide (length (Messages t) = 0%nat) then EmptyString
  else default EmptyString (Messages t !! (length (Messages t) - 1)%nat).

Definition ResetMessages (t : TestingT) : TestingT :=
  mkTestingT (take 0 (Messages t)) (IsFatal t) (HasFailed t).

Definition NewTestingTB (name : string) : TestingTB W :=
  mkTestingTB NewTestingT name None.

Definition onT (f : TestingT -> TestingT) (t : TestingTB W) : TestingTB W :=
  mkTestingTB (f (T t)) (name t) (cleanup t).

(** [Cleanup]: the new function runs [fn] and then, deferred, the function
    that was there, which therefore runs even when [fn] panics; a panic of
    the deferred function takes the place of the one of [fn]. *)
Definition Cleanup (fn : func W) (t : TestingTB W) : TestingTB W :=
  let old := cleanup t in
  mkTestingTB (T t) (name t)
    (Some (fun w =>
             let '(w1, p1) := fn w in
             match old with
             | Some old =>
                 let '(w2, p2) := old w1 in
                 (w2, match p2 with Some _ => p2 | None => p1 end)
             | None => (w1, p1)
             end)).

Definition TestingTB_Error (args : list value) : TestingTB W -> TestingTB W :=
  onT (TestingT_Error args).

Definition Errorf (format : string) (args : list value) : TestingTB W -> TestingTB W :=
  onT (TestingT_Error [VStr tString (Sprintf format args)]).

Definition Fail : TestingTB W -> TestingTB W :=
  onT (fun t => mkTestingT (Messages t) (IsFatal t) true).

Definition FailNow : TestingTB W -> TestingTB W :=
  onT (fun t => mkTestingT (Messages t) true true).

Definition Failed (t : TestingTB W) : bool := HasFailed (T t).

Definition TestingTB_Fatal (args : list value) : TestingTB W -> TestingTB W :=
  onT (TestingT_Fatal args).

Definition Fatalf (format : string) (args : list value) : TestingTB W -> TestingTB W :=
  onT (TestingT_Fatal [VStr tString (Sprintf format args)]).

Definition TestingTB_Helper (t : TestingTB W) : TestingTB W := t.

Definition Log (args : list value) : TestingTB W -> TestingTB W :=
  onT (fun t => mkTestingT (Messages t ++ [Sprint args]) (IsFatal t) (HasFailed t)).

Definition Logf (format : string) (args : list value) : TestingTB W -> TestingTB W :=
  Log [VStr tString (Sprintf format args)].

Definition Name (t : TestingTB W) : string := name t.

Definition Skip (args : list value) (t : TestingTB W) : TestingTB W := t.

Definition SkipNow (t : TestingTB W) : TestingTB W := t.

Definition Skipf (format : string) (args : list value) (t : TestingTB W) : TestingTB W := t.

Definition Skipped (t : TestingTB W) : bool := false.

(** *** Vocabulary *)

(** A call of a method that changes the mock, or may. *)
Inductive call : Type :=
| CError (args : list value)
| CErrorf (format : string) (args : list value)
| CFail
| CFailNow
| CFatal (args : list value)
| CFatalf (format : string) (args : list value)
| CHelper
| CLog (args : list value)
| CLogf (format : string) (args : list value)
| CSkip (args : list value)
| CSkipNow
| CSkipf (format : string) (args : list value)
| CResetMessages
| CCleanup (fn : func W).

Definition step (t : TestingTB W) (c : call) : TestingTB W :=
  match c with
  | CError args => TestingTB_Error args t
  | CErrorf format args => Errorf format args t
  | CFail => Fail t
  | CFailNow => FailNow t
  | CFatal args => TestingTB_Fatal args t
  | CFatalf format args => Fatalf format args t
  | CHelper => TestingTB_Helper t
  | CLog args => Log args t
  | CLogf format args => Logf format args t
  | CSkip args => Skip args t
  | CSkipNow => SkipNow t
  | CSkipf format args => Skipf format args t
  | CResetMessages => onT ResetMessages t
  | CCleanup fn => Cleanup fn t
  end.

(** The calls [calls] made one after the other. *)
Definition steps (t : TestingTB W) (calls : list call) : TestingTB W :=
  foldl step t calls.

(** The calls that report a failure. *)
Definition fails (c : call) : bool :=
  match c with
  | CError _ | CErrorf _ _ | CFail | CFailNow | CFatal _ | CFatalf _ _ => true
  | _ => false
  end.

(** The calls that say whether the failure is fatal, and what they say. *)
Definition fatality (c : call) : option bool :=
  match c with
  | CError _ | CErrorf _ _ => Some false
  | CFailNow | CFatal _ | CFatalf _ _ => Some true
  | _ => None
  end.

(** The message a call records, if it records one. *)
Definition textOf (c : call) : option string :=
  match c with
  | CError args | CFatal args | CLog args => Some (Sprint args)
  | CErrorf format args | CFatalf format args | CLogf format args =>
      Some (Sprint [VStr tString (Sprintf format args)])
  | _ => None
  end.

Definition isReset (c : call) : bool :=
  match c with CResetMessages => true | _ => false end.

(** The function a call registers, if it registers one. *)
Definition registered (c : call) : option (func W) :=
  match c with CCleanup fn => Some fn | _ => None end.

(** Running the cleanup the mock holds. *)
Definition runCleanup (t : TestingTB W) (w : W) : W * option string :=
  match cleanup t with
  | Some f => f w
  | None => (w, None)
  end.

(** Functions run one after the other, each of them whether or not one
    before it panicked; the panic that is left is the last one raised. *)
Fixpoint runAll (fns : list (func W)) (w : W) : W * option string :=
  match fns with
  | [] => (w, None)
  | fn :: rest =>
      let '(w1, p1) := fn w in
      let '(w2, p2) := runAll rest w1 in
      (w2, match p2 with Some _ => p2 | None => p1 end)
  end.

End Mocks.

(** A formatter for the examples, which prints the strings it is given. *)
Definition plainFmt : Fmt := {|
  Sprint := fun args =>
    foldr (fun v acc => match v with VStr _ s => s +:+ acc | _ => acc end)
          EmptyString args;
  Sprintf := fun format _ => format
|}.

End test.

(** ** t_struct.go: the wrapper [T] *)

Module t_struct.

(** [ContextConfig], as far as this file reads or writes it. *)
Record ContextConfig : Type := mkConfig {
  RootName : string;
  MaxErrors : Z;
  FailureIsFatal : bool;
  UseEqual : bool;
  BeLax : bool
}.

(** A [testing.TB]: nil, a [*T], or a value of another type, known by its
    name; and [T], which embeds one. *)
Inductive TB : Type :=
| TBNil
| TBOther (name : string)
| TBPtrT (tb : TB) (config : ContextConfig).

Record T : Type := mkT {
  T_TB : TB;
  Config : ContextConfig
}.

(** The type assertion of [t] to a pointer to [T]. *)
Definition asT (t : TB) : option T :=
  match t with
  | TBPtrT tb config => Some (mkT tb config)
  | _ => None
  end.

(** What the file takes from the rest of the package: the method
    [sanitize] of [ContextConfig], [DefaultContextConfig],
    [contextDefaultRootName] and the method [initAnchors] of [T]. *)
Class TEnv : Type := {
  sanitize : ContextConfig -> ContextConfig;
  DefaultContextConfig : ContextConfig;
  contextDefaultRootName : string;
  initAnchors : T -> T
}.

(** [NewT] returns or panics with a usage message. *)
Inductive made (A : Type) : Type :=
| Made (a : A)
| Panicked (why : usage).

Arguments Made {A} a.
Arguments Panicked {A} why.

Section Wrapper.
Context `{TEnv}.

Definition NewT (t : TB) (config : list ContextConfig) : made T :=
  let usg := "NewT(testing.TB[, ContextConfig])" in
  if (1 <? length config)%nat then Panicked (TooManyParams usg)
  else
    match t with
    | TBNil => Panicked (BadUsage usg VInvalid 1 false)
    | _ =>
        let newT :=
          match asT t with
          | Some tdT =>
              mkT (T_TB tdT)
                  match config with
                  | [] => Config tdT
                  | c :: _ => c
                  end
          | None =>
              mkT t
                  match config with
                  | [] => DefaultContextConfig
                  | c :: _ => c
                  end
          end in
        Made (initAnchors (mkT (T_TB newT) (sanitize (Config newT))))
    end.

(** The optional flag of the setters: [len(enable) == 0 || enable[0]]. *)
Definition enabled (enable : list bool) : bool :=
  match enable with
  | [] => true
  | b :: _ => b
  end.

Definition T_RootName (rootName : string) (t : T) : T :=
  let rootName :=
    if String.eqb rootName "" then contextDefaultRootName else rootName in
  mkT (T_TB t)
      (mkConfig rootName (MaxErrors (Config t)) (FailureIsFatal (Config t))
                (UseEqual (Config t)) (BeLax (Config t))).

Definition T_FailureIsFatal (enable : list bool) (t : T) : T :=
  mkT (T_TB t)
      (mkConfig (RootName (Config t)) (MaxErrors (Config t)) (enabled enable)
                (UseEqual (Config t)) (BeLax (Config t))).

Definition T_UseEqual (enable : list bool) (t : T) : T :=
  mkT (T_TB t)
      (mkConfig (RootName (Config t)) (MaxErrors (Config t))
                (FailureIsFatal (Config t)) (enabled enable) (BeLax (Config t))).

Definition T_BeLax (enable : list bool) (t : T) : T :=
  mkT (T_TB t)
      (mkConfig (RootName (Config t)) (MaxErrors (Config t))
                (FailureIsFatal (Config t)) (UseEqual (Config t)) (enabled enable)).

Definition Assert (t : TB) (config : list ContextConfig) : made T :=
  match NewT t config with
  | Made newT => Made (T_FailureIsFatal [false] newT)
  | Panicked why => Panicked why
  end.

Definition Require (t : TB) (config : list ContextConfig) : made T :=
  match NewT t config with
  | Made newT => Made (T_FailureIsFatal [] newT)
  | Panicked why => Panicked why
  end.

Definition AssertRequire (t : TB) (config : list ContextConfig) : made (T * T) :=
  match Assert t config with
  | Made assert => Made (assert, T_FailureIsFatal [] assert)
  | Panicked why => Panicked why
  end.

End Wrapper.

(** Collaborators for the examples: ten errors at most by default, and
    nothing to sanitize or to initialise. *)
Definition plainEnv : TEnv := {|
  sanitize := fun c =>
    if (MaxErrors c =? 0) then
      mkConfig (RootName c) 10 (FailureIsFatal c) (UseEqual c) (BeLax c)
    else c;
  DefaultContextConfig := mkConfig "DATA" 10 false false false;
  contextDefaultRootName := "DATA";
  initAnchors := fun t => t
|}.

End t_struct.

(** * Properties *)

Lemma Kind_eqb_eq (a b : Kind) : Kind_eqb a b = true <-> a = b.
Proof. split; [destruct a, b; simpl; congruence | intros ->; by destruct b]. Qed.

(** ** Facts on the construction of [Array] and [Slice] *)

Section ArrayFacts.

Context `{Externals}.

Lemma store_Ok (es : list value) (i : Z) (v : value) (es' : list value) :
  store es i v = Ok es' <->
  (0 <= i < Z.of_nat (length es)) /\ es' = <[Z.to_nat i := v]> es.
Proof.
  unfold store.
  destruct (0 <=? i) eqn:H0; destruct (i <? Z.of_nat (length es)) eqn:H1; simpl;
    split; try (intros [=]); try (intros [? ?]); subst; try lia; try done.
  split; [lia | done].
Qed.

Lemma lookupEntry_None (m : ArrayEntries) (i : Z) :
  i ∉ m.*1 -> lookupEntry m i = None.
Proof.
  induction m as [|[k v] m IH]; simpl; [done|].
  intros Hn. apply not_elem_of_cons in Hn as [Hne Hn].
  destruct (k =? i) eqn:E; [lia | auto].
Qed.

Lemma lookupEntry_Some_In (m : ArrayEntries) (i : Z) (v : value) :
  lookupEntry m i = Some v -> (i, v) ∈ m.
Proof.
  induction m as [|[k w] m IH]; simpl; [done|].
  destruct (k =? i) eqn:E.
  - intros [= ->]. apply Z.eqb_eq in E as ->. left.
  - intros Hl. right. auto.
Qed.

Lemma lookupEntry_In (m : ArrayEntries) (i : Z) (v : value) :
  wfEntries m -> (i, v) ∈ m -> lookupEntry m i = Some v.
Proof.
  unfold wfEntries.
  induction m as [|[k w] m IH]; simpl; [by intros _ ?%elem_of_nil|].
  intros [Hk Hnd]%NoDup_cons [Heq | Hin]%elem_of_cons.
  - injection Heq as -> ->. by rewrite Z.eqb_refl.
  - destruct (k =? i) eqn:E; [|auto].
    apply Z.eqb_eq in E as ->. exfalso. apply Hk.
    apply list_elem_of_fmap. by exists (i, v).
Qed.

Lemma entryValue_Ok elemType maxLength index v x :
  entryValue elemType maxLength index v = Ok x -> x = resolved elemType v.
Proof.
  unfold entryValue, resolved.
  destruct (IsValid v); simpl.
  - destruct (_ && _); by intros [=].
  - destruct (nilable _); by intros [=].
Qed.

Lemma fillEntries_Ok elemType maxLength (m : ArrayEntries) :
  forall es es' : list value,
  wfEntries m ->
  fillEntries elemType maxLength m es = Ok es' ->
  length es' = length es /\
  (forall i v, lookupEntry m i = Some v ->
     0 <= i < Z.of_nat (length es) /\
     es' !! Z.to_nat i = Some (resolved elemType v)) /\
  (forall j : nat, lookupEntry m (Z.of_nat j) = None -> es' !! j = es !! j).
Proof.
  unfold wfEntries.
  induction m as [|[k w] m IH]; simpl; intros es es' Hnd Hrun.
  - injection Hrun as <-. done.
  - apply NoDup_cons in Hnd as [Hk Hnd].
    destruct (entryValue elemType maxLength k w) as [x| |] eqn:Hx; try done.
    simpl in Hrun.
    destruct (store es k x) as [es1| |] eqn:Hs; try done. simpl in Hrun.
    apply entryValue_Ok in Hx as ->.
    apply store_Ok in Hs as [Hr ->].
    destruct (IH _ _ Hnd Hrun) as (Hlen & Hin & Hout).
    rewrite length_insert in Hlen, Hin.
    split; [done|]. split.
    + intros i v. destruct (k =? i) eqn:E.
      * intros [= ->]. apply Z.eqb_eq in E as ->. split; [done|].
        rewrite <- (Z2Nat.id i) in Hk by lia.
        rewrite (Hout _ (lookupEntry_None _ _ Hk)).
        apply list_lookup_insert_eq. lia.
      * intros Hl. apply Hin. done.
    + intros j. destruct (k =? Z.of_nat j) eqn:E; [done|].
      intros Hl. rewrite (Hout _ Hl).
      apply list_lookup_insert_ne. lia.
Qed.

Lemma fromModel_Ok (m : ArrayEntries) (model zero : value) (n : nat) :
  forall es es' : list value,
  fromModel m model zero n es = Ok es' ->
  length es' = length es /\
  forall j : nat,
    es' !! j =
      if decide ((j < n)%nat /\ hasEntry m (Z.of_nat j) = false)
      then Some (Index model (Z.of_nat j)) else es !! j.
Proof.
  induction n as [|n IH]; cbn [fromModel andThen]; intros es es' Hrun.
  - injection Hrun as <-. split; [done|]. intros j.
    rewrite decide_False; [done | lia].
  - destruct (hasEntry m (Z.of_nat n)) eqn:Hh.
    + destruct (negb _); [done|].
      destruct (IH _ _ Hrun) as [Hlen Hj]. split; [done|].
      intros j. rewrite Hj. destruct (decide (j = n)) as [->|Hne].
      * rewrite !decide_False; [done | intros [_ ?]; congruence | lia].
      * apply decide_ext. split; intros [? ?]; (split; [lia | done]).
    + destruct (store es (Z.of_nat n) _) as [es1| |] eqn:Hs; try done.
      cbn [andThen] in Hrun. apply store_Ok in Hs as [Hr ->].
      destruct (IH _ _ Hrun) as [Hlen Hj]. rewrite length_insert in Hlen.
      split; [done|]. intros j. rewrite Hj, Nat2Z.id.
      destruct (decide (j = n)) as [->|Hne].
      * rewrite decide_False by lia. rewrite decide_True by (split; [lia|done]).
        apply list_lookup_insert_eq. lia.
      * rewrite list_lookup_insert_ne by done.
        apply decide_ext. split; intros [? ?]; (split; [lia | done]).
Qed.

Lemma fillZero_Ok (m : ArrayEntries) (vzero : value) (count : nat) :
  forall (index : Z) (es es' : list value),
  0 <= index ->
  fillZero m vzero count index es = Ok es' ->
  length es' = length es /\
  forall j : nat,
    es' !! j =
      if decide ((index <= Z.of_nat j < index + Z.of_nat count) /\
                 hasEntry m (Z.of_nat j) = false)
      then Some vzero else es !! j.
Proof.
  induction count as [|count IH]; cbn [fillZero andThen]; intros index es es' Hi Hrun.
  - injection Hrun as <-. split; [done|]. intros j.
    rewrite decide_False; [done | lia].
  - destruct (hasEntry m index) eqn:Hh; cbn [andThen] in Hrun.
    + apply IH in Hrun as [Hlen Hj]; [|lia]. split; [done|].
      intros j. rewrite Hj. destruct (decide (Z.of_nat j = index)) as [<-|Hne].
      * rewrite !decide_False; [done | intros [_ ?]; congruence | lia].
      * apply decide_ext. split; intros [? ?]; (split; [lia | done]).
    + destruct (store es index vzero) as [es1| |] eqn:Hs; try done.
      cbn [andThen] in Hrun. apply store_Ok in Hs as [Hr ->].
      apply IH in Hrun as [Hlen Hj]; [|lia].
      rewrite length_insert in Hlen. split; [done|].
      intros j. rewrite Hj. destruct (decide (Z.of_nat j = index)) as [<-|Hne].
      * rewrite decide_False by lia. rewrite decide_True by (split; [lia|done]).
        rewrite Nat2Z.id. apply list_lookup_insert_eq. lia.
      * rewrite list_lookup_insert_ne by lia.
        apply decide_ext. split; intros [? ?]; (split; [lia | done]).
Qed.

Lemma hasEntry_false (m : ArrayEntries) (i : Z) :
  hasEntry m i = false <-> lookupEntry m i = None.
Proof. unfold hasEntry. destruct (lookupEntry m i); split; congruence. Qed.

Lemma lenOf_nonneg (t : rtype) (n : Z) : lenOf t = Some n -> 0 <= n.
Proof.
  induction t; simpl; try done. intros [= <-]. lia.
Qed.

(** [populateExpectedEntries] follows the resolution rule at every index,
    unless the model is the nil pointer on a slice. *)
Lemma populate_resolution (a a' : tdArray) (m : ArrayEntries) (model : value) :
  populateExpectedEntries a m model = Ok a' ->
  wfEntries m ->
  modelFits (expectedType (array_base a)) model ->
  (IsValid model = false ->
   kindOf (expectedType (array_base a)) <> reflect.Slice) ->
  exists elemType,
    elemOf (expectedType (array_base a)) = Some elemType /\
    array_base a' = array_base a /\
    forall j : nat, (j < length (expectedEntries a'))%nat ->
      expectedEntries a' !! j = Some (effective elemType m model (Z.of_nat j)).
Proof.
  intros Hrun Hwf Hfit Hnil. unfold populateExpectedEntries in Hrun.
  set (t := expectedType (array_base a)) in *.
  destruct (Kind_eqb (kindOf t) reflect.Array) eqn:Harr.
  - (* array *)
    destruct (lenOf t) as [L|] eqn:HL; [|done].
    destruct (L <=? maxIndexOf m) eqn:Hmax; [done|].
    cbn [andThen fst snd] in Hrun.
    destruct (elemOf t) as [elemType|] eqn:He; [|done].
    cbn [andThen] in Hrun.
    destruct (fillEntries _ _ _ _) as [es1| |] eqn:H1; try done.
    cbn [andThen] in Hrun.
    apply fillEntries_Ok in H1 as (Hlen1 & Hin1 & Hout1); [|done].
    rewrite length_replicate in Hlen1, Hin1.
    exists elemType. split; [done|].
    destruct (IsValid model) eqn:Hv.
    + destruct (fromModel _ _ _ _ _) as [es2| |] eqn:H2; try done.
      cbn [andThen] in Hrun.
      apply fromModel_Ok in H2 as [Hlen2 Hj2].
      pose proof (lenOf_nonneg _ _ HL).
      replace (0 <=? L) with true in Hrun by lia.
      injection Hrun as <-. split; [done|]. simpl.
      intros j Hj. rewrite Hj2. unfold effective. rewrite Hv. cbn [andb].
      specialize (Hfit Hv _ HL).
      destruct (lookupEntry m (Z.of_nat j)) as [v|] eqn:Hl.
      * rewrite decide_False
          by (intros [_ Hh]; apply hasEntry_false in Hh; congruence).
        destruct (Hin1 _ _ Hl) as [_ Hr]. by rewrite Nat2Z.id in Hr.
      * rewrite decide_True by (split; [lia | by apply hasEntry_false]).
        replace (Z.of_nat j <? Len model) with true by lia. done.
    + assert (Kind_eqb (kindOf t) reflect.Slice = false) as Hns
        by (apply Kind_eqb_eq in Harr; by rewrite Harr).
      rewrite Hns in Hrun.
      pose proof (lenOf_nonneg _ _ HL).
      replace (0 <=? L) with true in Hrun by lia.
      destruct (fillZero _ _ _ _ _) as [es3| |] eqn:H3; try done.
      cbn [andThen] in Hrun. injection Hrun as <-.
      apply fillZero_Ok in H3 as [Hlen3 Hj3]; [|lia].
      split; [done|]. simpl. intros j Hj. rewrite Hj3. unfold effective. rewrite Hv. cbn [andb].
      destruct (lookupEntry m (Z.of_nat j)) as [v|] eqn:Hl.
      * rewrite decide_False
          by (intros [_ Hh]; apply hasEntry_false in Hh; congruence).
        destruct (Hin1 _ _ Hl) as [_ Hr]. by rewrite Nat2Z.id in Hr.
      * rewrite decide_True by (split; [lia | by apply hasEntry_false]).
        done.
  - (* slice *)
    cbn [andThen fst snd] in Hrun.
    destruct (elemOf t) as [elemType|] eqn:He; [|done].
    cbn [andThen] in Hrun.
    destruct (fillEntries _ _ _ _) as [es1| |] eqn:H1; try done.
    cbn [andThen] in Hrun.
    apply fillEntries_Ok in H1 as (Hlen1 & Hin1 & Hout1); [|done].
    rewrite length_replicate in Hlen1, Hin1.
    exists elemType. split; [done|].
    destruct (IsValid model) eqn:Hv.
    + destruct (fromModel _ _ _ _ _) as [es2| |] eqn:H2; try done.
      cbn [andThen] in Hrun.
      apply fromModel_Ok in H2 as [Hlen2 Hj2].
      replace (0 <=? -1) with false in Hrun by done.
      destruct (fillZero _ _ _ _ _) as [es3| |] eqn:H3; try done.
      cbn [andThen] in Hrun. injection Hrun as <-.
      assert (0 <= Len model) as HLen by (unfold Len; lia).
      apply fillZero_Ok in H3 as [Hlen3 Hj3]; [|done].
      split; [done|]. cbn [expectedEntries withEntries].
      intros j Hj. rewrite Hj3, Hj2. unfold effective. rewrite Hv. cbn [andb].
      rewrite Hlen3, Hlen2, Hlen1 in Hj. cbn [andb] in Hj.
      destruct (lookupEntry m (Z.of_nat j)) as [v|] eqn:Hl.
      * rewrite !decide_False
          by (intros [_ Hh]; apply hasEntry_false in Hh; congruence).
        destruct (Hin1 _ _ Hl) as [_ Hr]. by rewrite Nat2Z.id in Hr.
      * destruct (Z.of_nat j <? Len model) eqn:Hjm.
        -- rewrite decide_False by lia.
           rewrite decide_True by (split; [lia | by apply hasEntry_false]).
           done.
        -- rewrite decide_True; [done|]. split; [|by apply hasEntry_false].
           destruct (maxIndexOf m + 1 <? Len model); lia.
    + destruct (Kind_eqb (kindOf t) reflect.Slice) eqn:Hs.
      * apply Kind_eqb_eq in Hs. by destruct (Hnil eq_refl).
      * replace (0 <=? -1) with false in Hrun by done. done.
Qed.

End ArrayFacts.

Section ArrayConstruction.

Context `{Externals}.

Lemma maxIndexOf_from (m : ArrayEntries) (start : Z) :
  let r := fold_left (fun maxIndex e => if maxIndex <? e.1 then e.1 else maxIndex)
                     m start in
  start <= r /\ (forall i, i ∈ m.*1 -> i <= r) /\ (r = start \/ r ∈ m.*1).
Proof.
  revert start. induction m as [|[k v] m IH]; intros start; cbn [fold_left fst].
  - split; [lia|]. split; [by intros i ?%elem_of_nil | by left].
  - destruct (IH (if start <? k then k else start)) as (Hle & Hub & Hin).
    cbn [fmap list_fmap fst] in *.
    split; [destruct (start <? k) eqn:E; lia|]. split.
    + intros i [->|Hi]%elem_of_cons; [destruct (start <? k) eqn:E; lia | auto].
    + destruct Hin as [Hin | Hin]; [|right; by right].
      destruct (start <? k) eqn:E; [right; rewrite Hin; left | by left].
Qed.

Lemma maxIndexOf_upper (m : ArrayEntries) (i : Z) :
  i ∈ m.*1 -> i <= maxIndexOf m.
Proof. intros Hi. destruct (maxIndexOf_from m (-1)) as (_ & Hub & _). auto. Qed.

Lemma maxIndexOf_lower (m : ArrayEntries) : -1 <= maxIndexOf m.
Proof. by destruct (maxIndexOf_from m (-1)) as (Hlo & _ & _). Qed.

Lemma maxIndexOf_reached (m : ArrayEntries) :
  maxIndexOf m = -1 \/ maxIndexOf m ∈ m.*1.
Proof. by destruct (maxIndexOf_from m (-1)) as (_ & _ & Hin). Qed.

Lemma Kind_eqb_refl (k : Kind) : Kind_eqb k k = true.
Proof. by apply Kind_eqb_eq. Qed.

Lemma Kind_eqb_neq (a b : Kind) : a <> b -> Kind_eqb a b = false.
Proof.
  intros Hne. destruct (Kind_eqb a b) eqn:E; [|done].
  by apply Kind_eqb_eq in E.
Qed.

Lemma newArray_modelOf fn kind model t p vmodel (m : ArrayEntries) :
  modelOf kind model t p vmodel ->
  newArray fn kind model m =
    (a <-! populateExpectedEntries (mkArray (mkExpectedType fn t p) []) m vmodel ;;
     Ok (Some a)).
Proof.
  intros [model' t' Ht Hnp Hk | tp te t' vm Hp He Hk Ht | model' tp te Ht Hp He Hk Hnv];
    unfold newArray.
  - rewrite Ht, (Kind_eqb_neq _ _ Hnp), Hk, Kind_eqb_refl. done.
  - cbn [typeOf]. rewrite Hp, He, Hk, Ht. cbn. by rewrite Kind_eqb_refl.
  - rewrite Ht, Hp, He, Hk. cbn. rewrite Kind_eqb_refl. cbn.
    destruct model'; try done. by destruct (Hnv t0 model').
Qed.

Lemma newArray_Ok_inv fn kind model (m : ArrayEntries) (a : tdArray) :
  newArray fn kind model m = Ok (Some a) ->
  exists t p vmodel,
    modelOf kind model t p vmodel /\
    populateExpectedEntries (mkArray (mkExpectedType fn t p) []) m vmodel = Ok a.
Proof.
  unfold newArray. destruct (typeOf model) as [tm|] eqn:Ht; [|done].
  destruct (Kind_eqb (kindOf tm) Ptr) eqn:Hp.
  - apply Kind_eqb_eq in Hp.
    destruct (elemOf tm) as [te|] eqn:He; [|done].
    destruct (Kind_eqb (kindOf te) kind) eqn:Hk; [|done].
    apply Kind_eqb_eq in Hk. cbn [negb].
    destruct model; cbn in Ht; try injection Ht as ->;
      try (destruct (populateExpectedEntries _ _ _) as [a0| |] eqn:Hrun;
           try done; cbn; intros [= ->];
           eexists te, true, VInvalid; split; [|done];
           eapply modelOf_nil_pointer; eauto; done).
    + done.
    + destruct (typeOf model) as [t|] eqn:Htv; [|done].
      destruct (populateExpectedEntries _ _ _) as [a0| |] eqn:Hrun; try done.
      cbn. intros [= ->]. exists t, true, model. split; [|done].
      by eapply modelOf_pointer.
  - destruct (Kind_eqb (kindOf tm) kind) eqn:Hk; [|done].
    apply Kind_eqb_eq in Hk.
    destruct (populateExpectedEntries _ _ _) as [a0| |] eqn:Hrun; try done.
    cbn. intros [= ->]. exists tm, false, model. split; [|done].
    apply modelOf_direct; [done| |done].
    intros Hptr. rewrite Hptr in Hp. done.
Qed.

Lemma Array_Ok (model : value) (m : ArrayEntries) (a : tdArray) :
  Array model m = Ok a <-> newArray "Array" reflect.Array model m = Ok (Some a).
Proof.
  unfold Array. destruct (newArray _ _ _ _) as [[a0|]| |]; cbn; split; congruence.
Qed.

Lemma Slice_Ok (model : value) (m : ArrayEntries) (a : tdArray) :
  Slice model m = Ok a <-> newArray "Slice" reflect.Slice model m = Ok (Some a).
Proof.
  unfold Slice. destruct (newArray _ _ _ _) as [[a0|]| |]; cbn; split; congruence.
Qed.

End ArrayConstruction.

Section ArrayProperties.

Context `{Externals}.

Lemma lenOf_kind (t : rtype) (n : Z) : lenOf t = Some n -> kindOf t = reflect.Array.
Proof. induction t; simpl; try done. Qed.

Lemma constructor_modelOf kind ctor model t p vmodel (m : ArrayEntries) :
  constructorOf kind ctor ->
  modelOf kind model t p vmodel ->
  exists fn,
    ctor model m =
      populateExpectedEntries (mkArray (mkExpectedType fn t p) []) m vmodel.
Proof.
  intros [] Hm; [exists "Array"; unfold Array | exists "Slice"; unfold Slice];
    rewrite (newArray_modelOf _ _ _ _ _ _ _ Hm);
    by destruct (populateExpectedEntries _ _ _).
Qed.

Lemma constructor_Ok_inv kind ctor model (m : ArrayEntries) (a : tdArray) :
  constructorOf kind ctor ->
  ctor model m = Ok a ->
  exists fn t p vmodel,
    modelOf kind model t p vmodel /\
    populateExpectedEntries (mkArray (mkExpectedType fn t p) []) m vmodel = Ok a.
Proof.
  intros [] Hrun.
  - apply Array_Ok, newArray_Ok_inv in Hrun as (t & p & vm & ? & ?).
    by exists "Array", t, p, vm.
  - apply Slice_Ok, newArray_Ok_inv in Hrun as (t & p & vm & ? & ?).
    by exists "Slice", t, p, vm.
Qed.

(** An entry that the loop over the expected entries accepts. *)
Lemma fillEntries_accepts elemType maxLength (m : ArrayEntries) :
  forall es es' : list value,
  fillEntries elemType maxLength m es = Ok es' ->
  forall i v, (i, v) ∈ m -> isOk (entryValue elemType maxLength i v) = true.
Proof.
  induction m as [|[k w] m IH]; cbn [fillEntries]; intros es es' Hrun i v Hin.
  - by apply elem_of_nil in Hin.
  - destruct (entryValue elemType maxLength k w) as [x| |] eqn:Hx; try done.
    cbn [andThen] in Hrun.
    destruct (store es k x) as [es1| |]; try done. cbn [andThen] in Hrun.
    apply elem_of_cons in Hin as [[= -> ->] | Hin]; [by rewrite Hx | eauto].
Qed.

(** The zero value of a type of a nilable kind is its typed nil. *)
Lemma zeroAs_nilable (t u : rtype) :
  nilable (kindOf u) = true -> zeroAs t u = VNil t.
Proof.
  induction u as [k name| | | | | | |name u IH]; cbn; try done.
  by destruct k.
Qed.

Lemma Zero_nilable (t : rtype) : nilable (kindOf t) = true -> Zero t = VNil t.
Proof. apply zeroAs_nilable. Qed.

Lemma entryValue_nil elemType maxLength index :
  entryValue elemType maxLength index VInvalid =
    if nilable (kindOf elemType) then Ok (Zero elemType)
    else Fatal (Bad "expected value of #%d cannot be nil as items type is %s"
                    [AInt index; AType elemType]).
Proof. done. Qed.

(** An override is kept as it is resolved, whatever the model. *)
Lemma populate_override (a a' : tdArray) (m : ArrayEntries) (model : value)
    (i : Z) (v : value) :
  populateExpectedEntries a m model = Ok a' ->
  wfEntries m ->
  (i, v) ∈ m ->
  exists elemType,
    elemOf (expectedType (array_base a)) = Some elemType /\
    (IsValid v = false -> nilable (kindOf elemType) = true) /\
    expectedEntries a' !! Z.to_nat i = Some (resolved elemType v).
Proof.
  intros Hrun Hwf Hin. pose proof (lookupEntry_In _ _ _ Hwf Hin) as Hl.
  unfold populateExpectedEntries in Hrun.
  set (t := expectedType (array_base a)) in *.
  destruct (if Kind_eqb (kindOf t) reflect.Array then _ else _)
    as [[maxLength numEntries]| |]; try done.
  cbn [andThen fst snd] in Hrun.
  destruct (elemOf t) as [elemType|] eqn:He; [|done].
  cbn [andThen] in Hrun.
  destruct (fillEntries _ _ _ _) as [es1| |] eqn:H1; try done.
  cbn [andThen] in Hrun.
  pose proof (fillEntries_accepts _ _ _ _ _ H1 _ _ Hin) as Hacc.
  apply fillEntries_Ok in H1 as (Hlen1 & Hin1 & Hout1); [|done].
  destruct (Hin1 _ _ Hl) as [Hr Hes1].
  assert (hasEntry m (Z.of_nat (Z.to_nat i)) = true) as Hhas
    by (rewrite Z2Nat.id by lia; unfold hasEntry; by rewrite Hl).
  exists elemType. split; [done|]. split.
  { intros Hv. revert Hacc. unfold entryValue. rewrite Hv. cbn.
    by destruct (nilable _). }
  destruct (IsValid model).
  - destruct (fromModel _ _ _ _ _) as [es2| |] eqn:H2; try done.
    cbn [andThen] in Hrun. apply fromModel_Ok in H2 as [_ Hj2].
    destruct (0 <=? maxLength).
    + injection Hrun as <-. cbn. rewrite Hj2.
      rewrite decide_False by (intros [_ ?]; congruence). done.
    + destruct (fillZero _ _ _ _ _) as [es3| |] eqn:H3; try done.
      cbn [andThen] in Hrun. injection Hrun as <-.
      apply fillZero_Ok in H3 as [_ Hj3]; [|unfold Len; lia].
      cbn. rewrite Hj3, Hj2.
      rewrite !decide_False by (intros [_ ?]; congruence). done.
  - destruct (Kind_eqb (kindOf t) reflect.Slice).
    + by injection Hrun as <-.
    + destruct (0 <=? maxLength); [|done].
      destruct (fillZero _ _ _ _ _) as [es3| |] eqn:H3; try done.
      cbn [andThen] in Hrun. injection Hrun as <-.
      apply fillZero_Ok in H3 as [_ Hj3]; [|lia].
      cbn. rewrite Hj3.
      rewrite !decide_False by (intros [_ ?]; congruence). done.
Qed.

Lemma populate_nil_fails (a : tdArray) (m : ArrayEntries) (model : value)
    (elemType : rtype) (i : Z) :
  elemOf (expectedType (array_base a)) = Some elemType ->
  nilable (kindOf elemType) = false ->
  (i, VInvalid) ∈ m ->
  isOk (populateExpectedEntries a m model) = false.
Proof.
  intros He Hn Hin. unfold populateExpectedEntries.
  destruct (if Kind_eqb _ reflect.Array then _ else _)
    as [[maxLength numEntries]| |]; try done.
  cbn [andThen fst snd]. rewrite He. cbn [andThen].
  destruct (fillEntries _ _ _ _) as [es1| |] eqn:H1; try done.
  pose proof (fillEntries_accepts _ _ _ _ _ H1 _ _ Hin) as Hacc.
  rewrite entryValue_nil, Hn in Hacc. done.
Qed.

Lemma entryValue_acceptable elemType maxLength (e : Z * value) :
  acceptable elemType e -> entryValue elemType maxLength e.1 e.2 = Ok e.2.
Proof.
  intros (_ & Hv & Hok). unfold entryValue. rewrite Hv. cbn [negb].
  destruct Hok as [-> | (t & -> & ->)]; [done|].
  by rewrite andb_false_r.
Qed.

(** The loop stops at the first nil entry when the items cannot be nil. *)
Lemma fillEntries_first_nil elemType maxLength (pre post : ArrayEntries) (i : Z) :
  forall es : list value,
  nilable (kindOf elemType) = false ->
  Forall (acceptable elemType) pre ->
  (forall k, k ∈ pre.*1 -> k < Z.of_nat (length es)) ->
  fillEntries elemType maxLength (pre ++ (i, VInvalid) :: post) es =
    Fatal (Bad "expected value of #%d cannot be nil as items type is %s"
               [AInt i; AType elemType]).
Proof.
  intros es Hn. revert es.
  induction pre as [|[k w] pre IH]; intros es Hacc Hlt; cbn [app fillEntries].
  - by rewrite entryValue_nil, Hn.
  - apply Forall_cons in Hacc as [Hkw Hacc].
    rewrite (entryValue_acceptable _ _ (k, w) Hkw). cbn [andThen snd].
    destruct Hkw as (Hk & _). cbn [fst] in Hk.
    assert (k < Z.of_nat (length es)) by (apply Hlt; left).
    unfold store. replace (0 <=? k) with true by lia.
    replace (k <? Z.of_nat (length es)) with true by lia. cbn [andb andThen].
    apply IH; [done|]. intros k' Hk'. rewrite length_insert. apply Hlt.
    by right.
Qed.

(** The slice [populateExpectedEntries] makes is longer than the highest
    index. *)
Lemma populate_first_nil (a : tdArray) (pre post : ArrayEntries)
    (model : value) (elemType : rtype) (i : Z) :
  let m := pre ++ (i, VInvalid) :: post in
  elemOf (expectedType (array_base a)) = Some elemType ->
  nilable (kindOf elemType) = false ->
  Forall (acceptable elemType) pre ->
  (kindOf (expectedType (array_base a)) = reflect.Array ->
   exists n, lenOf (expectedType (array_base a)) = Some n /\ maxIndexOf m < n) ->
  populateExpectedEntries a m model =
    Fatal (Bad "expected value of #%d cannot be nil as items type is %s"
               [AInt i; AType elemType]).
Proof.
  intros m He Hn Hacc Hlen. unfold populateExpectedEntries.
  set (t := expectedType (array_base a)) in *.
  assert (forall numEntries, maxIndexOf m < numEntries ->
          forall k, k ∈ pre.*1 ->
          k < Z.of_nat (length (replicate (Z.to_nat numEntries) VInvalid)))
    as Hfit.
  { intros numEntries Hmax k Hk. rewrite length_replicate.
    assert (k <= maxIndexOf m); [|lia].
    apply maxIndexOf_upper. unfold m. rewrite fmap_app.
    apply elem_of_app. by left. }
  destruct (Kind_eqb (kindOf t) reflect.Array) eqn:Harr.
  - apply Kind_eqb_eq in Harr. destruct (Hlen Harr) as (L & -> & HL).
    replace (L <=? maxIndexOf m) with false by lia.
    cbn [andThen fst snd]. rewrite He. cbn [andThen].
    unfold m. rewrite fillEntries_first_nil; auto.
  - cbn [andThen fst snd]. rewrite He. cbn [andThen].
    unfold m. rewrite fillEntries_first_nil; auto.
    apply Hfit. fold m. destruct (_ && _) eqn:E; [|lia].
    apply andb_true_iff in E as [_ E]. lia.
Qed.

End ArrayProperties.

(** ** Properties of the constructors [Array] and [Slice] *)

Section ArrayClaims.

Context `{Externals}.

(** The resolution rule at the level of the constructors: an operator built
    by [Array] or [Slice] expects, at each index, the override if there is
    one, else the model's item if the model covers the index, else the zero
    value of the items, except when [Slice] is given the nil pointer on a
    slice as its model. *)
Lemma constructor_resolution kind ctor (model : value) (m : ArrayEntries)
    (a : tdArray) :
  constructorOf kind ctor ->
  ctor model m = Ok a ->
  wfEntries m ->
  exists t p vmodel elemType,
    modelOf kind model t p vmodel /\
    expectedType (array_base a) = t /\
    elemOf t = Some elemType /\
    (modelFits t vmodel ->
     (IsValid vmodel = false -> kindOf t <> reflect.Slice) ->
     forall j : nat, (j < length (expectedEntries a))%nat ->
       expectedEntries a !! j = Some (effective elemType m vmodel (Z.of_nat j))).
Proof.
  intros Hc Hrun Hwf.
  destruct (constructor_Ok_inv _ _ _ _ _ Hc Hrun) as (fn & t & p & vm & Hm & Hp).
  assert (exists elemType, elemOf t = Some elemType) as [elemType He].
  { unfold populateExpectedEntries in Hp. cbn [array_base expectedType] in Hp.
    destruct (if Kind_eqb _ _ then _ else _); try done.
    cbn [andThen] in Hp. destruct (elemOf t); [by eexists | done]. }
  assert (array_base a = mkExpectedType fn t p) as Hbase.
  { unfold populateExpectedEntries in Hp.
    repeat match type of Hp with
           | andThen ?o _ = Ok _ => destruct o; try done; cbn [andThen] in Hp
           | (if ?b then _ else _) = Ok _ => destruct b
           end; try done; by injection Hp as <-. }
  exists t, p, vm, elemType. split; [done|]. split; [by rewrite Hbase|].
  split; [done|]. intros Hfit Hnil.
  destruct (populate_resolution _ _ _ _ Hp Hwf Hfit Hnil)
    as (elemType' & He' & _ & Hres).
  cbn [array_base expectedType] in He'. by simplify_eq.
Qed.

(** C8: [Array] refuses expected entries that hold an index at or beyond the
    length of the array type.  The constructor stops with the usage error
    "array length is N, so cannot have #M expected index", where M is the
    highest index given (itself out of the array); no operator is built, so
    no comparison takes place. *)
Theorem Array_index_beyond_length (model vmodel : value) (t : rtype) (p : bool)
    (m : ArrayEntries) (n i : Z) (v : value) :
  modelOf reflect.Array model t p vmodel ->
  lenOf t = Some n ->
  (i, v) ∈ m ->
  n <= i ->
  Array model m =
    Fatal (Bad "array length is %d, so cannot have #%d expected index"
               [AInt n; AInt (maxIndexOf m)]) /\
  n <= maxIndexOf m /\ maxIndexOf m ∈ m.*1.
Proof.
  intros Hm HL Hin Hi.
  assert (i <= maxIndexOf m) as Hmax.
  { apply maxIndexOf_upper, list_elem_of_fmap. by exists (i, v). }
  destruct (constructor_modelOf _ _ _ _ _ _ m constructor_Array Hm) as [fn ->].
  split; [|split; [lia|]].
  - unfold populateExpectedEntries. cbn [array_base expectedType].
    rewrite (lenOf_kind _ _ HL), HL. cbn [Kind_eqb].
    by replace (n <=? maxIndexOf m) with true by lia.
  - pose proof (lenOf_nonneg _ _ HL).
    destruct (maxIndexOf_reached m) as [Hneg | Hr]; [lia | done].
Qed.


End ArrayClaims.

Section ArrayExamples.

#[local] Existing Instance Ref.externals.

(** C8 on the array [[3]int{0, 14}] with an entry at index 3. *)
Lemma Array_index_beyond_length_witness :
  Array sparseModel [(3, VNum tInt 5); (1, VNum tInt 4)] =
    Fatal (Bad "array length is %d, so cannot have #%d expected index"
               [AInt 3; AInt 3]) /\
  3 <= maxIndexOf [(3, VNum tInt 5); (1, VNum tInt 4)] /\
  maxIndexOf [(3, VNum tInt 5); (1, VNum tInt 4)] ∈
    [(3, VNum tInt 5); (1, VNum tInt 4)].*1.
Proof.
  refine (Array_index_beyond_length sparseModel sparseModel
            int3 false [(3, VNum tInt 5); (1, VNum tInt 4)] 3 3 (VNum tInt 5)
            _ _ _ _).
  - by apply modelOf_direct.
  - reflexivity.
  - left.
  - lia.
Defined.


(** The sparse array of the documentation: model [[3]int{0, 14}] with the
    entries [{0: 12, 2: 17}] expects [[12, 14, 17]]; it matches that array,
    and against [[12, 14, 18]] it reports one error, at index 2. *)
Example sparse_array_example :
  exists a,
    Array sparseModel [(0, VNum tInt 12); (2, VNum tInt 17)]
      = Ok a /\
    expectedEntries a = [VNum tInt 12; VNum tInt 14; VNum tInt 17] /\
    run (tdArray_Match dataCtx (ints int3 [12; 14; 17])) a [] = (None, []) /\
    run (tdArray_Match dataCtx (ints int3 [12; 14; 18])) a [] =
      (None,
       [Detailed (mkError "values differ" (OfValue (VNum tInt 18))
                    (OfValue (VNum tInt 17)) None
                    (Some (AddArrayIndex dataCtx 2)))]) /\
    run (tdArray_Match (setBooleanError dataCtx true) (ints int3 [12; 14; 18])) a []
      = (Some ctxerr_BooleanError, []).
Proof. eexists. repeat split. Qed.

(** C1: the resolution rule fails for [Slice] given the nil pointer on a
    slice as its model.  With the entries [{1: 5}] the operator built expects
    the invalid value at index 0, where the rule gives the zero of the
    items, [0]: [populateExpectedEntries] returns before its loop that
    sets the missing items to zero.  The nil pointer on an array and the nil
    slice, its neighbours, do get the zero.  Against [&[]int{0, 5}] the
    operator built reports a mismatch at index 0. *)
Theorem Slice_nil_pointer_model_skips_zero :
  exists a b c,
    Slice (VNil (TPtr (TSlice tInt))) [(1, VNum tInt 5)]
      = Ok a /\
    expectedEntries a = [VInvalid; VNum tInt 5] /\
    effective tInt [(1, VNum tInt 5)] VInvalid 0 = VNum tInt 0 /\
    Array (VNil (TPtr (TArray 2 tInt))) [(1, VNum tInt 5)]
      = Ok b /\
    expectedEntries b = [VNum tInt 0; VNum tInt 5] /\
    Slice (VNil (TSlice tInt)) [(1, VNum tInt 5)] = Ok c /\
    expectedEntries c = [VNum tInt 0; VNum tInt 5] /\
    run (tdArray_Match dataCtx
           (VPtrTo (TPtr (TSlice tInt)) (ints (TSlice tInt) [0; 5]))) a [] =
      (None,
       [Detailed (mkError "values differ" (OfValue (VNum tInt 0))
                    (OfValue VInvalid) None
                    (Some (AddArrayIndex dataCtx 0)))]) /\
    run (tdArray_Match dataCtx (ints (TSlice tInt) [0; 5])) c [] = (None, []).
Proof. do 3 eexists. repeat split. Qed.

End ArrayExamples.

(** ** Boolean-only mode *)

Section BooleanMode.

Context `{ExternalsOK}.

Lemma failed_collect ctx e (s0 s : Sink) :
  (length s0 <= length s)%nat -> failed s0 (CollectError ctx e s) = true.
Proof.
  intros Hle. pose proof (collect_fails ctx e s) as Hf. unfold failed in *.
  destruct (isErr _); [done|]. cbn [orb] in *.
  apply Nat.ltb_lt. apply Nat.ltb_lt in Hf. lia.
Qed.

Lemma matchEntries_grows ctx got gotLen (es : list value) :
  forall index a s,
  (length s <= length (matchEntries ctx got gotLen index es a s).2)%nat.
Proof.
  induction es as [|e es IH]; intros index a s; cbn [matchEntries].
  - done.
  - destruct (gotLen <=? index).
    + destruct (BooleanError ctx); [done|].
      unfold bind, onSink, ret.
      pose proof (collect_grows (AddArrayIndex ctx index)
        (Detailed (mkError "expected value out of range"
           (RawString "<non-existent value>") (OfValue e) None None)) s).
      by destruct (CollectError _ _ _).
    + unfold bind, onSink, ret.
      pose proof (dispatch_grows (AddArrayIndex ctx index) (Index got index) e s).
      destruct (deepValueEqual _ _ _ _) as [[err|] s1]; [done|].
      cbn in *. specialize (IH (index + 1) a s1). lia.
Qed.

Lemma loopFailed_grown ctx got gotLen es index a (s : Sink) (n0 : nat) :
  (n0 < length s)%nat ->
  loopFailed n0 (matchEntries ctx got gotLen index es a s) = true.
Proof.
  intros Hlt. pose proof (matchEntries_grows ctx got gotLen es index a s).
  unfold loopFailed. destruct (_.1.1) as [[?|]|]; try done;
    apply Nat.ltb_lt; lia.
Qed.

Lemma AddArrayIndex_flag ctx b index :
  AddArrayIndex (setBooleanError ctx b) index =
  setBooleanError (AddArrayIndex ctx index) b.
Proof. done. Qed.

Lemma matchEntries_flag ctx got gotLen (es : list value) (b b' : bool) :
  forall index a (s s' : Sink),
  loopFailed (length s)
    (matchEntries (setBooleanError ctx b) got gotLen index es a s) =
  loopFailed (length s')
    (matchEntries (setBooleanError ctx b') got gotLen index es a s').
Proof.
  induction es as [|e es IH]; intros index a s s'; cbn [matchEntries].
  - unfold loopFailed, ret. cbn [fst snd]. by rewrite !Nat.ltb_irrefl.
  - destruct (gotLen <=? index).
    + assert (forall c (s : Sink),
                loopFailed (length s)
                  ((if BooleanError (setBooleanError ctx c)
                    then ret (Some (Some ctxerr_BooleanError))
                    else r <- onSink (CollectError
                           (AddArrayIndex (setBooleanError ctx c) index)
                           (Detailed (mkError "expected value out of range"
                              (RawString "<non-existent value>") (OfValue e)
                              None None))) ;;
                         ret (Some r)) a s) = true) as Hboth.
      { intros c s0. cbn [BooleanError setBooleanError].
        destruct c; [done|]. unfold bind, onSink, ret, loopFailed.
        match goal with |- context [CollectError ?c ?e ?s] =>
          pose proof (collect_fails c e s) as Hf;
          destruct (CollectError c e s) as [[?|] ?] end; [done|].
        cbn in *. done. }
      by rewrite !Hboth.
    + unfold bind, onSink. rewrite !AddArrayIndex_flag.
      pose proof (dispatch_flag (AddArrayIndex ctx index) (Index got index) e
                    b b' s s') as Hflag.
      pose proof (dispatch_grows (setBooleanError (AddArrayIndex ctx index) b)
                    (Index got index) e s) as Hg.
      pose proof (dispatch_grows (setBooleanError (AddArrayIndex ctx index) b')
                    (Index got index) e s') as Hg'.
      destruct (deepValueEqual (setBooleanError _ b) _ _ _) as [err s1].
      destruct (deepValueEqual (setBooleanError _ b') _ _ _) as [err' s1'].
      unfold failed in Hflag. cbn [fst snd] in *.
      destruct (decide (length s < length s1)%nat) as [Hlt|Hge];
        destruct (decide (length s' < length s1')%nat) as [Hlt'|Hge'].
      * transitivity true; [|symmetry].
        -- destruct err; [done|]. by apply loopFailed_grown.
        -- destruct err'; [done|]. by apply loopFailed_grown.
      * apply Nat.ltb_lt in Hlt. apply Nat.ltb_nlt in Hge'.
        rewrite Hlt, Hge', orb_true_r, orb_false_r in Hflag.
        destruct err' as [e'|]; [|done]. apply Nat.ltb_lt in Hlt.
        destruct err; [done|]. cbn [ret]. by rewrite loopFailed_grown.
      * apply Nat.ltb_nlt in Hge. apply Nat.ltb_lt in Hlt'.
        rewrite Hlt', Hge, orb_true_r, orb_false_r in Hflag.
        destruct err as [e0|]; [|done]. apply Nat.ltb_lt in Hlt'.
        destruct err'; [done|]. cbn [ret]. by rewrite loopFailed_grown.
      * apply Nat.ltb_nlt in Hge, Hge'.
        rewrite Hge, Hge', !orb_false_r in Hflag.
        destruct err, err'; try done.
        apply Nat.ltb_nlt in Hge, Hge'.
        replace (length s) with (length s1) by lia.
        replace (length s') with (length s1') by lia. apply IH.
Qed.

Lemma matchEntries_quiet ctx got gotLen (es : list value) :
  forall index a (s : Sink),
  loopFailed (length s) (matchEntries ctx got gotLen index es a s) = false ->
  (matchEntries ctx got gotLen index es a s).1.1 = None /\
  length (matchEntries ctx got gotLen index es a s).2 = length s.
Proof.
  induction es as [|e es IH]; intros index a s; cbn [matchEntries].
  - done.
  - destruct (gotLen <=? index).
    + destruct (BooleanError ctx); [done|].
      unfold bind, onSink, ret, loopFailed.
      match goal with |- context [CollectError ?c ?e ?s] =>
        pose proof (collect_fails c e s) as Hf;
        destruct (CollectError c e s) as [[?|] ?] end; [done|].
      cbn in *. congruence.
    + unfold bind, onSink.
      pose proof (dispatch_grows (AddArrayIndex ctx index) (Index got index) e s)
        as Hg.
      destruct (deepValueEqual _ _ _ _) as [[err|] s1]; [done|].
      cbn [fst snd] in *. intros Hq.
      destruct (decide (length s < length s1)%nat) as [Hlt|Hge].
      * by rewrite loopFailed_grown in Hq.
      * replace (length s) with (length s1) in * by lia. by apply IH.
Qed.

Lemma tdArray_Match_failed ctx got (a : tdArray) (s : Sink) :
  let cp := checkPtr (array_base a) ctx got true in
  failed s (run (tdArray_Match ctx got) a s) =
    isErr cp.1 ||
    isErr (checkType (array_base a) ctx cp.2) ||
    loopFailed (length s)
      (matchEntries ctx cp.2 (Len cp.2) 0 (expectedEntries a) a s) ||
    (loopEnded (matchEntries ctx cp.2 (Len cp.2) 0 (expectedEntries a) a s) &&
     (Z.of_nat (length (expectedEntries a)) <? Len cp.2)).
Proof.
  cbn zeta. unfold run, tdArray_Match, bind, self.
  destruct (checkPtr (array_base a) ctx got true) as [[e|] g]; cbn [fst snd isErr orb].
  { unfold onSink. pose proof (failed_collect ctx e s s (le_n _)) as Hf.
    by destruct (CollectError ctx e s). }
  destruct (checkType (array_base a) ctx g) as [e|]; cbn [isErr orb].
  { unfold onSink. pose proof (failed_collect ctx e s s (le_n _)) as Hf.
    by destruct (CollectError ctx e s). }
  pose proof (matchEntries_grows ctx g (Len g) (expectedEntries a) 0 a s) as Hg.
  unfold loopFailed, loopEnded.
  destruct (matchEntries ctx g (Len g) 0 (expectedEntries a) a s)
    as [[r a1] s1]. cbn [fst snd] in *.
  destruct r as [[e|]|]; unfold ret, failed; cbn [fst snd isErr orb andb].
  { done. }
  { by rewrite orb_false_r. }
  destruct (Z.of_nat (length (expectedEntries a)) <? Len g).
  - rewrite orb_true_r. destruct (BooleanError ctx); [done|].
    unfold onSink.
    match goal with |- context [CollectError ?c ?e ?sk] =>
      pose proof (failed_collect c e s sk Hg) as Hf;
      destruct (CollectError c e sk) end.
    exact Hf.
  - by rewrite orb_false_r.
Qed.

Lemma tdArray_Match_flag ctx got (a : tdArray) (s : Sink) (b b' : bool) :
  failed s (run (tdArray_Match (setBooleanError ctx b) got) a s) =
  failed s (run (tdArray_Match (setBooleanError ctx b') got) a s).
Proof.
  rewrite !tdArray_Match_failed. cbn zeta.
  destruct (checkPtr_flag (array_base a) ctx got true b b') as [-> ->].
  rewrite (checkType_flag (array_base a) ctx _ b b').
  rewrite (matchEntries_flag ctx _ _ _ b b' 0 a s s).
  destruct (loopFailed _ (matchEntries (setBooleanError ctx b') _ _ _ _ _ _))
    eqn:Hl'; [by rewrite !orb_true_r|].
  pose proof Hl' as Hl. rewrite <- (matchEntries_flag ctx _ _ _ b b' 0 a s s) in Hl.
  apply matchEntries_quiet in Hl as [Hl _], Hl' as [Hl' _].
  unfold loopEnded. by rewrite Hl, Hl'.
Qed.

Lemma doesNotMatch_failed ctx got (r : tdRe) (s : Sink) :
  failed s (run (doesNotMatch ctx got) r s) = true.
Proof.
  unfold run, doesNotMatch. destruct (BooleanError ctx); [done|].
  unfold bind, self, onSink.
  match goal with |- context [CollectError ?c ?e ?s] =>
    pose proof (failed_collect c e s s (le_n _)) as Hf;
    destruct (CollectError c e s) end.
  exact Hf.
Qed.

Lemma ResetPath_flag ctx b name :
  ResetPath (setBooleanError ctx b) name = setBooleanError (ResetPath ctx name) b.
Proof. done. Qed.

Lemma matchCaptures_flag ctx caps (r : tdRe) (s : Sink) (b b' : bool) :
  failed s (run (matchCaptures (setBooleanError ctx b) caps) r s) =
  failed s (run (matchCaptures (setBooleanError ctx b') caps) r s).
Proof.
  unfold run, matchCaptures, bind, self, onSink. cbn [Path setBooleanError].
  rewrite !ResetPath_flag.
  pose proof (dispatch_flag
    (ResetPath ctx ("(" +:+ PathString (Path ctx) +:+ " =~ " +:+
                    tdRe_String r +:+ ")")) caps (captures r) b b' s s) as Hf.
  by do 2 destruct (deepValueEqual _ _ _ _).
Qed.

Lemma matchBool_flag ctx got result (r : tdRe) (s : Sink) (b b' : bool) :
  failed s (run (matchBool (setBooleanError ctx b) got result) r s) =
  failed s (run (matchBool (setBooleanError ctx b') got result) r s).
Proof.
  unfold matchBool. destruct result; [done|]. by rewrite !doesNotMatch_failed.
Qed.

Lemma matchStringCaptures_flag ctx got result (r : tdRe) (s : Sink) (b b' : bool) :
  failed s (run (matchStringCaptures (setBooleanError ctx b) got result) r s) =
  failed s (run (matchStringCaptures (setBooleanError ctx b') got result) r s).
Proof.
  unfold matchStringCaptures. destruct (_ =? _)%nat.
  - by rewrite !doesNotMatch_failed.
  - unfold run, bind, self. destruct (hasType _ _); apply matchCaptures_flag.
Qed.

Lemma matchByteCaptures_flag ctx got result (r : tdRe) (s : Sink) (b b' : bool) :
  failed s (run (matchByteCaptures (setBooleanError ctx b) got result) r s) =
  failed s (run (matchByteCaptures (setBooleanError ctx b') got result) r s).
Proof.
  unfold matchByteCaptures. destruct (_ =? _)%nat.
  - by rewrite !doesNotMatch_failed.
  - unfold run, bind, self. destruct (hasType _ _); apply matchCaptures_flag.
Qed.

Lemma matchStr_flag ctx str (r : tdRe) (s : Sink) (b b' : bool) :
  failed s (run (matchStr (setBooleanError ctx b) str) r s) =
  failed s (run (matchStr (setBooleanError ctx b') str) r s).
Proof.
  unfold matchStr, run, bind, self. destruct (needCaptures r).
  - apply matchStringCaptures_flag.
  - apply matchBool_flag.
Qed.

Lemma collected_failed ctx e (O : Type) (o : O) (s : Sink) :
  failed s (run (onSink (CollectError ctx e)) o s) = true.
Proof.
  unfold run, onSink. pose proof (failed_collect ctx e s s (le_n _)) as Hf.
  by destruct (CollectError ctx e s).
Qed.

Lemma tdRe_Match_flag ctx got (r : tdRe) (s : Sink) (b b' : bool) :
  failed s (run (tdRe_Match (setBooleanError ctx b) got) r s) =
  failed s (run (tdRe_Match (setBooleanError ctx b') got) r s).
Proof.
  assert (forall c e,
    failed s (run (if BooleanError (setBooleanError ctx c)
                   then ret (Some ctxerr_BooleanError)
                   else onSink (CollectError (setBooleanError ctx c) e)) r s)
      = true) as Hbad.
  { intros c e. destruct c; cbn [BooleanError setBooleanError]; [done|].
    apply collected_failed. }
  unfold tdRe_Match.
  destruct (valueKind got); try (destruct (errorView got); [apply matchStr_flag|];
    destruct (stringerView got); [apply matchStr_flag|]; by rewrite !Hbad).
  - destruct (Kind_eqb _ Uint8).
    + unfold run, bind, self. destruct (needCaptures r).
      * apply matchByteCaptures_flag.
      * apply matchBool_flag.
    + by rewrite !Hbad.
  - apply matchStr_flag.
Qed.

Lemma setBeLax_flag ctx b l :
  setBeLax (setBooleanError ctx b) l = setBooleanError (setBeLax ctx l) b.
Proof. done. Qed.

(** [gotViaJSON] either fails in both modes or gives the same value in
    both. *)
Lemma gotViaJSON_flag ctx got (b b' : bool) :
  isErr (gotViaJSON (setBooleanError ctx b) got).1 =
  isErr (gotViaJSON (setBooleanError ctx b') got).1 /\
  (gotViaJSON (setBooleanError ctx b) got).2 =
  (gotViaJSON (setBooleanError ctx b') got).2.
Proof.
  unfold gotViaJSON, jsonify. destruct (GetInterface got true); [|done].
  destruct (json_Marshal _); [|done].
  cbn [BooleanError setBooleanError]. by destruct b, b'.
Qed.

Lemma tdJSON_Match_flag ctx got (j : tdJSON) (s : Sink) (b b' : bool) :
  failed s (run (tdJSON_Match (setBooleanError ctx b) got) j s) =
  failed s (run (tdJSON_Match (setBooleanError ctx b') got) j s).
Proof.
  unfold tdJSON_Match, bind, self.
  destruct (gotViaJSON_flag ctx got b b') as [He Hg].
  destruct (gotViaJSON (setBooleanError ctx b) got) as [[e|] g];
    destruct (gotViaJSON (setBooleanError ctx b') got) as [[e'|] g'];
    cbn [fst snd isErr] in *; try done.
  - unfold run. fold (run (onSink (CollectError (setBooleanError ctx b) e)) j s).
    fold (run (onSink (CollectError (setBooleanError ctx b') e')) j s).
    by rewrite !collected_failed.
  - subst g'. rewrite !setBeLax_flag. unfold run, onSink.
    pose proof (dispatch_flag (setBeLax ctx true) g (json_expected j) b b' s s)
      as Hf.
    by do 2 destruct (deepValueEqual _ _ _ _).
Qed.

Lemma tdMapJSON_Match_flag ctx got (m : tdMapJSON) (s : Sink) (b b' : bool) :
  failed s (run (tdMapJSON_Match (setBooleanError ctx b) got) m s) =
  failed s (run (tdMapJSON_Match (setBooleanError ctx b') got) m s).
Proof.
  unfold tdMapJSON_Match, bind, self.
  destruct (gotViaJSON_flag ctx got b b') as [He Hg].
  destruct (gotViaJSON (setBooleanError ctx b) got) as [[e|] g];
    destruct (gotViaJSON (setBooleanError ctx b') got) as [[e'|] g'];
    cbn [fst snd isErr] in *; try done.
  - unfold run. fold (run (onSink (CollectError (setBooleanError ctx b) e)) m s).
    fold (run (onSink (CollectError (setBooleanError ctx b') e')) m s).
    by rewrite !collected_failed.
  - subst g'. destruct (IsValid g); cbn [negb].
    + rewrite !setBeLax_flag. unfold run, onSink.
      pose proof (map_flag (mapjson_tdMap m) (setBeLax ctx true) g b b' s s)
        as Hf.
      by do 2 destruct (tdMap_match _ _ _ _).
    + cbn [BooleanError setBooleanError].
      assert (forall c : bool,
        failed s (run (if c then ret (Some ctxerr_BooleanError)
                       else onSink (CollectError (setBooleanError ctx c)
                              (Detailed (mkError "values differ"
                                 (RawString "null") (RawString "non-null")
                                 None None)))) m s) = true) as Hnil.
      { intros []; [done | apply collected_failed]. }
      by rewrite !Hnil.
Qed.

End BooleanMode.

(** The reference collaborators behave as [ExternalsOK] asks. *)
Lemma Ref_collect_fails ctx e (s : Sink) :
  failed s (Ref.CollectError ctx e s) = true.
Proof.
  unfold failed, Ref.CollectError.
  destruct e; try done;
    (destruct (MaxErrors ctx =? 1); [done|];
     destruct (_ && _); cbn [fst snd isErr orb]; [done|];
     rewrite length_app; cbn; apply Nat.ltb_lt; lia).
Qed.

Lemma Ref_collect_grows ctx e (s : Sink) :
  (length s <= length (Ref.CollectError ctx e s).2)%nat.
Proof.
  unfold Ref.CollectError.
  destruct e; try done;
    (destruct (MaxErrors ctx =? 1); [done|];
     destruct (_ && _); cbn [fst snd]; rewrite length_app; lia).
Qed.

Lemma Ref_mismatch_failed ctx e (s : Sink) :
  failed s (if BooleanError ctx then (Some ctxerr_BooleanError, s)
            else Ref.CollectError ctx e s) = true.
Proof. destruct (BooleanError ctx); [done | apply Ref_collect_fails]. Qed.

Lemma Ref_mismatch_grows ctx e (s : Sink) :
  (length s <= length (if BooleanError ctx then (Some ctxerr_BooleanError, s)
                       else Ref.CollectError ctx e s).2)%nat.
Proof. destruct (BooleanError ctx); [done | apply Ref_collect_grows]. Qed.

Lemma failed_quiet (s : Sink) : failed s (None, s) = false.
Proof. unfold failed. cbn. apply Nat.ltb_irrefl. Qed.

Lemma Ref_checkType_flag t ctx got (b b' : bool) :
  isErr (Ref.checkType t (setBooleanError ctx b) got) =
  isErr (Ref.checkType t (setBooleanError ctx b') got).
Proof.
  unfold Ref.checkType. destruct (from_option _ _ _); [done|].
  cbn [BooleanError setBooleanError]. by destruct b, b'.
Qed.

Lemma Ref_externals_ok : ExternalsOK Ref.externals.
Proof.
  split; cbn [deepValueEqual CollectError tdMap_match checkPtr checkType
              Ref.externals].
  - apply Ref_collect_fails.
  - apply Ref_collect_grows.
  - intros ctx got expected s. unfold Ref.deepValueEqual.
    destruct (Ref.sameValue _ _ _); [done | apply Ref_mismatch_grows].
  - intros ctx got expected b b' s s'. unfold Ref.deepValueEqual.
    cbn [BeLax setBooleanError].
    destruct (Ref.sameValue _ _ _); [by rewrite !failed_quiet|].
    by rewrite !Ref_mismatch_failed.
  - intros m ctx got s. unfold Ref.tdMap_match.
    destruct (Ref.checkType _ _ _); [apply Ref_collect_grows|].
    match goal with |- context [if ?c then (None, s) else _] => destruct c end;
      [done | apply Ref_mismatch_grows].
  - intros m ctx got b b' s s'. unfold Ref.tdMap_match.
    pose proof (Ref_checkType_flag (map_base m) ctx got b b') as Ht.
    destruct (Ref.checkType _ (setBooleanError ctx b) _);
      destruct (Ref.checkType _ (setBooleanError ctx b') _); try done.
    + by rewrite !Ref_collect_fails.
    + cbn [BeLax setBooleanError].
      match goal with |- context [if ?c then (None, s) else _] => destruct c end;
        [by rewrite !failed_quiet | by rewrite !Ref_mismatch_failed].
  - intros t ctx got nilOK b b'. unfold Ref.checkPtr.
    destruct (isPtr t); [|done].
    destruct got; try (cbn [BooleanError setBooleanError]; by destruct b, b').
    destruct t0; try (cbn [BooleanError setBooleanError]; by destruct b, b').
    destruct nilOK; [done|].
    cbn [BooleanError setBooleanError]. by destruct b, b'.
  - apply Ref_checkType_flag.
Qed.

(** C2: boolean-only mode detects the same mismatches.  For each [Match] of
    the sources (Array and Slice, Re and ReAll, JSON, SubJSONOf and
    SuperJSONOf) and every got value, the call with the boolean-only flag set
    fails exactly when the call with the flag clear fails, where a call fails
    when it returns an error or collects one. *)
Theorem boolean_only_same_detection `{ExternalsOK} (ctx : Context)
    (got : value) (s : Sink) :
  (forall a : tdArray,
     failed s (run (tdArray_Match (setBooleanError ctx true) got) a s) =
     failed s (run (tdArray_Match (setBooleanError ctx false) got) a s)) /\
  (forall r : tdRe,
     failed s (run (tdRe_Match (setBooleanError ctx true) got) r s) =
     failed s (run (tdRe_Match (setBooleanError ctx false) got) r s)) /\
  (forall j : tdJSON,
     failed s (run (tdJSON_Match (setBooleanError ctx true) got) j s) =
     failed s (run (tdJSON_Match (setBooleanError ctx false) got) j s)) /\
  (forall m : tdMapJSON,
     failed s (run (tdMapJSON_Match (setBooleanError ctx true) got) m s) =
     failed s (run (tdMapJSON_Match (setBooleanError ctx false) got) m s)).
Proof.
  repeat split; intros.
  - apply tdArray_Match_flag.
  - apply tdRe_Match_flag.
  - apply tdJSON_Match_flag.
  - apply tdMapJSON_Match_flag.
Qed.

(** C2 with the reference collaborators, on the array [[12, 14, 18]]. *)
Lemma boolean_only_same_detection_witness :
  (forall a : tdArray,
     failed [] (run (tdArray_Match (H := Ref.externals)
                       (setBooleanError dataCtx true) (ints int3 [12; 14; 18])) a []) =
     failed [] (run (tdArray_Match (H := Ref.externals)
                       (setBooleanError dataCtx false) (ints int3 [12; 14; 18])) a [])) /\
  (forall r : tdRe,
     failed [] (run (tdRe_Match (H := Ref.externals)
                       (setBooleanError dataCtx true) (ints int3 [12; 14; 18])) r []) =
     failed [] (run (tdRe_Match (H := Ref.externals)
                       (setBooleanError dataCtx false) (ints int3 [12; 14; 18])) r [])) /\
  (forall j : tdJSON,
     failed [] (run (tdJSON_Match (H := Ref.externals)
                       (setBooleanError dataCtx true) (ints int3 [12; 14; 18])) j []) =
     failed [] (run (tdJSON_Match (H := Ref.externals)
                       (setBooleanError dataCtx false) (ints int3 [12; 14; 18])) j [])) /\
  (forall m : tdMapJSON,
     failed [] (run (tdMapJSON_Match (H := Ref.externals)
                       (setBooleanError dataCtx true) (ints int3 [12; 14; 18])) m []) =
     failed [] (run (tdMapJSON_Match (H := Ref.externals)
                       (setBooleanError dataCtx false) (ints int3 [12; 14; 18])) m [])).
Proof.
  exact (boolean_only_same_detection (H := Ref_externals_ok) dataCtx
           (ints int3 [12; 14; 18]) []).
Defined.

(** ** Properties of [Re] and [ReAll] *)

Lemma appendSets_from {A} (result : list (list A)) (acc : list A) :
  fold_left (fun caps set => caps ++ drop 1 set) result acc =
  acc ++ capturedGroups result.
Proof.
  revert acc. induction result as [|set result IH]; intros acc; cbn.
  - by rewrite app_nil_r.
  - rewrite IH. unfold capturedGroups. by rewrite <- app_assoc.
Qed.

Lemma appendSets_flat {A} (result : list (list A)) :
  appendSets result = capturedGroups result.
Proof. apply (appendSets_from result []). Qed.

Lemma appendOne_from {A B} (conv : A -> B) (set : list A) (acc : list B) :
  fold_left (fun caps match_ => caps ++ [conv match_]) set acc =
  acc ++ (conv <$> set).
Proof.
  revert acc. induction set as [|x set IH]; intros acc; cbn.
  - by rewrite app_nil_r.
  - rewrite IH. by rewrite <- app_assoc.
Qed.

Lemma appendEach_from {A B} (conv : A -> B) (result : list (list A)) (acc : list B) :
  fold_left (fun caps set =>
               fold_left (fun caps match_ => caps ++ [conv match_])
                         (drop 1 set) caps) result acc =
  acc ++ (conv <$> capturedGroups result).
Proof.
  revert acc. induction result as [|set result IH]; intros acc; cbn [fold_left].
  - by rewrite app_nil_r.
  - rewrite IH, appendOne_from. unfold capturedGroups. cbn [fmap list_fmap concat].
    by rewrite fmap_app, <- app_assoc.
Qed.

Lemma appendEach_flat {A B} (conv : A -> B) (result : list (list A)) :
  appendEach conv result = conv <$> capturedGroups result.
Proof. apply (appendEach_from conv result []). Qed.

Lemma capturedGroups_lookup {A} (result : list (list A)) :
  forall (k g : nat) (set : list A) (x : A),
  result !! k = Some set ->
  set !! S g = Some x ->
  capturedGroups result !! (groupsBefore result k + g)%nat = Some x.
Proof.
  unfold groupsBefore, capturedGroups.
  induction result as [|set0 result IH]; intros k g set x Hk Hg; [done|].
  destruct k as [|k]; cbn in *.
  - injection Hk as ->. rewrite lookup_app_l.
    + by rewrite lookup_drop.
    + rewrite length_drop. apply lookup_lt_Some in Hg. lia.
  - rewrite length_app, <- Nat.add_assoc, lookup_app_r by lia.
    replace (_ + _ - _)%nat
      with (length (concat (drop 1 <$> take k result)) + g)%nat by lia.
    by eapply IH.
Qed.

(** [num] counts the groups, when every set holds its whole match. *)
Lemma numCaptures_from {A} (result : list (list A)) (acc : Z) :
  Forall (fun set => set <> []) result ->
  fold_left (fun num set => num + (Z.of_nat (length set) - 1)) result acc =
  acc + Z.of_nat (length (capturedGroups result)).
Proof.
  revert acc. induction result as [|set result IH]; intros acc Hne; cbn [fold_left].
  - cbn. lia.
  - apply Forall_cons in Hne as [Hset Hne]. rewrite IH by done.
    unfold capturedGroups. cbn [fmap list_fmap concat].
    rewrite length_app, length_drop. destruct set; [done|]. cbn [length]. lia.
Qed.

Section ReProperties.

Context `{Externals}.

Lemma run_self {O A} (k : O -> M O A) (o : O) (s : Sink) :
  run (x <- self ;; k x) o s = run (k o) o s.
Proof. done. Qed.

Lemma run_doesNotMatch ctx got (r : tdRe) (s : Sink) :
  run (doesNotMatch ctx got) r s = doesNotMatchRes r ctx got s.
Proof.
  unfold run, doesNotMatch, doesNotMatchRes. destruct (BooleanError ctx); [done|].
  unfold bind, self, onSink. by destruct (CollectError _ _ _).
Qed.

Lemma run_matchCaptures ctx caps (r : tdRe) (s : Sink) :
  run (matchCaptures ctx caps) r s =
  deepValueEqual (capturesCtx r ctx) caps (captures r) s.
Proof.
  unfold run, matchCaptures, bind, self, onSink, capturesCtx.
  by destruct (deepValueEqual _ _ _ _).
Qed.

Lemma run_matchStringCaptures ctx str result (r : tdRe) (s : Sink) :
  run (matchStringCaptures ctx str result) r s =
    match result with
    | [] => doesNotMatchRes r ctx (VStr tString str) s
    | _ => deepValueEqual (capturesCtx r ctx)
             (capturesValue r (capturedGroups result)) (captures r) s
    end.
Proof.
  unfold matchStringCaptures. destruct result as [|set result].
  - apply run_doesNotMatch.
  - cbn [length Nat.eqb]. rewrite run_self. unfold capturesValue.
    destruct (hasType _ _).
    + rewrite appendEach_flat. apply run_matchCaptures.
    + rewrite appendSets_flat. apply run_matchCaptures.
Qed.

Lemma run_matchByteCaptures ctx b result (r : tdRe) (s : Sink) :
  run (matchByteCaptures ctx b result) r s =
    match result with
    | [] => doesNotMatchRes r ctx (bytesValue b) s
    | _ => deepValueEqual (capturesCtx r ctx)
             (capturesValue r (String.string_of_list_byte <$> capturedGroups result))
             (captures r) s
    end.
Proof.
  unfold matchByteCaptures. destruct result as [|set result].
  - apply run_doesNotMatch.
  - cbn [length Nat.eqb]. rewrite run_self. unfold capturesValue.
    destruct (hasType _ _); rewrite !appendEach_flat.
    + rewrite <- list_fmap_compose. apply run_matchCaptures.
    + apply run_matchCaptures.
Qed.

Lemma run_matchStr ctx str (r : tdRe) (s : Sink) :
  run (matchStr ctx str) r s = matchStrRes r ctx str s.
Proof.
  unfold matchStr, matchStrRes. rewrite run_self. destruct (needCaptures r).
  - rewrite run_matchStringCaptures. by destruct (re_FindAllStringSubmatch _ _ _).
  - unfold matchBool. destruct (re_MatchString _ _); [done|].
    apply run_doesNotMatch.
Qed.

Lemma run_tdRe_Match ctx got (r : tdRe) (s : Sink) :
  run (tdRe_Match ctx got) r s =
    match subjectOf got with
    | AsString str => matchStrRes r ctx str s
    | AsBytes b => matchBytesRes r ctx b s
    | BadSlice k => badRes ctx "bad slice type" ("[]" +:+ KindString k) "[]uint8" s
    | BadType =>
        badRes ctx "bad type" (from_option typeString "" (typeOf got))
          "string (convertible) OR fmt.Stringer OR error OR []uint8" s
    end.
Proof.
  assert (forall message g e,
    run (if BooleanError ctx then ret (Some ctxerr_BooleanError)
         else onSink (CollectError ctx (Detailed (mkError message (RawString g)
                (RawString e) None None)))) r s = badRes ctx message g e s) as Hbad.
  { intros. unfold badRes, run. destruct (BooleanError ctx); [done|].
    unfold onSink. by destruct (CollectError _ _ _). }
  unfold tdRe_Match, subjectOf, elemKindOf.
  destruct (valueKind got);
    try (destruct (errorView got); [apply run_matchStr|];
         destruct (stringerView got); [apply run_matchStr | apply Hbad]).
  - destruct (Kind_eqb _ Uint8); [|apply Hbad].
    unfold matchBytesRes. rewrite run_self. destruct (needCaptures r).
    + rewrite run_matchByteCaptures. by destruct (re_FindAllSubmatch _ _ _).
    + unfold matchBool. destruct (re_Match _ _); [done|]. apply run_doesNotMatch.
  - apply run_matchStr.
Qed.

End ReProperties.

Section ReClaims.

Context `{Externals}.

(** C4: with a captures expectation, the groups captured by all the matches
    found are put in one sequence, in match order then in group order, and
    that sequence is compared by the dispatcher [deepValueEqual] against the
    captures expectation, whatever it is: a literal sequence or an operator.
    The groups of a byte input are converted to strings.  Group [g + 1] of
    match [k] comes after every group of the matches before [k] and after the
    first [g] groups of match [k]. *)
Theorem captures_flattened_then_dispatched (r : tdRe) (ctx : Context)
    (got : value) (s : Sink) :
  needCaptures r = true ->
  (forall str set result,
     subjectOf got = AsString str ->
     re_FindAllStringSubmatch (re r) str (numMatches r) = set :: result ->
     run (tdRe_Match ctx got) r s =
       deepValueEqual (capturesCtx r ctx)
         (capturesValue r (capturedGroups (set :: result))) (captures r) s) /\
  (forall b set result,
     subjectOf got = AsBytes b ->
     re_FindAllSubmatch (re r) b (numMatches r) = set :: result ->
     run (tdRe_Match ctx got) r s =
       deepValueEqual (capturesCtx r ctx)
         (capturesValue r
            (String.string_of_list_byte <$> capturedGroups (set :: result)))
         (captures r) s) /\
  (forall (result : list (list string)) (k g : nat) set x,
     result !! k = Some set -> set !! S g = Some x ->
     capturedGroups result !! (groupsBefore result k + g)%nat = Some x).
Proof.
  intros Hc. split; [|split].
  - intros str set result Hs Hr. rewrite run_tdRe_Match, Hs.
    unfold matchStrRes. by rewrite Hc, Hr.
  - intros b set result Hs Hr. rewrite run_tdRe_Match, Hs.
    unfold matchBytesRes. by rewrite Hc, Hr.
  - apply capturedGroups_lookup.
Qed.

(** C6, as the code has it: [Match] looks at the kind of got first.  A value
    of kind string is matched on its contents and a slice of [uint8] on its
    bytes; a slice of anything else gets the "bad slice type" error whatever
    methods its type has; a value of any other kind is matched on its
    [Error()] text if its type implements [error], else on its [String()]
    text if it implements [fmt.Stringer], else it gets the "bad type" error.
    The two errors are built without the regexp; in boolean-only mode they
    are the boolean sentinel. *)
Theorem Match_reads_got_by_kind (r : tdRe) (ctx : Context) (got : value) (s : Sink) :
  (valueKind got = reflect.String ->
   run (tdRe_Match ctx got) r s = matchStrRes r ctx (gotString got) s) /\
  (valueKind got = reflect.Slice -> elemKindOf got = Uint8 ->
   run (tdRe_Match ctx got) r s = matchBytesRes r ctx (gotBytes got) s) /\
  (valueKind got = reflect.Slice -> elemKindOf got <> Uint8 ->
   run (tdRe_Match ctx got) r s =
     badRes ctx "bad slice type" ("[]" +:+ KindString (elemKindOf got))
       "[]uint8" s) /\
  (valueKind got <> reflect.String -> valueKind got <> reflect.Slice ->
   (forall str, errorView got = Some str ->
      run (tdRe_Match ctx got) r s = matchStrRes r ctx str s) /\
   (forall str, errorView got = None -> stringerView got = Some str ->
      run (tdRe_Match ctx got) r s = matchStrRes r ctx str s) /\
   (errorView got = None -> stringerView got = None ->
      run (tdRe_Match ctx got) r s =
        badRes ctx "bad type" (from_option typeString "" (typeOf got))
          "string (convertible) OR fmt.Stringer OR error OR []uint8" s)).
Proof.
  rewrite run_tdRe_Match. unfold subjectOf. repeat split.
  - by intros ->.
  - intros -> ->. done.
  - intros -> Hne. by rewrite (Kind_eqb_neq _ _ Hne).
  - intros str ->. by destruct (valueKind got).
  - intros str -> ->. by destruct (valueKind got).
  - intros -> ->. by destruct (valueKind got).
Qed.

End ReClaims.

Section ReClaimsOK.

Context `{ExternalsOK}.

(** C5: with a captures expectation, an input in which the regexp finds no
    match gets the "does not match Regexp" error ([doesNotMatch]), which is
    a failure; the empty sequence of captures is never compared with the
    expectation.  In boolean-only mode the error is the boolean sentinel. *)
Theorem no_match_is_an_error (r : tdRe) (ctx : Context) (got : value) (s : Sink) :
  needCaptures r = true ->
  (forall str,
     subjectOf got = AsString str ->
     re_FindAllStringSubmatch (re r) str (numMatches r) = [] ->
     run (tdRe_Match ctx got) r s = doesNotMatchRes r ctx (VStr tString str) s) /\
  (forall b,
     subjectOf got = AsBytes b ->
     re_FindAllSubmatch (re r) b (numMatches r) = [] ->
     run (tdRe_Match ctx got) r s = doesNotMatchRes r ctx (bytesValue b) s) /\
  (forall g, failed s (doesNotMatchRes r ctx g s) = true).
Proof.
  intros Hc. split; [|split].
  - intros str Hs Hr. rewrite run_tdRe_Match, Hs.
    unfold matchStrRes. by rewrite Hc, Hr.
  - intros b Hs Hr. rewrite run_tdRe_Match, Hs.
    unfold matchBytesRes. by rewrite Hc, Hr.
  - intros g. unfold doesNotMatchRes. destruct (BooleanError ctx); [done|].
    apply collect_fails.
Qed.

End ReClaimsOK.

Section ReExamples.

#[local] Existing Instance Ref.externals.

(** C4 on "John Doe": its two groups go to the dispatcher. *)
Lemma captures_flattened_then_dispatched_witness :
  run (tdRe_Match dataCtx (VStr tString "John Doe")) nameOp [] =
    deepValueEqual (capturesCtx nameOp dataCtx)
      (capturesValue nameOp (capturedGroups [["John Doe"; "John"; "Doe"]]))
      (captures nameOp) [].
Proof.
  refine (proj1 (captures_flattened_then_dispatched nameOp dataCtx
                   (VStr tString "John Doe") [] _)
            "John Doe" ["John Doe"; "John"; "Doe"] [] _ _); reflexivity.
Defined.

(** The two examples of the documentation: the captures of "John Doe" match
    the literal sequence, and those of "a1 b2" found by [ReAll] match an
    unordered bag given in the other order. *)
Example regexp_captures_examples :
  run (tdRe_Match dataCtx (VStr tString "John Doe")) nameOp [] = (None, []) /\
  run (tdRe_Match dataCtx (VStr tString "a1 b2"))
      (mkRe "ReAll" tokenRe (VOp "Bag" [VStr tString "b2"; VStr tString "a1"]) (-1))
      [] = (None, []) /\
  capturedGroups [["a1 "; "a1"]; ["b2"; "b2"]] = ["a1"; "b2"].
Proof. repeat split. Qed.

(** C5 on an input without any match, although the expectation is the empty
    sequence of captures. *)
Lemma no_match_is_an_error_witness :
  run (tdRe_Match dataCtx (VStr tString "nobody")) noCapturesOp [] =
    doesNotMatchRes noCapturesOp dataCtx (VStr tString "nobody") [] /\
  failed [] (doesNotMatchRes noCapturesOp dataCtx (VStr tString "nobody") []) = true /\
  deepValueEqual (capturesCtx noCapturesOp dataCtx) (strings [])
    (captures noCapturesOp) [] = (None, []).
Proof.
  pose proof (no_match_is_an_error (H := Ref_externals_ok) noCapturesOp dataCtx
                (VStr tString "nobody") [] eq_refl) as (Hstr & _ & Hfail).
  split; [apply Hstr; reflexivity|]. split; [apply Hfail | reflexivity].
Defined.

(** The answer of the same call, in full. *)
Example no_match_example :
  run (tdRe_Match dataCtx (VStr tString "nobody")) noCapturesOp [] =
    (None,
     [Detailed (mkError "does not match Regexp" (OfValue (VStr tString "nobody"))
                  (RawString "^(\w+) (\w+)$") None (Some dataCtx))]).
Proof. reflexivity. Qed.

(** C6, counterexample: a value of a slice type that implements [error].
    [test.Errors] is a [[]string] whose [Error()] gives "boom", and the
    regexp matches "boom"; yet [Match] does not apply the regexp to the error
    text: it reports "bad slice type". *)
Lemma slice_with_error_view_is_refused :
  let got := VSeq Ref.tErrors [VStr tString "boom"] in
  errorView got = Some "boom" /\
  re_MatchString boomRe "boom" = true /\
  run (tdRe_Match dataCtx got) (mkRe "Re" boomRe VInvalid 1) [] =
    (None,
     [Detailed (mkError "bad slice type" (RawString "[]string")
                  (RawString "[]uint8") None (Some dataCtx))]).
Proof. repeat split. Qed.

(** The same regexp applied to the error text of a struct that implements
    both [error] and [fmt.Stringer]: the error text is the one matched. *)
Example error_view_comes_first :
  let got := VStruct Ref.tMyError [VStr tString "boom"] in
  errorView got = Some "boom" /\
  stringerView got = Some "MyError: boom" /\
  run (tdRe_Match dataCtx got) (mkRe "Re" boomRe VInvalid 1) [] = (None, []).
Proof. repeat split. Qed.

End ReExamples.

(** ** Properties of [JSON], [SubJSONOf] and [SuperJSONOf] *)

Section JSONProperties.

Context `{Externals}.

Lemma run_onSink {O A} (f : Sink -> A * Sink) (o : O) (s : Sink) :
  run (onSink f) o s = f s.
Proof. unfold run, onSink. by destruct (f s). Qed.

Lemma run_tdJSON_Match ctx got (j : tdJSON) (s : Sink) :
  run (tdJSON_Match ctx got) j s =
    match GetInterface got true with
    | None => CollectError ctx (CannotCompareError ctx) s
    | Some gotIf =>
        match json_Marshal gotIf with
        | inl err => CollectError ctx (marshalFailed ctx err) s
        | inr b => deepValueEqual (setBeLax ctx true) (json_Unmarshal b)
                     (json_expected j) s
        end
    end.
Proof.
  unfold tdJSON_Match. rewrite run_self. unfold gotViaJSON, jsonify, marshalFailed.
  destruct (GetInterface got true); [|apply run_onSink].
  destruct (json_Marshal _); [|apply run_onSink].
  destruct (BooleanError ctx); apply run_onSink.
Qed.

Lemma run_tdMapJSON_Match ctx got (m : tdMapJSON) (s : Sink) :
  run (tdMapJSON_Match ctx got) m s =
    match GetInterface got true with
    | None => CollectError ctx (CannotCompareError ctx) s
    | Some gotIf =>
        match json_Marshal gotIf with
        | inl err => CollectError ctx (marshalFailed ctx err) s
        | inr b =>
            if IsValid (json_Unmarshal b)
            then tdMap_match (mapjson_tdMap m) (setBeLax ctx true)
                   (json_Unmarshal b) s
            else nullRes ctx s
        end
    end.
Proof.
  unfold tdMapJSON_Match. rewrite run_self. unfold gotViaJSON, jsonify, marshalFailed.
  destruct (GetInterface got true); [|apply run_onSink].
  destruct (json_Marshal _).
  - destruct (BooleanError ctx); apply run_onSink.
  - destruct (IsValid _); cbn [negb]; [apply run_onSink|].
    unfold nullRes. destruct (BooleanError ctx); [done | apply run_onSink].
Qed.


End JSONProperties.

Section JSONClaims.

Context `{ExternalsOK}.


End JSONClaims.

Section JSONExamples.

#[local] Existing Instance Ref.externals.


(** The answers of these calls, in full: the string matches, the channel
    gets an error with a summary. *)
Example json_examples :
  run (tdJSON_Match dataCtx (VStr tString "Bob")) bobOp [] = (None, []) /\
  run (tdJSON_Match dataCtx aChannel) bobOp [] =
    (None,
     [Detailed (mkError "json.Marshal failed" NoRepr NoRepr
                  (Some "json: unsupported type: chan int") (Some dataCtx))]) /\
  run (tdJSON_Match (setBooleanError dataCtx true) aChannel) bobOp [] =
    (Some ctxerr_BooleanError, []).
Proof. repeat split. Qed.



End JSONExamples.

(** ** The operators are left as they were *)

Lemma preserves_ret {O A} (a : A) : preserves (O := O) (ret a).
Proof. done. Qed.

Lemma preserves_self {O} : preserves (O := O) self.
Proof. done. Qed.

Lemma preserves_onSink {O A} (f : Sink -> A * Sink) : preserves (O := O) (onSink f).
Proof. intros o s. unfold receiverAfter, onSink. by destruct (f s). Qed.

Lemma preserves_bind {O A B} (m : M O A) (k : A -> M O B) :
  preserves m -> (forall a, preserves (k a)) -> preserves (x <- m ;; k x).
Proof.
  intros Hm Hk o s. unfold receiverAfter, bind.
  specialize (Hm o s). unfold receiverAfter in Hm.
  destruct (m o s) as [[a o'] s']. subst o'. apply Hk.
Qed.

Lemma preserves_if {O A} (b : bool) (m1 m2 : M O A) :
  preserves m1 -> preserves m2 -> preserves (if b then m1 else m2).
Proof. by destruct b. Qed.

Create HintDb frame.

#[export] Hint Resolve preserves_ret preserves_self preserves_onSink
  preserves_if : frame.

#[export] Hint Extern 2 (preserves (bind _ _)) =>
  apply preserves_bind; [|intros ?] : frame.

Section Frame.

Context `{Externals}.

Lemma matchEntries_preserves ctx got gotLen (es : list value) :
  forall index, preserves (matchEntries ctx got gotLen index es).
Proof.
  induction es as [|e es IH]; intros index; cbn [matchEntries].
  - auto with frame.
  - apply preserves_if; [auto with frame|].
    apply preserves_bind; [auto with frame|]. intros [err|]; auto with frame.
Qed.

Lemma tdArray_Match_preserves ctx got : preserves (tdArray_Match ctx got).
Proof.
  unfold tdArray_Match. apply preserves_bind; [auto with frame|]. intros a.
  destruct (checkPtr _ _ _ _) as [[e|] g]; [auto with frame|].
  destruct (checkType _ _ _); [auto with frame|].
  apply preserves_bind; [apply matchEntries_preserves|].
  intros [res|]; auto with frame.
Qed.

Lemma doesNotMatch_preserves ctx got : preserves (doesNotMatch ctx got).
Proof. unfold doesNotMatch. auto with frame. Qed.

Lemma matchCaptures_preserves ctx caps : preserves (matchCaptures ctx caps).
Proof. unfold matchCaptures. auto with frame. Qed.

Lemma matchBool_preserves ctx got result : preserves (matchBool ctx got result).
Proof.
  unfold matchBool. apply preserves_if;
    [auto with frame | apply doesNotMatch_preserves].
Qed.

Lemma matchStringCaptures_preserves ctx got result :
  preserves (matchStringCaptures ctx got result).
Proof.
  unfold matchStringCaptures.
  apply preserves_if; [apply doesNotMatch_preserves|].
  apply preserves_bind; [auto with frame|]. intros r.
  apply preserves_if; apply matchCaptures_preserves.
Qed.

Lemma matchByteCaptures_preserves ctx got result :
  preserves (matchByteCaptures ctx got result).
Proof.
  unfold matchByteCaptures.
  apply preserves_if; [apply doesNotMatch_preserves|].
  apply preserves_bind; [auto with frame|]. intros r.
  apply preserves_if; apply matchCaptures_preserves.
Qed.

Lemma matchStr_preserves ctx str : preserves (matchStr ctx str).
Proof.
  unfold matchStr. apply preserves_bind; [auto with frame|]. intros r.
  apply preserves_if;
    [apply matchStringCaptures_preserves | apply matchBool_preserves].
Qed.

Lemma tdRe_Match_preserves ctx got : preserves (tdRe_Match ctx got).
Proof.
  unfold tdRe_Match.
  destruct (valueKind got);
    try (destruct (errorView got); [apply matchStr_preserves|];
         destruct (stringerView got); [apply matchStr_preserves|];
         auto with frame).
  - apply preserves_if; [|auto with frame].
    apply preserves_bind; [auto with frame|]. intros r.
    apply preserves_if;
      [apply matchByteCaptures_preserves | apply matchBool_preserves].
  - apply matchStr_preserves.
Qed.

Lemma tdJSON_Match_preserves ctx got : preserves (tdJSON_Match ctx got).
Proof.
  unfold tdJSON_Match. apply preserves_bind; [auto with frame|]. intros j.
  destruct (gotViaJSON ctx got) as [[e|] g]; auto with frame.
Qed.

Lemma tdMapJSON_Match_preserves ctx got : preserves (tdMapJSON_Match ctx got).
Proof.
  unfold tdMapJSON_Match. apply preserves_bind; [auto with frame|]. intros m.
  destruct (gotViaJSON ctx got) as [[e|] g]; auto with frame.
Qed.


End Frame.

(** * Further properties of [Array] and [Slice] *)

Section ArrayMore.
Context `{Externals}.

Lemma fillEntries_length elemType maxLength (m : ArrayEntries) :
  forall es es' : list value,
  fillEntries elemType maxLength m es = Ok es' ->
  length es' = length es /\
  forall i v, (i, v) ∈ m -> 0 <= i < Z.of_nat (length es).
Proof.
  induction m as [|[k w] m IH]; cbn [fillEntries]; intros es es' Hrun.
  - injection Hrun as <-. split; [done|]. by intros i v ?%elem_of_nil.
  - destruct (entryValue elemType maxLength k w) as [x| |]; try done.
    cbn [andThen] in Hrun.
    destruct (store es k x) as [es1| |] eqn:Hs; try done. cbn [andThen] in Hrun.
    apply store_Ok in Hs as [Hr ->].
    destruct (IH _ _ Hrun) as [Hlen Hin]. rewrite length_insert in Hlen, Hin.
    split; [done|]. intros i v [[= -> ->] | Hi]%elem_of_cons; eauto.
Qed.

Lemma fillEntries_app elemType maxLength (pre rest : ArrayEntries) :
  forall es : list value,
  fillEntries elemType maxLength (pre ++ rest) es =
    (es1 <-! fillEntries elemType maxLength pre es ;;
     fillEntries elemType maxLength rest es1).
Proof.
  induction pre as [|[k w] pre IH]; intros es; cbn [app fillEntries andThen];
    [done|].
  destruct (entryValue elemType maxLength k w) as [x| |]; try done.
  cbn [andThen]. destruct (store es k x) as [es1| |]; try done.
  cbn [andThen]. apply IH.
Qed.

Lemma fillEntries_acceptable elemType maxLength (pre : ArrayEntries) :
  forall es : list value,
  Forall (acceptable elemType) pre ->
  (forall k, k ∈ pre.*1 -> k < Z.of_nat (length es)) ->
  exists es', fillEntries elemType maxLength pre es = Ok es' /\
              length es' = length es.
Proof.
  induction pre as [|[k w] pre IH]; intros es Hacc Hlt; cbn [fillEntries].
  - by exists es.
  - apply Forall_cons in Hacc as [Hkw Hacc].
    rewrite (entryValue_acceptable _ _ (k, w) Hkw). cbn [andThen snd].
    destruct Hkw as (Hk & _). cbn [fst] in Hk.
    assert (k < Z.of_nat (length es)) by (apply Hlt; left).
    unfold store. replace (0 <=? k) with true by lia.
    replace (k <? Z.of_nat (length es)) with true by lia. cbn [andb andThen].
    destruct (IH (<[Z.to_nat k := w]> es) Hacc) as (es' & Hrun & Hlen).
    { intros k' Hk'. rewrite length_insert. apply Hlt. by right. }
    exists es'. split; [done|]. by rewrite Hlen, length_insert.
Qed.

(** The sizes [populateExpectedEntries] computes first: [maxLength] and
    [numEntries], when the highest index fits. *)
Lemma populate_sizes (a : tdArray) (m : ArrayEntries) (model : value)
    (k : (Z * Z) -> outcome tdArray) :
  indexesFit (expectedType (array_base a)) m ->
  exists maxLength numEntries,
    maxIndexOf m < numEntries /\
    (maxLength < 0 <-> kindOf (expectedType (array_base a)) <> reflect.Array) /\
    (IsValid model = true ->
     kindOf (expectedType (array_base a)) <> reflect.Array ->
     Len model <= numEntries) /\
    (forall n, lenOf (expectedType (array_base a)) = Some n ->
               numEntries = n /\ maxLength = n) /\
    andThen
      (if Kind_eqb (kindOf (expectedType (array_base a))) reflect.Array then
         match lenOf (expectedType (array_base a)) with
         | None => Panic "Len of non-array type"
         | Some maxLength =>
             if maxLength <=? maxIndexOf m then
               Fatal (Bad "array length is %d, so cannot have #%d expected index"
                          [AInt maxLength; AInt (maxIndexOf m)])
             else Ok (maxLength, maxLength)
         end
       else
         let numEntries := maxIndexOf m + 1 in
         Ok (-1,
             if IsValid model && (numEntries <? Len model)
             then Len model else numEntries)) k =
    k (maxLength, numEntries).
Proof.
  intros Hfit. set (t := expectedType (array_base a)) in *.
  pose proof (maxIndexOf_lower m) as Hlow.
  destruct (Kind_eqb (kindOf t) reflect.Array) eqn:Harr.
  - apply Kind_eqb_eq in Harr. destruct (Hfit Harr) as (L & HL & Hmax).
    exists L, L. rewrite HL. replace (L <=? maxIndexOf m) with false by lia.
    repeat split; try done; try lia; try congruence.
  - assert (kindOf t <> reflect.Array) as Hk
      by (intros Hk; rewrite Hk in Harr; done).
    eexists (-1), _. split; [|split; [|split; [|split; [|reflexivity]]]].
    + destruct (_ && _) eqn:E; [|lia]. apply andb_true_iff in E as [_ E]. lia.
    + split; [done | lia].
    + intros -> _. cbn [andb]. destruct (_ <? _) eqn:E; lia.
    + intros n Hn. by apply lenOf_kind in Hn.
Qed.

(** The length of what [populateExpectedEntries] builds. *)
Lemma populate_length (a a' : tdArray) (m : ArrayEntries) (model : value) :
  populateExpectedEntries a m model = Ok a' ->
  Z.of_nat (length (expectedEntries a')) =
    expectedLength (expectedType (array_base a)) m model.
Proof.
  intros Hrun. unfold populateExpectedEntries in Hrun. unfold expectedLength.
  set (t := expectedType (array_base a)) in *.
  pose proof (maxIndexOf_lower m) as Hlow.
  assert (0 <= Len model) as HLen by (unfold Len; lia).
  destruct (Kind_eqb (kindOf t) reflect.Array) eqn:Harr.
  - destruct (lenOf t) as [L|] eqn:HL; [|done].
    pose proof (lenOf_nonneg _ _ HL).
    destruct (L <=? maxIndexOf m); [done|]. cbn [andThen fst snd] in Hrun.
    destruct (elemOf t); [|done]. cbn [andThen] in Hrun.
    destruct (fillEntries _ _ _ _) as [es1| |] eqn:H1; try done.
    cbn [andThen] in Hrun. apply fillEntries_length in H1 as [Hl1 _].
    rewrite length_replicate in Hl1.
    destruct (IsValid model).
    + destruct (fromModel _ _ _ _ _) as [es2| |] eqn:H2; try done.
      cbn [andThen] in Hrun. apply fromModel_Ok in H2 as [Hl2 _].
      replace (0 <=? L) with true in Hrun by lia.
      injection Hrun as <-. cbn. lia.
    + destruct (Kind_eqb (kindOf t) reflect.Slice); [injection Hrun as <-; cbn; lia|].
      replace (0 <=? L) with true in Hrun by lia.
      destruct (fillZero _ _ _ _ _) as [es3| |] eqn:H3; try done.
      cbn [andThen] in Hrun. injection Hrun as <-.
      apply fillZero_Ok in H3 as [Hl3 _]; [|lia]. cbn. lia.
  - assert (lenOf t = None) as ->.
    { destruct (lenOf t) eqn:HL; [|done]. apply lenOf_kind in HL.
      by rewrite HL in Harr. }
    cbn [andThen fst snd] in Hrun.
    destruct (elemOf t); [|done]. cbn [andThen] in Hrun.
    destruct (fillEntries _ _ _ _) as [es1| |] eqn:H1; try done.
    cbn [andThen] in Hrun. apply fillEntries_length in H1 as [Hl1 _].
    rewrite length_replicate in Hl1.
    destruct (IsValid model) eqn:Hv; cbn [andb] in *.
    + destruct (fromModel _ _ _ _ _) as [es2| |] eqn:H2; try done.
      cbn [andThen] in Hrun. apply fromModel_Ok in H2 as [Hl2 _].
      replace (0 <=? -1) with false in Hrun by done.
      destruct (fillZero _ _ _ _ _) as [es3| |] eqn:H3; try done.
      cbn [andThen] in Hrun. injection Hrun as <-.
      apply fillZero_Ok in H3 as [Hl3 _]; [|done]. cbn.
      destruct (maxIndexOf m + 1 <? Len model) eqn:E; lia.
    + assert (Len model = 0) as -> by (by destruct model).
      destruct (Kind_eqb (kindOf t) reflect.Slice);
        [injection Hrun as <-; cbn; lia|].
      by replace (0 <=? -1) with false in Hrun by done.
Qed.

(** X1: the length of an operator.  An operator built by [Array] expects as
    many items as its array type holds; one built by [Slice] expects the
    highest index given plus one, or the length of the model when the model
    is longer. *)
Theorem operator_length kind ctor (model : value) (m : ArrayEntries) (a : tdArray) :
  constructorOf kind ctor ->
  ctor model m = Ok a ->
  exists t p vmodel,
    modelOf kind model t p vmodel /\
    expectedType (array_base a) = t /\
    Z.of_nat (length (expectedEntries a)) = expectedLength t m vmodel.
Proof.
  intros Hc Hrun.
  destruct (constructor_Ok_inv _ _ _ _ _ Hc Hrun) as (fn & t & p & vm & Hm & Hp).
  exists t, p, vm. split; [done|].
  pose proof (populate_length _ _ _ _ Hp) as Hlen.
  cbn [array_base expectedType] in Hlen. split; [|done].
  unfold populateExpectedEntries in Hp.
  repeat match type of Hp with
         | andThen ?o _ = Ok _ => destruct o; try done; cbn [andThen] in Hp
         | (if ?b then _ else _) = Ok _ => destruct b
         end; try done; by injection Hp as <-.
Qed.

End ArrayMore.

Section ArrayErrors.
Context `{Externals}.

Lemma fromModel_zero (m : ArrayEntries) (model zero : value) :
  forall (n : nat) (es es' : list value),
  fromModel m model zero n es = Ok es' ->
  forall j : nat, (j < n)%nat -> hasEntry m (Z.of_nat j) = true ->
  DeepEqual zero (Index model (Z.of_nat j)) = true.
Proof.
  induction n as [|n IH]; intros es es' Hrun j Hj Hhas; [lia|].
  cbn [fromModel] in Hrun.
  destruct (hasEntry m (Z.of_nat n)) eqn:Hn.
  - destruct (DeepEqual zero (Index model (Z.of_nat n))) eqn:Hd; [|done].
    cbn [negb] in Hrun. destruct (decide (j = n)) as [->|]; [done|].
    eapply IH; [done | lia | done].
  - destruct (store es (Z.of_nat n) _) as [es1| |]; try done.
    cbn [andThen] in Hrun. destruct (decide (j = n)) as [->|]; [congruence|].
    eapply IH; [done | lia | done].
Qed.

Lemma fromModel_conflict (m : ArrayEntries) (model zero : value) (i : nat) :
  hasEntry m (Z.of_nat i) = true ->
  DeepEqual zero (Index model (Z.of_nat i)) = false ->
  forall (n : nat) (es : list value),
  (i < n <= length es)%nat ->
  (forall j : nat, (i < j < n)%nat -> hasEntry m (Z.of_nat j) = true ->
                   DeepEqual zero (Index model (Z.of_nat j)) = true) ->
  fromModel m model zero n es =
    Fatal (Bad "non zero #%d entry in model already exists in expectedEntries"
               [AInt (Z.of_nat i)]).
Proof.
  intros Hhas Hd. induction n as [|n IH]; intros es Hn Hhigh; [lia|].
  cbn [fromModel]. destruct (decide (i = n)) as [<-|Hne].
  - by rewrite Hhas, Hd.
  - destruct (hasEntry m (Z.of_nat n)) eqn:Hm.
    + rewrite (Hhigh n) by (done || lia). cbn [negb].
      apply IH; [lia|]. intros j Hj. apply Hhigh. lia.
    + unfold store. replace (0 <=? Z.of_nat n) with true by lia.
      replace (Z.of_nat n <? Z.of_nat (length es)) with true by lia.
      cbn [andb andThen]. apply IH; [rewrite length_insert; lia|].
      intros j Hj. apply Hhigh. lia.
Qed.

(** [populateExpectedEntries] as the loop over the entries followed by the
    rest, once the sizes are known. *)
Lemma populate_entries_first (a : tdArray) (m : ArrayEntries) (model : value)
    (elemType : rtype) :
  let t := expectedType (array_base a) in
  elemOf t = Some elemType ->
  indexesFit t m ->
  exists (maxLength numEntries : Z) (rest : list value -> outcome tdArray),
    maxIndexOf m < numEntries /\
    (maxLength <? 0) = negb (Kind_eqb (kindOf t) reflect.Array) /\
    (IsValid model = true -> modelFits t model -> Len model <= numEntries) /\
    populateExpectedEntries a m model =
      (es1 <-! fillEntries elemType maxLength m
                 (replicate (Z.to_nat numEntries) VInvalid) ;;
       rest es1) /\
    (IsValid model = true ->
     forall es1 u,
       fromModel m model (Zero elemType) (Z.to_nat (Len model)) es1 = Fatal u ->
       rest es1 = Fatal u).
Proof.
  intros t He Hfit. unfold populateExpectedEntries. fold t.
  pose proof (maxIndexOf_lower m) as Hlow.
  destruct (Kind_eqb (kindOf t) reflect.Array) eqn:Harr.
  - apply Kind_eqb_eq in Harr. destruct (Hfit Harr) as (L & HL & Hmax).
    rewrite HL. replace (L <=? maxIndexOf m) with false by lia.
    cbn [andThen fst snd]. rewrite He. cbn [andThen].
    eexists L, L, _. split; [done|]. split; [cbn; lia|].
    split; [intros Hv Hmf; rewrite (Hmf Hv _ HL); lia|].
    split; [reflexivity|]. cbv beta. intros -> es1 u ->. done.
  - cbn [andThen fst snd]. rewrite He. cbn [andThen].
    eexists (-1), (if IsValid model && (maxIndexOf m + 1 <? Len model)
                   then Len model else maxIndexOf m + 1), _.
    split; [|split; [done|]].
    { destruct (_ && _) eqn:E; [|lia]. apply andb_true_iff in E as [_ E]. lia. }
    split.
    { intros -> _. cbn [andb]. destruct (_ <? _) eqn:E; lia. }
    split; [reflexivity|]. cbv beta. intros -> es1 u ->. done.
Qed.

Lemma populate_conflict (a a' : tdArray) (m : ArrayEntries) (model : value)
    (elemType : rtype) (i : Z) :
  elemOf (expectedType (array_base a)) = Some elemType ->
  IsValid model = true ->
  0 <= i < Len model ->
  hasEntry m i = true ->
  DeepEqual (Zero elemType) (Index model i) = false ->
  populateExpectedEntries a m model <> Ok a'.
Proof.
  intros He Hv Hi Hhas Hd Hrun. unfold populateExpectedEntries in Hrun.
  set (t := expectedType (array_base a)) in *.
  rewrite He, Hv in Hrun.
  destruct (if Kind_eqb (kindOf t) reflect.Array then _ else _)
    as [[maxLength numEntries]| |]; try done.
  cbn [andThen fst snd] in Hrun.
  destruct (fillEntries _ _ _ _) as [es1| |]; try done. cbn [andThen] in Hrun.
  destruct (fromModel _ _ _ _ _) as [es2| |] eqn:H2; try done.
  pose proof (fromModel_zero _ _ _ _ _ _ H2 (Z.to_nat i)) as Hz.
  rewrite Z2Nat.id in Hz by lia. rewrite Hz in Hd; [done | lia | done].
Qed.

End ArrayErrors.

Section ArrayConstructorErrors.
Context `{Externals}.

(** The run up to the first entry that is not known to be acceptable. *)
Lemma populate_first_entry (a : tdArray) (pre post : ArrayEntries)
    (model : value) (elemType : rtype) (i : Z) (v : value) :
  let m := pre ++ (i, v) :: post in
  let t := expectedType (array_base a) in
  elemOf t = Some elemType ->
  indexesFit t m ->
  Forall (acceptable elemType) pre ->
  exists (maxLength : Z) (es : list value) (rest : list value -> outcome tdArray),
    (maxLength <? 0) = negb (Kind_eqb (kindOf t) reflect.Array) /\
    i < Z.of_nat (length es) /\
    populateExpectedEntries a m model =
      (x <-! entryValue elemType maxLength i v ;;
       es' <-! store es i x ;;
       rest es').
Proof.
  intros m t He Hfit Hacc.
  destruct (populate_entries_first a m model elemType He Hfit)
    as (maxLength & numEntries & rest & Hmax & Hneg & _ & -> & _).
  pose proof (maxIndexOf_lower m) as Hlow.
  unfold m at 1. rewrite fillEntries_app.
  assert (forall k, k ∈ m.*1 -> k < numEntries) as Hlt.
  { intros k Hk. apply maxIndexOf_upper in Hk. lia. }
  destruct (fillEntries_acceptable elemType maxLength pre
              (replicate (Z.to_nat numEntries) VInvalid) Hacc)
    as (es & -> & Hlen).
  { intros k Hk. rewrite length_replicate, Z2Nat.id by lia.
    apply Hlt. unfold m. rewrite fmap_app. apply elem_of_app. by left. }
  rewrite length_replicate in Hlen.
  exists maxLength, es,
    (fun es' => es1 <-! fillEntries elemType maxLength post es' ;; rest es1).
  split; [done|]. split.
  { rewrite Hlen, Z2Nat.id by lia. apply Hlt. unfold m. rewrite fmap_app.
    apply elem_of_app. right. left. }
  cbn [andThen fillEntries].
  destruct (entryValue elemType maxLength i v); try done. cbn [andThen].
  by destruct (store es i _).
Qed.

Lemma fitsItems_entryValue elemType maxLength (i : Z) (v : value) :
  fitsItems elemType v -> entryValue elemType maxLength i v = Ok v.
Proof.
  intros (Hv & Hor). unfold entryValue. rewrite Hv. cbn [negb].
  destruct Hor as [-> | (t & -> & ->)]; [done|].
  by rewrite andb_false_r.
Qed.

(** The errors [populateExpectedEntries] returns are formatted messages,
    never usage errors. *)
Lemma populate_Fatal (a : tdArray) (m : ArrayEntries) (model : value) (u : usage) :
  populateExpectedEntries a m model = Fatal u ->
  exists format args, u = Bad format args.
Proof.
  assert (forall es i x u, store es i x <> Fatal u) as Hstore.
  { intros es i x u'. unfold store. by destruct (_ && _). }
  assert (forall elemType maxLength m es u',
             fillEntries elemType maxLength m es = Fatal u' ->
             exists format args, u' = Bad format args) as Hfill.
  { intros elemType maxLength m'. induction m' as [|[k w] m' IH];
      intros es u'; cbn [fillEntries]; [done|].
    destruct (entryValue elemType maxLength k w) as [x|u''|] eqn:Hev;
      cbn [andThen]; try done.
    - destruct (store es k x) as [es1|u''|] eqn:Hs; cbn [andThen]; try done.
      + apply IH.
      + by apply Hstore in Hs.
    - intros [= <-]. unfold entryValue in Hev.
      repeat match type of Hev with
             | (if ?b then _ else _) = _ => destruct b
             end; try done; injection Hev as <-; eauto. }
  assert (forall zero n es u',
             fromModel m model zero n es = Fatal u' ->
             exists format args, u' = Bad format args) as Hfrom.
  { intros zero n. induction n as [|n IH]; intros es u'; cbn [fromModel];
      [done|].
    destruct (hasEntry m (Z.of_nat n)).
    - destruct (negb _); [intros [= <-]; eauto | apply IH].
    - destruct (store es _ _) as [es1|u''|] eqn:Hs; cbn [andThen]; try done.
      + apply IH.
      + by apply Hstore in Hs. }
  assert (forall vzero count index es u',
             fillZero m vzero count index es <> Fatal u') as Hzero.
  { intros vzero count. induction count as [|n IH]; intros index es u';
      cbn [fillZero]; [done|].
    destruct (hasEntry m index); cbn [andThen]; [apply IH|].
    destruct (store es _ _) as [es1|u''|] eqn:Hs; cbn [andThen];
      [apply IH | by apply Hstore in Hs | done]. }
  unfold populateExpectedEntries.
  set (t := expectedType (array_base a)).
  destruct (if Kind_eqb (kindOf t) reflect.Array then _ else _)
    as [[maxLength numEntries]|u'|] eqn:Hsz; cbn [andThen fst snd]; try done.
  - destruct (elemOf t) as [elemType|]; cbn [andThen]; [|done].
    destruct (fillEntries _ _ _ _) as [es1|u'|] eqn:H1; cbn [andThen];
      try done; [|intros [= <-]; eauto].
    destruct (IsValid model).
    + destruct (fromModel _ _ _ _ _) as [es2|u'|] eqn:H2; cbn [andThen];
        try done; [|intros [= <-]; eauto].
      destruct (0 <=? maxLength); [done|].
      destruct (fillZero _ _ _ _ _) as [es3|u'|] eqn:H3; cbn [andThen];
        try done. by apply Hzero in H3.
    + destruct (Kind_eqb (kindOf t) reflect.Slice); [done|].
      destruct (0 <=? maxLength); [|done].
      destruct (fillZero _ _ _ _ _) as [es3|u'|] eqn:H3; cbn [andThen];
        try done. by apply Hzero in H3.
  - intros [= <-].
    destruct (Kind_eqb (kindOf t) reflect.Array); [|done].
    destruct (lenOf t); [|done]. destruct (_ <=? _); [|done].
    injection Hsz as <-. eauto.
Qed.




(** X5: usage errors.  A constructor answers with its usage error exactly
    when the model is not of the kind it asks for: it does so whatever the
    entries are, and no fault of the entries is reported that way. *)
Theorem usage_error_iff_wrong_model kind ctor (model : value) (m : ArrayEntries) :
  constructorOf kind ctor ->
  (wrongModel kind model ->
   ctor model m = Fatal (BadUsage (usageOf kind) model 1 true)) /\
  (forall usg v pos knd,
     ctor model m = Fatal (BadUsage usg v pos knd) -> wrongModel kind model).
Proof.
  intros Hc.
  assert (exists fn, ctor model m =
            (a <-! newArray fn kind model m ;;
             match a with
             | Some a => Ok a
             | None => Fatal (BadUsage (usageOf kind) model 1 true)
             end)) as [fn ->] by (destruct Hc; eexists; reflexivity).
  assert (kind <> Ptr) as Hkind by (by destruct Hc).
  split.
  - intros Hw. unfold newArray.
    destruct Hw as [model Ht | model t Ht Hp Hk | model tp te Ht Hp He Hk];
      rewrite Ht; [done| |].
    + rewrite (Kind_eqb_neq _ _ Hp), (Kind_eqb_neq _ _ Hk). done.
    + rewrite Hp, He. cbn [Kind_eqb]. by rewrite (Kind_eqb_neq _ _ Hk).
  - intros usg v pos knd. unfold newArray.
    destruct (typeOf model) as [tmodel|] eqn:Ht;
      [|intros _; by apply wrongModel_nil].
    destruct (Kind_eqb (kindOf tmodel) Ptr) eqn:Hp.
    + apply Kind_eqb_eq in Hp.
      destruct (elemOf tmodel) as [te|] eqn:He; [|done].
      destruct (Kind_eqb (kindOf te) kind) eqn:Hk; cbn [negb].
      * intros Hrun. exfalso.
        repeat match type of Hrun with
               | andThen (match ?x with _ => _ end) _ = _ => destruct x; try done
               end;
        cbn [andThen] in Hrun;
        match type of Hrun with
        | andThen (andThen ?o _) _ = _ =>
            destruct o eqn:Hpop; cbn [andThen] in Hrun; try done;
            injection Hrun as ->; apply populate_Fatal in Hpop as (? & ? & ?);
            done
        end.
      * intros _. eapply wrongModel_pointer; eauto.
        intros Hk'. rewrite Hk' in Hk. by rewrite Kind_eqb_refl in Hk.
    + assert (kindOf tmodel <> Ptr) as Hp'.
      { intros Hp'. rewrite Hp' in Hp. by rewrite Kind_eqb_refl in Hp. }
      destruct (Kind_eqb (kindOf tmodel) kind) eqn:Hk.
      * intros Hrun. exfalso.
        destruct (populateExpectedEntries _ _ _) eqn:Hpop;
          cbn [andThen] in Hrun; try done.
        injection Hrun as ->. by apply populate_Fatal in Hpop as (? & ? & ?).
      * intros _. eapply wrongModel_kind; eauto.
        intros Hk'. rewrite Hk' in Hk. by rewrite Kind_eqb_refl in Hk.
Qed.

End ArrayConstructorErrors.

Section ArrayConstructorExamples.
#[local] Existing Instance Ref.externals.

Ltac accept_ints :=
  repeat (apply Forall_cons; split;
          [split; [cbn; lia | split; [reflexivity | right; by exists tInt]]|]);
  by apply Forall_nil.

(** X1 on the slice [[]int{1, 2}] with an entry at index 4: five items are
    expected. *)
Lemma operator_length_witness :
  exists t p vmodel,
    modelOf reflect.Slice (ints (TSlice tInt) [1; 2]) t p vmodel /\
    TSlice tInt = t /\
    5 = expectedLength t [(4, VNum tInt 5)] vmodel.
Proof.
  refine (operator_length reflect.Slice Slice (ints (TSlice tInt) [1; 2])
            [(4, VNum tInt 5)]
            (mkArray (mkExpectedType "Slice" (TSlice tInt) false)
               (VNum tInt <$> [1; 2; 0; 0; 5])) _ _).
  - constructor.
  - reflexivity.
Defined.




(** X5 on [Array] given a slice as its model. *)
Lemma usage_error_iff_wrong_model_witness :
  Array (ints (TSlice tInt) [0; 7; 9]) [(7, VStr tString "x")] =
    Fatal (BadUsage "Array(ARRAY|&ARRAY, EXPECTED_ENTRIES)"
             (ints (TSlice tInt) [0; 7; 9]) 1 true).
Proof.
  pose proof (usage_error_iff_wrong_model reflect.Array Array
                (ints (TSlice tInt) [0; 7; 9]) [(7, VStr tString "x")]) as Hx.
  destruct Hx as [Hwrong _].
  - constructor.
  - apply Hwrong. by apply (wrongModel_kind _ _ (TSlice tInt)).
Defined.

End ArrayConstructorExamples.

(** * Further properties of [tdArray.Match] *)

Section ArrayMatchMore.
Context `{ExternalsOK}.

Lemma setBooleanError_same (ctx : Context) :
  setBooleanError ctx (BooleanError ctx) = ctx.
Proof. by destruct ctx. Qed.

(** Whether a comparison fails does not depend on the sink it writes to. *)
Lemma accepts_any_sink ctx (got expected : value) (s : Sink) :
  accepts ctx got expected <->
  failed s (deepValueEqual ctx got expected s) = false.
Proof.
  unfold accepts.
  pose proof (dispatch_flag ctx got expected (BooleanError ctx)
                (BooleanError ctx) [] s) as Hflag.
  rewrite setBooleanError_same in Hflag. by rewrite Hflag.
Qed.

Lemma matchEntries_accepts ctx got gotLen (es : list value) :
  forall index a (s : Sink),
  loopFailed (length s) (matchEntries ctx got gotLen index es a s) = false <->
  forall (j : nat) v, es !! j = Some v ->
    index + Z.of_nat j < gotLen /\
    accepts (AddArrayIndex ctx (index + Z.of_nat j))
            (Index got (index + Z.of_nat j)) v.
Proof.
  induction es as [|e es IH]; intros index a s; cbn [matchEntries].
  - unfold loopFailed, ret. cbn [fst snd]. rewrite Nat.ltb_irrefl.
    split; [|done]. by intros _ j v ?.
  - destruct (gotLen <=? index) eqn:Hlen.
    + split.
      * intros Hq. exfalso. revert Hq.
        destruct (BooleanError ctx); [done|].
        unfold bind, onSink, ret, loopFailed.
        match goal with |- context [CollectError ?c ?e ?s] =>
          pose proof (collect_fails c e s) as Hf;
          destruct (CollectError c e s) as [[?|] ?] end; [done|].
        cbn in *. congruence.
      * intros Hall. destruct (Hall 0%nat e eq_refl) as [Hlt _]. lia.
    + unfold bind, onSink.
      pose proof (accepts_any_sink (AddArrayIndex ctx index) (Index got index) e s)
        as Hacc.
      pose proof (dispatch_grows (AddArrayIndex ctx index) (Index got index) e s)
        as Hg.
      destruct (deepValueEqual _ _ _ _) as [err s1]. unfold failed in Hacc.
      cbn [fst snd] in *.
      assert (forall P : nat -> value -> Prop,
                (forall (j : nat) v, (e :: es) !! j = Some v -> P j v) <->
                P 0%nat e /\ forall (j : nat) v, es !! j = Some v -> P (S j) v)
        as Hsplit.
      { intros P. split.
        - intros Hall. split; [by apply Hall|]. intros j v Hj. by apply Hall.
        - intros [H0 Hs] [|j] v Hj; [by injection Hj as <-|by apply Hs]. }
      rewrite Hsplit. rewrite Z.add_0_r.
      destruct err as [err|].
      * split; [done|]. intros [[_ Ha] _]. by apply Hacc in Ha.
      * cbn [isErr orb] in Hacc.
        destruct (decide (length s < length s1)%nat) as [Hlt|Hge].
        -- rewrite loopFailed_grown by done. split; [done|].
           intros [[_ Ha] _]. apply Hacc in Ha. apply Nat.ltb_ge in Ha. lia.
        -- replace (length s) with (length s1) by lia.
           rewrite IH. split.
           ++ intros Hall. split.
              ** split; [lia|]. apply Hacc. apply Nat.ltb_ge. lia.
              ** intros j v Hj. destruct (Hall j v Hj) as [? ?].
                 replace (index + Z.of_nat (S j)) with (index + 1 + Z.of_nat j)
                   by lia. done.
           ++ intros [_ Hall] j v Hj. destruct (Hall j v Hj) as [? ?].
              replace (index + 1 + Z.of_nat j) with (index + Z.of_nat (S j))
                by lia. done.
Qed.

(** X6: what matches.  Once the pointer and type checks pass, a got value
    matches the operator exactly when it has as many items as the operator
    expects and each item matches the expected value at its index, compared
    under the path of that index. *)
Theorem Match_succeeds_iff ctx (got : value) (a : tdArray) (s : Sink) :
  let cp := checkPtr (array_base a) ctx got true in
  failed s (run (tdArray_Match ctx got) a s) = false <->
  isErr cp.1 = false /\
  isErr (checkType (array_base a) ctx cp.2) = false /\
  Len cp.2 = Z.of_nat (length (expectedEntries a)) /\
  forall (j : nat) v, expectedEntries a !! j = Some v ->
    accepts (AddArrayIndex ctx (Z.of_nat j)) (Index cp.2 (Z.of_nat j)) v.
Proof.
  intros cp. rewrite tdArray_Match_failed. fold cp.
  set (loop := matchEntries ctx cp.2 (Len cp.2) 0 (expectedEntries a) a s).
  pose proof (matchEntries_accepts ctx cp.2 (Len cp.2) (expectedEntries a) 0 a s)
    as Hloop. fold loop in Hloop.
  pose proof (matchEntries_quiet ctx cp.2 (Len cp.2) (expectedEntries a) 0 a s)
    as Hquiet. fold loop in Hquiet.
  assert (0 <= Len cp.2) as Hlen by (unfold Len; lia).
  rewrite !orb_false_iff. split.
  - intros [[[Hp Ht] Hl] He]. split; [done|]. split; [done|].
    destruct (Hquiet Hl) as [Hnone _].
    unfold loopEnded in He. rewrite Hnone in He. cbn [andb] in He.
    apply Z.ltb_ge in He. pose proof (proj1 Hloop Hl) as Hall. split.
    + destruct (expectedEntries a) as [|e es] eqn:Hes using rev_ind.
      { cbn in *. lia. }
      destruct (Hall (length es) e) as [Hlt _].
      { by rewrite lookup_app_r, Nat.sub_diag. }
      rewrite length_app in *. cbn [length] in *. lia.
    + intros j v Hj. by destruct (Hall j v Hj) as [_ Ha].
  - intros (Hp & Ht & Hl & Hall).
    assert (loopFailed (length s) loop = false) as Hq.
    { apply Hloop. intros j v Hj. split; [|by apply Hall].
      apply lookup_lt_Some in Hj. lia. }
    repeat split; try done.
    destruct (Hquiet Hq) as [Hnone _].
    unfold loopEnded. rewrite Hnone. cbn [andb]. apply Z.ltb_ge. lia.
Qed.

End ArrayMatchMore.

Section ArrayMatchLengths.
Context `{Externals}.

Lemma matchEntries_silent ctx got gotLen (pre rest : list value) (a : tdArray)
    (s : Sink) :
  forall index,
  (forall (j : nat) v, pre !! j = Some v ->
     index + Z.of_nat j < gotLen /\
     silent (AddArrayIndex ctx (index + Z.of_nat j))
            (Index got (index + Z.of_nat j)) v s) ->
  matchEntries ctx got gotLen index (pre ++ rest) a s =
  matchEntries ctx got gotLen (index + Z.of_nat (length pre)) rest a s.
Proof.
  induction pre as [|e pre IH]; intros index Hall; cbn [app length].
  - by rewrite Z.add_0_r.
  - cbn [matchEntries]. destruct (Hall 0%nat e eq_refl) as [Hlt Hs].
    rewrite Z.add_0_r in Hlt, Hs.
    replace (gotLen <=? index) with false by lia.
    unfold bind at 1, onSink at 1. rewrite Hs. rewrite IH.
    + f_equal. lia.
    + intros j v Hj. destruct (Hall (S j) v Hj) as [? ?].
      by replace (index + 1 + Z.of_nat j) with (index + Z.of_nat (S j)) by lia.
Qed.

(** X7: a got value of another length.  When got passes the pointer and type
    checks and its items match as far as both go, without a report, a
    difference in length is reported at the first index that one side
    lacks: the expected value there when got is shorter, the got value
    there when got is longer. *)
Theorem length_mismatch_is_located ctx (got got' : value) (a : tdArray)
    (s : Sink) :
  checkPtr (array_base a) ctx got true = (None, got') ->
  checkType (array_base a) ctx got' = None ->
  Len got' <> Z.of_nat (length (expectedEntries a)) ->
  (forall (j : nat) v,
     expectedEntries a !! j = Some v -> Z.of_nat j < Len got' ->
     silent (AddArrayIndex ctx (Z.of_nat j)) (Index got' (Z.of_nat j)) v s) ->
  run (tdArray_Match ctx got) a s =
    if BooleanError ctx then (Some ctxerr_BooleanError, s)
    else CollectError
           (AddArrayIndex ctx
              (Z.min (Len got') (Z.of_nat (length (expectedEntries a)))))
           (Detailed (lengthMismatch got' (expectedEntries a))) s.
Proof.
  intros Hp Ht Hne Hall. unfold run, tdArray_Match, bind at 1, self.
  rewrite Hp, Ht. unfold lengthMismatch.
  set (es := expectedEntries a) in *. set (n := Z.of_nat (length es)) in *.
  assert (0 <= Len got') as Hlen by (unfold Len; lia).
  destruct (Len got' <? n) eqn:Hshort.
  - apply Z.ltb_lt in Hshort. rewrite Z.min_l by lia.
    set (k := Z.to_nat (Len got')).
    assert (k < length es)%nat as Hk by lia.
    destruct (lookup_lt_is_Some_2 es k Hk) as [e He]. rewrite He. cbn [default].
    rewrite <- (take_drop_middle es k e He).
    unfold bind. rewrite matchEntries_silent.
    + rewrite length_take, Nat.min_l by lia. cbn [matchEntries].
      replace (Len got' <=? 0 + Z.of_nat k) with true by lia.
      replace (0 + Z.of_nat k) with (Len got') by lia.
      destruct (BooleanError ctx); [done|].
      unfold bind, onSink, ret. by destruct (CollectError _ _ _).
    + intros j v Hj. apply lookup_take_Some in Hj as [Hj Hjk].
      split; [lia|]. rewrite Z.add_0_l. apply Hall; [done | lia].
  - apply Z.ltb_ge in Hshort. rewrite Z.min_r by lia.
    rewrite <- (app_nil_r es) at 1.
    unfold bind. rewrite matchEntries_silent.
    + cbn [matchEntries ret]. fold n. replace (n <? Len got') with true by lia.
      destruct (BooleanError ctx); [done|].
      unfold onSink. by destruct (CollectError _ _ _).
    + intros j v Hj. pose proof (lookup_lt_Some _ _ _ Hj).
      split; [lia|]. rewrite Z.add_0_l. apply Hall; [done | lia].
Qed.

End ArrayMatchLengths.

Section ArrayMatchExamples.
#[local] Existing Instance Ref.externals.

(** X6 with the reference collaborators: the slice [[]int{1, 2}] matches
    an operator that expects 1 and 2. *)
Lemma Match_succeeds_iff_witness :
  failed [] (run (tdArray_Match dataCtx (ints (TSlice tInt) [1; 2]))
               (mkArray (mkExpectedType "Slice" (TSlice tInt) false)
                  (VNum tInt <$> [1; 2])) []) = false.
Proof.
  apply (Match_succeeds_iff (H := Ref_externals_ok) dataCtx
           (ints (TSlice tInt) [1; 2])
           (mkArray (mkExpectedType "Slice" (TSlice tInt) false)
              (VNum tInt <$> [1; 2])) []).
  split; [reflexivity|]. split; [reflexivity|]. split; [reflexivity|].
  intros [|[|j]] v Hj; try (injection Hj as <-; reflexivity). discriminate Hj.
Defined.

(** X7 on the slice [[]int{1, 2, 3}] and an operator that expects 1 and
    2: the third item is reported, at the index 2. *)
Lemma length_mismatch_is_located_witness :
  run (tdArray_Match dataCtx (ints (TSlice tInt) [1; 2; 3]))
      (mkArray (mkExpectedType "Slice" (TSlice tInt) false)
         (VNum tInt <$> [1; 2])) [] =
  CollectError (AddArrayIndex dataCtx 2)
    (Detailed (mkError "got value out of range" (OfValue (VNum tInt 3))
                 (RawString "<non-existent value>") None None)) [].
Proof.
  refine (length_mismatch_is_located dataCtx (ints (TSlice tInt) [1; 2; 3])
            (ints (TSlice tInt) [1; 2; 3])
            (mkArray (mkExpectedType "Slice" (TSlice tInt) false)
               (VNum tInt <$> [1; 2])) [] _ _ _ _).
  - reflexivity.
  - reflexivity.
  - by vm_compute.
  - intros [|[|j]] v Hj _; try (injection Hj as <-; reflexivity).
    discriminate Hj.
Defined.

End ArrayMatchExamples.

(** * Properties of package tdhttp *)

Section HttpHeaders.
Import tdhttp.
Context `{Externals} `{Net}.

Lemma appendValues_lookup (h : http_Header) (k : string) (v : list string)
    (key : string) :
  appendValues h k v !! key =
    if decide (k = key) then Some (default [] (h !! key) ++ v) else h !! key.
Proof.
  unfold appendValues. destruct (decide (k = key)) as [->|Hne].
  - by rewrite lookup_insert_eq.
  - by rewrite lookup_insert_ne.
Qed.

Lemma mergeIn_lookup (order : list (string * list string)) :
  forall (h : http_Header) (key : string),
  NoDup order.*1 ->
  mergeIn order h !! key =
    match (list_to_map order : http_Header) !! key with
    | Some v => Some (default [] (h !! key) ++ v)
    | None => h !! key
    end.
Proof.
  induction order as [|[k v] order IH]; intros h key Hnd; [done|].
  apply NoDup_cons in Hnd as [Hk Hnd]. cbn [mergeIn foldl fst snd].
  fold (mergeIn order (appendValues h k v)). rewrite IH by done.
  rewrite appendValues_lookup, list_to_map_cons.
  destruct (decide (k = key)) as [->|Hne].
  - rewrite lookup_insert_eq.
    by rewrite (not_elem_of_list_to_map_1 (M := gmap string) order key Hk).
  - by rewrite lookup_insert_ne.
Qed.

(** X8: merging an [http.Header].  In whatever order [range] visits the
    entries of the header given, each of its keys gets the values given
    appended to those the request already has, under the key as written,
    and no other key changes. *)
Theorem header_merge_by_key (cur : http_Header)
    (order : list (string * list string)) (h : http_Header) (key : string) :
  order ≡ₚ map_to_list cur ->
  mergeIn order h !! key =
    match cur !! key with
    | Some v => Some (default [] (h !! key) ++ v)
    | None => h !! key
    end.
Proof.
  intros Hperm. rewrite mergeIn_lookup.
  - assert ((list_to_map order : http_Header) = cur) as ->; [|done].
    rewrite <- (list_to_map_to_list cur).
    apply list_to_map_proper; [|done].
    rewrite Hperm. apply NoDup_fst_map_to_list.
  - rewrite Hperm. apply NoDup_fst_map_to_list.
Qed.

Lemma Add_lookup (h : http_Header) (k v key : string) :
  Add h k v !! key =
    if decide (CanonicalMIMEHeaderKey k = key)
    then Some (default [] (h !! key) ++ [v]) else h !! key.
Proof. unfold Add. apply appendValues_lookup. Qed.

Lemma addHeadersFrom_pairs (pairs : list (string * string)) :
  forall (h : http_Header) (i : Z),
  addHeadersFrom h i (pairsOf pairs) =
    Ok (foldl (fun h kv => Add h kv.1 kv.2) h pairs).
Proof.
  induction pairs as [|[k v] pairs IH]; intros h i; [done|].
  cbn [pairsOf flat_map app addHeadersFrom foldl fst snd]. apply IH.
Qed.

Lemma addHeadersFrom_dangling (pairs : list (string * string)) (k : string) :
  forall (h : http_Header) (i : Z),
  addHeadersFrom h i (pairsOf pairs ++ [IString k]) =
    Ok (foldl (fun h kv => Add h kv.1 kv.2) h (pairs ++ [(k, "")])).
Proof.
  induction pairs as [|[k' v] pairs IH]; intros h i; [done|].
  cbn [pairsOf flat_map app addHeadersFrom foldl fst snd]. apply IH.
Qed.

Lemma foldl_Add_lookup (pairs : list (string * string)) (key : string) :
  forall h : http_Header,
  foldl (fun h kv => Add h kv.1 kv.2) h pairs !! key =
    extended h key (valuesFor key pairs).
Proof.
  induction pairs as [|[k v] pairs IH]; intros h; [done|].
  cbn [foldl fst snd]. rewrite IH. unfold valuesFor.
  rewrite filter_cons. cbn [fst]. unfold extended. rewrite Add_lookup.
  destruct (decide (CanonicalMIMEHeaderKey k = key)) as [Heq|Hne].
  - cbn [fmap list_fmap snd default].
    destruct ((filter _ pairs).*2) as [|w ws]; cbn [fmap list_fmap].
    + done.
    + unfold id. by rewrite <- app_assoc.
  - done.
Qed.

(** X9: headers given as strings.  When the flattened headers are keys each
    followed by its value, with possibly one last key left alone, the
    request is built, and each header holds the values it had followed by
    the values given for it, in the order given, where keys that agree up
    to their canonical form are one header; a last key left alone gets the
    empty value. *)
Theorem string_headers_accumulate (req : Request) (headers : list iface)
    (pairs : list (string * string)) (alone : option string) :
  Interfaces headers =
    pairsOf pairs ++ from_option (fun k => [IString k]) [] alone ->
  exists r,
    addHeaders req headers = Ok r /\
    Method r = Method req /\ Target r = Target req /\ Body r = Body req /\
    forall key,
      Header r !! key =
        extended (Header req) key
          (valuesFor key (pairs ++ from_option (fun k => [(k, "")]) [] alone)).
Proof.
  intros Hflat. unfold addHeaders. rewrite Hflat.
  destruct alone as [k|]; cbn [from_option].
  - rewrite addHeadersFrom_dangling. cbn [andThen]. eexists.
    split; [done|]. repeat split. intros key. cbn [withHeader Header].
    apply foldl_Add_lookup.
  - rewrite !app_nil_r, addHeadersFrom_pairs. cbn [andThen]. eexists.
    split; [done|]. repeat split. intros key. cbn [withHeader Header].
    apply foldl_Add_lookup.
Qed.

End HttpHeaders.

Section HttpCompose.
Import tdhttp.
Context `{Externals} `{Net}.

Lemma addHeadersFrom_complete (pre : list iface) :
  complete pre ->
  forall (h : http_Header) (i : Z) (rest : list iface),
  exists h1,
    addHeadersFrom h i pre = Ok h1 /\
    addHeadersFrom h i (pre ++ rest) =
      addHeadersFrom h1 (i + Z.of_nat (length pre)) rest.
Proof.
  induction 1 as [|k v l Hl IH|cur l Hl IH]; intros h i rest.
  - exists h. split; [done|]. cbn [app length]. f_equal. lia.
  - destruct (IH (Add h k v) (i + 2) rest) as (h1 & H1 & H2).
    exists h1. cbn [app addHeadersFrom]. split; [done|].
    rewrite H2. f_equal. cbn [length]. lia.
  - destruct (IH (mergeIn (map_to_list cur) h) (i + 1) rest) as (h1 & H1 & H2).
    exists h1. cbn [app addHeadersFrom]. split; [done|].
    rewrite H2. f_equal. cbn [length]. lia.
Qed.

(** Whether the loop succeeds, and with what, does not depend on the index
    it starts from. *)
Lemma addHeadersFrom_index (n : nat) :
  forall (l : list iface) (h h' : http_Header) (i j : Z),
  (length l <= n)%nat ->
  addHeadersFrom h i l = Ok h' -> addHeadersFrom h j l = Ok h'.
Proof.
  induction n as [|n IH]; intros l h h' i j Hn.
  - destruct l; [done | cbn in Hn; lia].
  - destruct l as [|[k|cur|t] rest]; cbn [addHeadersFrom]; try done.
    + destruct rest as [|[v|?|?] rest]; try done. cbn [length] in Hn.
      apply IH. lia.
    + cbn [length] in Hn. apply IH. lia.
Qed.

(** X10: one call or two.  When the first headers are complete, giving more
    headers in the same call builds the same request as adding them by a
    second call. *)
Theorem addHeaders_in_two_calls (req r : Request) (hs1 hs2 : list iface) :
  Interfaces (hs1 ++ hs2) = Interfaces hs1 ++ Interfaces hs2 ->
  complete (Interfaces hs1) ->
  addHeaders req (hs1 ++ hs2) = Ok r <->
  exists r1, addHeaders req hs1 = Ok r1 /\ addHeaders r1 hs2 = Ok r.
Proof.
  intros Hflat Hc. unfold addHeaders. rewrite Hflat.
  destruct (addHeadersFrom_complete _ Hc (Header req) 0 (Interfaces hs2))
    as (h1 & -> & ->).
  cbn [andThen]. split.
  - intros Hrun. eexists. split; [done|]. cbn [withHeader Header].
    destruct (addHeadersFrom h1 _ _) as [h2| |] eqn:H2; try done.
    rewrite (addHeadersFrom_index _ _ _ _ _ 0 (le_n _) H2).
    cbn [andThen] in *. by injection Hrun as <-.
  - intros (r1 & [= <-] & Hrun). cbn [withHeader Header] in Hrun.
    destruct (addHeadersFrom h1 0 _) as [h2| |] eqn:H2; try done.
    rewrite (addHeadersFrom_index _ _ _ _ _
               (0 + Z.of_nat (length (Interfaces hs1))) (le_n _) H2).
    cbn [andThen] in *. by injection Hrun as <-.
Qed.

(** X11: the item that is refused.  After complete headers, an item that is
    neither a string nor an [http.Header] is refused with its type and its
    index, and a string key followed by anything but a string is refused
    with the key, the type of what follows and the index of what follows. *)
Theorem first_bad_header (req : Request) (headers pre rest : list iface) :
  Interfaces headers = pre ++ rest ->
  complete pre ->
  (forall t post, rest = IOther t :: post ->
     addHeaders req headers =
       Fatal (Bad "headers... can only contains string and http.Header, not %T (@ headers[%d])"
                  [AType t; AInt (Z.of_nat (length pre))])) /\
  (forall k x post, rest = IString k :: x :: post ->
     (forall v, x <> IString v) ->
     addHeaders req headers =
       Fatal (Bad ("header " +:+ dq +:+ "%s" +:+ dq +:+
                   " should have a string value, not a %T (@ headers[%d])")
                  [AStr k; AType (typeOfItem x);
                   AInt (Z.of_nat (length pre) + 1)])).
Proof.
  intros Hflat Hc. unfold addHeaders. rewrite Hflat.
  destruct (addHeadersFrom_complete _ Hc (Header req) 0 rest) as (h1 & _ & ->).
  rewrite Z.add_0_l. split.
  - by intros t post ->.
  - intros k x post -> Hx. cbn [addHeadersFrom].
    destruct x as [v| |]; [by destruct (Hx v)|done|done].
Qed.

Lemma extends_refl (h : http_Header) : extends h h.
Proof. intros key old ->. exists []. by rewrite app_nil_r. Qed.

Lemma extends_trans (h1 h2 h3 : http_Header) :
  extends h1 h2 -> extends h2 h3 -> extends h1 h3.
Proof.
  intros H12 H23 key old H1. destruct (H12 _ _ H1) as [m1 H2].
  destruct (H23 _ _ H2) as [m2 H3]. exists (m1 ++ m2).
  by rewrite app_assoc.
Qed.

Lemma appendValues_extends (h : http_Header) (k : string) (v : list string) :
  extends h (appendValues h k v).
Proof.
  intros key old Hold. rewrite appendValues_lookup. rewrite Hold.
  destruct (decide (k = key)); [by exists v|].
  exists []. by rewrite app_nil_r.
Qed.

Lemma mergeIn_extends (order : list (string * list string)) :
  forall h : http_Header, extends h (mergeIn order h).
Proof.
  induction order as [|[k v] order IH]; intros h; [apply extends_refl|].
  cbn [mergeIn foldl fst snd]. fold (mergeIn order (appendValues h k v)).
  eapply extends_trans; [apply appendValues_extends | apply IH].
Qed.

Lemma addHeadersFrom_extends (n : nat) :
  forall (l : list iface) (h h' : http_Header) (i : Z),
  (length l <= n)%nat ->
  addHeadersFrom h i l = Ok h' -> extends h h'.
Proof.
  induction n as [|n IH]; intros l h h' i Hn.
  - destruct l; [|cbn in Hn; lia]. intros [= <-]. apply extends_refl.
  - destruct l as [|[k|cur|t] rest]; cbn [addHeadersFrom]; try done.
    + intros [= <-]. apply extends_refl.
    + destruct rest as [|[v|?|?] rest]; try done.
      * intros [= <-]. apply appendValues_extends.
      * cbn [length] in Hn. intros Hrun.
        eapply extends_trans; [apply appendValues_extends|].
        eapply IH; [|exact Hrun]. lia.
    + cbn [length] in Hn. intros Hrun.
      eapply extends_trans; [apply mergeIn_extends|].
      eapply IH; [|exact Hrun]. lia.
Qed.

(** X12: nothing is lost.  Whatever the headers given, a request that
    [addHeaders] returns has the method, the target and the body it had,
    and every header it had, with the values it had first and in their
    order. *)
Theorem addHeaders_only_appends (req r : Request) (headers : list iface) :
  addHeaders req headers = Ok r ->
  Method r = Method req /\ Target r = Target req /\ Body r = Body req /\
  extends (Header req) (Header r).
Proof.
  unfold addHeaders. intros Hrun.
  destruct (addHeadersFrom _ _ _) as [h| |] eqn:Hh; try done.
  injection Hrun as <-. repeat split. cbn [withHeader Header].
  by eapply addHeadersFrom_extends.
Qed.

End HttpCompose.

Section HttpTyped.
Import tdhttp.
Context `{Externals} `{Net}.

Lemma addHeaders_then_pair (req : Request) (hs : list iface) (k v : string) :
  Interfaces (hs ++ [IString k; IString v]) =
    Interfaces hs ++ [IString k; IString v] ->
  complete (Interfaces hs) ->
  exists r1,
    addHeaders req hs = Ok r1 /\
    addHeaders req (hs ++ [IString k; IString v]) =
      Ok (withHeader r1 (Add (Header r1) k v)).
Proof.
  intros Hflat Hc. unfold addHeaders. rewrite Hflat.
  destruct (addHeadersFrom_complete _ Hc (Header req) 0 [IString k; IString v])
    as (h1 & -> & ->).
  cbn [andThen addHeadersFrom]. eexists. split; [done|]. done.
Qed.

Lemma NewRequest_no_headers (method target : string)
    (body : option (list Byte.byte)) (req0 : Request) :
  Interfaces [] = [] ->
  httptest_NewRequest method target body = Ok req0 ->
  NewRequest method target body [] = Ok req0.
Proof.
  intros Hnil Hreq. unfold NewRequest, addHeaders. rewrite Hreq, Hnil.
  cbn [andThen addHeadersFrom]. by destruct req0.
Qed.

(** X13: the content type of a typed request.  When the headers given are
    complete, [NewJSONRequest], [NewXMLRequest] and [PostForm] build the
    request those headers give and then add their content type to the
    header [Content-Type]: it comes after the values the caller gave for
    that header, and replaces none of them. *)
Theorem content_type_comes_last (method target : string) (body : value)
    (data : gmap string (list string)) (hs : list iface) :
  Interfaces [] = [] ->
  (forall mime, Interfaces (hs ++ contentType mime) =
                Interfaces hs ++ contentType mime) ->
  complete (Interfaces hs) ->
  (forall b req0,
     json_Marshal body = inr b ->
     httptest_NewRequest method target (Some b) = Ok req0 ->
     exists r1,
       addHeaders req0 hs = Ok r1 /\
       NewJSONRequest method target body hs =
         Ok (withHeader r1 (Add (Header r1) "Content-Type" "application/json"))) /\
  (forall b req0,
     xml_Marshal body = inr b ->
     httptest_NewRequest method target (Some b) = Ok req0 ->
     exists r1,
       addHeaders req0 hs = Ok r1 /\
       NewXMLRequest method target body hs =
         Ok (withHeader r1 (Add (Header r1) "Content-Type" "application/xml"))) /\
  (forall req0,
     httptest_NewRequest MethodPost target
       (Some (String.list_byte_of_string (Values_Encode data))) = Ok req0 ->
     exists r1,
       addHeaders req0 hs = Ok r1 /\
       PostForm target data hs =
         Ok (withHeader r1 (Add (Header r1) "Content-Type"
                              "application/x-www-form-urlencoded"))).
Proof.
  intros Hnil Hflat Hc. split; [|split].
  - intros b req0 Hb Hreq.
    destruct (addHeaders_then_pair req0 hs _ _ (Hflat "application/json") Hc)
      as (r1 & H1 & H2).
    exists r1. split; [done|].
    unfold NewJSONRequest, newJSONRequest. rewrite Hb.
    rewrite (NewRequest_no_headers _ _ _ _ Hnil Hreq). cbn [andThen]. exact H2.
  - intros b req0 Hb Hreq.
    destruct (addHeaders_then_pair req0 hs _ _ (Hflat "application/xml") Hc)
      as (r1 & H1 & H2).
    exists r1. split; [done|].
    unfold NewXMLRequest, newXMLRequest. rewrite Hb.
    rewrite (NewRequest_no_headers _ _ _ _ Hnil Hreq). cbn [andThen]. exact H2.
  - intros req0 Hreq.
    destruct (addHeaders_then_pair req0 hs _ _
                (Hflat "application/x-www-form-urlencoded") Hc)
      as (r1 & H1 & H2).
    exists r1. split; [done|].
    unfold PostForm. rewrite Hreq. cbn [andThen]. exact H2.
Qed.

(** X14: a key left alone before the content type.  When the headers given
    to [NewJSONRequest] end with a key that has no value, the words
    [Content-Type] become the value of that key and [application/json] the
    name of a header with the empty value: the request is built, and its
    content type is not declared. *)
Theorem lone_key_takes_the_content_type (method target : string) (body : value)
    (hs : list iface) (pairs : list (string * string)) (k : string)
    (b : list Byte.byte) (req0 : Request) :
  Interfaces [] = [] ->
  Interfaces (hs ++ contentType "application/json") =
    Interfaces hs ++ contentType "application/json" ->
  Interfaces hs = pairsOf pairs ++ [IString k] ->
  json_Marshal body = inr b ->
  httptest_NewRequest method target (Some b) = Ok req0 ->
  exists r,
    NewJSONRequest method target body hs = Ok r /\
    forall key,
      Header r !! key =
        extended (Header req0) key
          (valuesFor key
             (pairs ++ [(k, "Content-Type"); ("application/json", "")])).
Proof.
  intros Hnil Hflat Hhs Hb Hreq.
  unfold NewJSONRequest, newJSONRequest. rewrite Hb.
  rewrite (NewRequest_no_headers _ _ _ _ Hnil Hreq). cbn [andThen].
  unfold addHeaders. fold (contentType "application/json").
  rewrite Hflat, Hhs.
  replace ((pairsOf pairs ++ [IString k]) ++ contentType "application/json")
    with (pairsOf (pairs ++ [(k, "Content-Type")]) ++
          [IString "application/json"]).
  2:{ unfold pairsOf. rewrite flat_map_app, <- !app_assoc. done. }
  rewrite addHeadersFrom_dangling. cbn [andThen]. eexists. split; [done|].
  intros key. cbn [withHeader Header]. rewrite foldl_Add_lookup.
  by rewrite <- app_assoc.
Qed.

End HttpTyped.

Section HttpExamples.
Import tdhttp.
#[local] Existing Instance Ref.externals.
#[local] Existing Instance plainNet.

(** X8 on a request that has one value for [X-Test], merged with a header
    of two keys visited in the reverse of the order of the map. *)
Lemma header_merge_by_key_witness :
  mergeIn (reverse (map_to_list (<["Accept" := ["a"]]> {["X-Test" := ["value1"]]})))
          {["X-Test" := ["value0"]]} !! "X-Test" =
  Some ["value0"; "value1"].
Proof.
  refine (header_merge_by_key (<["Accept" := ["a"]]> {["X-Test" := ["value1"]]})
            _ {["X-Test" := ["value0"]]} "X-Test" _).
  apply reverse_Permutation.
Defined.

(** X9 on two spellings of one header and a last key left alone. *)
Lemma string_headers_accumulate_witness :
  exists r,
    addHeaders (mkRequest "GET" "/" None ∅)
      [IString "x-test"; IString "v1"; IString "X-Test"; IString "v2";
       IString "Accept"] = Ok r /\
    Method r = "GET" /\ Target r = "/" /\ Body r = None /\
    forall key,
      Header r !! key =
        extended ∅ key
          (valuesFor key [("x-test", "v1"); ("X-Test", "v2"); ("Accept", "")]).
Proof.
  exact (string_headers_accumulate (mkRequest "GET" "/" None ∅)
           [IString "x-test"; IString "v1"; IString "X-Test"; IString "v2";
            IString "Accept"]
           [("x-test", "v1"); ("X-Test", "v2")] (Some "Accept") eq_refl).
Defined.

(** X10 on two pairs, given together or one after the other. *)
Lemma addHeaders_in_two_calls_witness :
  addHeaders (mkRequest "GET" "/" None ∅)
    ([IString "A"; IString "1"] ++ [IString "B"; IString "2"]) =
    Ok (mkRequest "GET" "/" None (Add (Add ∅ "A" "1") "B" "2")) <->
  exists r1,
    addHeaders (mkRequest "GET" "/" None ∅) [IString "A"; IString "1"] = Ok r1 /\
    addHeaders r1 [IString "B"; IString "2"] =
      Ok (mkRequest "GET" "/" None (Add (Add ∅ "A" "1") "B" "2")).
Proof.
  refine (addHeaders_in_two_calls (mkRequest "GET" "/" None ∅)
            (mkRequest "GET" "/" None (Add (Add ∅ "A" "1") "B" "2"))
            [IString "A"; IString "1"] [IString "B"; IString "2"] _ _).
  - reflexivity.
  - apply complete_pair, complete_nil.
Defined.

(** X11 on a key followed by an integer, after one pair. *)
Lemma first_bad_header_witness :
  addHeaders (mkRequest "GET" "/" None ∅)
    [IString "A"; IString "1"; IString "B"; IOther tInt] =
    Fatal (Bad ("header " +:+ dq +:+ "%s" +:+ dq +:+
                " should have a string value, not a %T (@ headers[%d])")
               [AStr "B"; AType tInt; AInt 3]).
Proof.
  pose proof (first_bad_header (mkRequest "GET" "/" None ∅)
                [IString "A"; IString "1"; IString "B"; IOther tInt]
                [IString "A"; IString "1"] [IString "B"; IOther tInt]) as Hx.
  destruct Hx as [_ Hkey].
  - reflexivity.
  - apply complete_pair, complete_nil.
  - apply (Hkey "B" (IOther tInt) []); [reflexivity | discriminate].
Defined.

(** X12 on a request that has a value for [A] and is given another. *)
Lemma addHeaders_only_appends_witness :
  Method (mkRequest "GET" "/" None (Add {["A" := ["0"]]} "A" "1")) = "GET" /\
  Target (mkRequest "GET" "/" None (Add {["A" := ["0"]]} "A" "1")) = "/" /\
  Body (mkRequest "GET" "/" None (Add {["A" := ["0"]]} "A" "1")) = None /\
  extends {["A" := ["0"]]} (Add {["A" := ["0"]]} "A" "1").
Proof.
  refine (addHeaders_only_appends (mkRequest "GET" "/" None {["A" := ["0"]]})
            (mkRequest "GET" "/" None (Add {["A" := ["0"]]} "A" "1"))
            [IString "A"; IString "1"] _).
  reflexivity.
Defined.

(** X13 on a JSON request whose caller gives a content type of its own. *)
Lemma content_type_comes_last_witness :
  exists r1,
    addHeaders (mkRequest "POST" "/" (Some (String.list_byte_of_string (Ref.quoted "Bob"))) ∅)
      [IString "Content-Type"; IString "text/plain"] = Ok r1 /\
    NewJSONRequest "POST" "/" (VStr tString "Bob")
      [IString "Content-Type"; IString "text/plain"] =
      Ok (withHeader r1 (Add (Header r1) "Content-Type" "application/json")).
Proof.
  pose proof (content_type_comes_last "POST" "/" (VStr tString "Bob") ∅
                [IString "Content-Type"; IString "text/plain"]) as Hx.
  destruct Hx as [Hjson _].
  - reflexivity.
  - reflexivity.
  - apply complete_pair, complete_nil.
  - apply (Hjson (String.list_byte_of_string (Ref.quoted "Bob"))
             (mkRequest "POST" "/"
                (Some (String.list_byte_of_string (Ref.quoted "Bob"))) ∅));
      reflexivity.
Defined.

(** X14 on a JSON request whose headers end with the lone key [X-Test]. *)
Lemma lone_key_takes_the_content_type_witness :
  exists r,
    NewJSONRequest "POST" "/" (VStr tString "Bob") [IString "X-Test"] = Ok r /\
    forall key,
      Header r !! key =
        extended ∅ key
          (valuesFor key [("X-Test", "Content-Type"); ("application/json", "")]).
Proof.
  refine (lone_key_takes_the_content_type "POST" "/" (VStr tString "Bob")
            [IString "X-Test"] [] "X-Test"
            (String.list_byte_of_string (Ref.quoted "Bob"))
            (mkRequest "POST" "/"
               (Some (String.list_byte_of_string (Ref.quoted "Bob"))) ∅)
            _ _ _ _ _); reflexivity.
Defined.

End HttpExamples.

(** * Properties of the mocks of package internal/test *)

Section MockProperties.
Import test.
Context `{Fmt} {W : Type}.

Lemma steps_snoc (t : TestingTB W) (calls : list call) (c : call) :
  steps t (calls ++ [c]) = step (steps t calls) c.
Proof. unfold steps. by rewrite foldl_app. Qed.

Lemma HasFailed_step (t : TestingTB W) (c : call) :
  HasFailed (T (step t c)) = HasFailed (T t) || fails c.
Proof. destruct c; cbn; by rewrite ?orb_true_r, ?orb_false_r. Qed.

Lemma HasFailed_steps (calls : list call) :
  forall t : TestingTB W,
  HasFailed (T (steps t calls)) = HasFailed (T t) || existsb fails calls.
Proof.
  induction calls as [|c calls IH]; intros t; cbn [steps foldl existsb].
  - by rewrite orb_false_r.
  - fold (steps (step t c) calls). by rewrite IH, HasFailed_step, orb_assoc.
Qed.

Lemma IsFatal_step (t : TestingTB W) (c : call) :
  IsFatal (T (step t c)) = default (IsFatal (T t)) (fatality c).
Proof. by destruct c. Qed.

Lemma default_last_cons {A} (x y : A) (l : list A) :
  default x (last (y :: l)) = default y (last l).
Proof.
  revert x y. induction l as [|z l IH]; intros x y; [done|].
  by rewrite last_cons_cons, (IH x z), (IH y z).
Qed.

(** X15: the two flags.  After any calls, [HasFailed] is set when it was set
    before or one of the calls reported a failure: no call clears it.
    [IsFatal] is what the last of the calls [Error], [Errorf], [Fatal],
    [Fatalf] and [FailNow] made it, so that an error reported after a fatal
    failure clears it, while [Fail] leaves it alone. *)
Theorem flags_after_calls (t : TestingTB W) (calls : list call) :
  HasFailed (T (steps t calls)) = HasFailed (T t) || existsb fails calls /\
  IsFatal (T (steps t calls)) =
    default (IsFatal (T t)) (last (omap fatality calls)).
Proof.
  split; [apply HasFailed_steps|].
  revert t. induction calls as [|c calls IH]; intros t; [done|].
  cbn [steps foldl]. fold (steps (step t c) calls).
  rewrite IH, IsFatal_step. cbn [omap list_omap].
  destruct (fatality c) as [b|]; cbn [default]; [|done].
  by rewrite default_last_cons.
Qed.

Lemma fatal_failed_step (t : TestingTB W) (c : call) :
  (IsFatal (T t) = true -> HasFailed (T t) = true) ->
  IsFatal (T (step t c)) = true -> HasFailed (T (step t c)) = true.
Proof. destruct c; cbn; auto. Qed.

Lemma name_step (t : TestingTB W) (c : call) : name (step t c) = name t.
Proof. by destruct c. Qed.


Lemma Messages_step (t : TestingTB W) (c : call) :
  isReset c = false ->
  Messages (T (step t c)) =
    Messages (T t) ++ from_option (fun m => [m]) [] (textOf c).
Proof. destruct c; cbn; try done; intros _; by rewrite ?app_nil_r. Qed.

Lemma Messages_steps (calls : list call) :
  forall t : TestingTB W,
  existsb isReset calls = false ->
  Messages (T (steps t calls)) = Messages (T t) ++ omap textOf calls.
Proof.
  induction calls as [|c calls IH]; intros t; cbn [steps foldl existsb].
  - by rewrite app_nil_r.
  - intros [Hc Hcalls]%orb_false_iff. fold (steps (step t c) calls).
    rewrite IH, Messages_step by done. rewrite <- app_assoc. f_equal.
    cbn [omap list_omap]. by destruct (textOf c).
Qed.

Lemma LastMessage_last (t : TestingT) :
  LastMessage t = default EmptyString (last (Messages t)).
Proof.
  unfold LastMessage. destruct (Messages t) as [|m l] using rev_ind; [done|].
  rewrite last_snoc, length_app. cbn [length].
  destruct (decide ((length l + 1)%nat = 0%nat)) as [Hz|_]; [lia|].
  replace (length l + 1 - 1)%nat with (length l) by lia.
  by rewrite lookup_app_r, Nat.sub_diag.
Qed.

(** X17: messages and [ResetMessages].  After a reset, the messages are
    those of the calls made since, in their order, and [LastMessage] is the
    last of them, or the empty string when there is none; the failure the
    calls before the reset reported is still flagged. *)
Theorem messages_since_reset (t : TestingTB W) (before since : list call) :
  existsb isReset since = false ->
  let t' := steps t (before ++ CResetMessages :: since) in
  Messages (T t') = omap textOf since /\
  LastMessage (T t') = default EmptyString (last (omap textOf since)) /\
  HasFailed (T t') = HasFailed (T t) || existsb fails before || existsb fails since.
Proof.
  intros Hsince t'.
  assert (Messages (T t') = omap textOf since) as Hm.
  { unfold t', steps. rewrite foldl_app. cbn [foldl].
    fold (steps t before).
    fold (steps (step (steps t before) CResetMessages) since).
    rewrite Messages_steps by done. cbn. by rewrite take_0. }
  split; [done|]. split.
  - by rewrite LastMessage_last, Hm.
  - unfold t'. rewrite HasFailed_steps, existsb_app. cbn [existsb fails].
    by rewrite orb_assoc.
Qed.

Lemma runCleanup_Cleanup (fn : func W) (t : TestingTB W) (w : W) :
  runCleanup (Cleanup fn t) w =
    let '(w1, p1) := fn w in
    let '(w2, p2) := runCleanup t w1 in
    (w2, match p2 with Some _ => p2 | None => p1 end).
Proof.
  unfold runCleanup, Cleanup. cbn [cleanup].
  destruct (fn w) as [w1 p1]. destruct (cleanup t); [done|].
  by destruct p1.
Qed.

Lemma runCleanup_step (t : TestingTB W) (c : call) (w : W) :
  registered c = None -> runCleanup (step t c) w = runCleanup t w.
Proof. by destruct c. Qed.

(** X18: the order of the cleanups.  Running the cleanup of a mock made by
    [NewTestingTB] runs every function registered by [Cleanup], the last
    registered first, each of them whether or not one before it panicked;
    the other calls change nothing to it. *)
Theorem cleanup_runs_latest_first (n : string) (calls : list call) (w : W) :
  runCleanup (steps (@NewTestingTB W n) calls) w =
    runAll (reverse (omap registered calls)) w.
Proof.
  revert w. induction calls as [|c calls IH] using rev_ind; intros w; [done|].
  rewrite steps_snoc, omap_app, reverse_app. cbn [omap list_omap].
  destruct c; try (rewrite runCleanup_step by done; cbn; apply IH).
  cbn [step registered reverse app]. rewrite runCleanup_Cleanup.
  cbn [runAll rev_append]. unfold reverse at 1. cbn [rev_append app runAll].
  destruct (fn w) as [w1 p1]. by rewrite IH.
Qed.

End MockProperties.

Section MockExamples.
Import test.
#[local] Existing Instance plainFmt.


(** X17 on a fatal failure, a reset and two logged lines. *)
Lemma messages_since_reset_witness :
  Messages (T (steps (@NewTestingTB unit "mock")
                 ([CFatal [VStr tString "boom"]] ++
                  CResetMessages :: [CLog [VStr tString "x"];
                                     CLog [VStr tString "y"]]))) = ["x"; "y"] /\
  LastMessage (T (steps (@NewTestingTB unit "mock")
                    ([CFatal [VStr tString "boom"]] ++
                     CResetMessages :: [CLog [VStr tString "x"];
                                        CLog [VStr tString "y"]]))) = "y" /\
  HasFailed (T (steps (@NewTestingTB unit "mock")
                  ([CFatal [VStr tString "boom"]] ++
                   CResetMessages :: [CLog [VStr tString "x"];
                                      CLog [VStr tString "y"]]))) = true.
Proof.
  refine (messages_since_reset (@NewTestingTB unit "mock")
            [CFatal [VStr tString "boom"]]
            [CLog [VStr tString "x"]; CLog [VStr tString "y"]] _).
  reflexivity.
Defined.

End MockExamples.

(** * Properties of the operators inside a JSON expectation *)

Section JSONResolve.
Context `{JSONOps}.

(** X19: what [resolveOp] builds.  An operator it returns comes from the
    constructor registered under the name, which is not one of the
    forbidden names; it is that operator with its location replaced: the
    position of the enclosing JSON operator, the name of the operator
    itself, and the position in the JSON text followed by the name of the
    enclosing operator. *)
Theorem resolveOp_builds (u : Location) (jop : json_Operator)
    (posInJSON : json_Position) (op : TestDeep) :
  resolveOp u jop posInJSON = Returns op ->
  exists tfn args tdOp,
    allOperators (op_Name jop) = Some tfn /\
    lookupName forbiddenOpsInJSON (op_Name jop) = None /\
    fn_Call tfn args = inl tdOp /\
    td_value op = td_value tdOp /\
    loc_Position (td_location op) = loc_Position u /\
    loc_Func (td_location op) = loc_Func (td_location tdOp) /\
    loc_Inside (td_location op) =
      Position_String posInJSON +:+ " inside operator " +:+ loc_Func u +:+ " ".
Proof.
  unfold resolveOp. intros Hrun.
  destruct (allOperators (op_Name jop)) as [tfn|]; [|done].
  destruct (lookupName forbiddenOpsInJSON (op_Name jop)) as [hint|].
  { by destruct (String.eqb hint ""). }
  destruct (specialCases jop tfn) as [[[[min max] addNilParam] params]| |];
    try done.
  destruct (_ || _); [done|].
  match type of Hrun with
  | match ?c with _ => _ end = _ => destruct c; try done
  end.
  match type of Hrun with
  | match fn_Call tfn ?a with _ => _ end = _ =>
      destruct (fn_Call tfn a) as [tdOp|[s|v]] eqn:Hcall; try done;
      exists tfn, a, tdOp
  end.
  injection Hrun as <-. by repeat split.
Qed.

Lemma checkParams_no_panic (name : string) (tfn : opFunc) (ps : list value) :
  forall i : nat,
  (i + length ps <= length (fn_In tfn))%nat ->
  Forall (fun p => IsValid p = true) ps ->
  forall why, checkParams name tfn i ps <> Panics why.
Proof.
  induction ps as [|p ps IH]; intros i Hlen Hvalid why; [done|].
  cbn [checkParams]. cbn [length] in Hlen.
  apply Forall_cons in Hvalid as [Hp Hvalid].
  destruct (lookup_lt_is_Some_2 (fn_In tfn) i) as [fpt ->]; [lia|].
  assert (forall why, checkParams name tfn (S i) ps <> Panics why) as Hrest.
  { apply IH; [lia | done]. }
  destruct (negb _); [|apply Hrest].
  destruct p; try done; cbn [typeOf]; by destruct (negb _).
Qed.

(** X20: when [resolveOp] panics.  With no null among the parameters, and
    constructors whose signatures fit what is let through for their names,
    [resolveOp] never panics: a constructor that panics gives an error. *)
Theorem resolveOp_does_not_panic (u : Location) (jop : json_Operator)
    (posInJSON : json_Position) :
  (forall tfn, allOperators (op_Name jop) = Some tfn -> signatureFits jop tfn) ->
  Forall (fun p => IsValid p = true) (op_Params jop) ->
  IsValid nilMapEntries = true ->
  (forall b, IsValid (Bounds b) = true) ->
  forall why, resolveOp u jop posInJSON <> Panics why.
Proof.
  intros Hfits Hvalid Hnil Hbounds why. unfold resolveOp.
  destruct (allOperators (op_Name jop)) as [tfn|]; [|done].
  specialize (Hfits tfn eq_refl). unfold signatureFits in Hfits.
  destruct (lookupName forbiddenOpsInJSON (op_Name jop)) as [hint|].
  { by destruct (String.eqb hint ""). }
  assert (forall min max addNilParam params,
            specialCases jop tfn = Returns (min, max, addNilParam, params) ->
            Forall (fun p => IsValid p = true) params /\
            (addNilParam = true -> max = 1) /\
            (fn_IsVariadic tfn = false -> 0 <= max)) as Hparams.
  { unfold specialCases. intros min max a params.
    repeat match goal with
           | |- (if ?b then _ else _) = _ -> _ => destruct b
           | |- match ?b with _ => _ end = _ -> _ => destruct b
           end; try done; intros [= <- <- <- <-];
      (split; [|split]); try done; try lia.
    - apply Forall_insert; [done | apply Hbounds].
    - intros ->. lia. }
  assert (forall w, specialCases jop tfn <> Panics w) as Hquiet.
  { intros w. unfold specialCases.
    repeat match goal with
           | |- (if ?b then _ else _) <> _ => destruct b
           | |- match ?b with _ => _ end <> _ => destruct b
           end; done. }
  destruct (specialCases jop tfn) as [[[[min max] addNilParam] params]| |]
    eqn:Hsp; try done; [|exfalso; by eapply Hquiet].
  destruct (Hparams _ _ _ _ eq_refl) as (Hps & Hadd & Hmax0). clear Hparams.
  destruct (_ || _) eqn:Harity; [done|].
  apply orb_false_iff in Harity as [Hmin Hmax].
  set (n := Z.of_nat (length params)) in *.
  set (in_ := if (0 <? n) && addNilParam then params ++ [nilMapEntries]
              else params).
  assert (Forall (fun p => IsValid p = true) in_) as Hin.
  { unfold in_. destruct ((0 <? n) && addNilParam); [|exact Hps].
    apply Forall_app. split; [exact Hps|]. by apply Forall_singleton. }
  assert (Z.of_nat (length in_) =
          n + if (0 <? n) && addNilParam then 1 else 0) as Hlen.
  { unfold in_. destruct ((0 <? n) && addNilParam); [|lia].
    rewrite length_app. cbn [length]. lia. }
  assert (n <= Z.of_nat (length in_)) as Hle.
  { rewrite Hlen. destruct ((0 <? n) && addNilParam); lia. }
  match goal with
  | |- match ?c with _ => _ end <> _ =>
      assert (forall why, c <> Panics why) as Hchecked
  end.
  { intros why'. destruct (0 <? n) eqn:Hn; [|done]. cbn [andb] in *.
    destruct (fn_IsVariadic tfn) eqn:Hv.
    - destruct Hfits as [H1 H2].
      replace (_ || _) with false by lia.
      apply checkParams_no_panic; [|by apply Forall_take].
      rewrite length_take. lia.
    - replace (_ || _) with false by lia.
      apply checkParams_no_panic; [|by apply Forall_take].
      rewrite length_take.
      assert (Z.of_nat (length in_) <= Z.of_nat (length (fn_In tfn))); [|lia].
      rewrite Hlen. destruct addNilParam.
      + specialize (Hadd eq_refl). lia.
      + specialize (Hmax0 eq_refl). lia. }
  match goal with
  | |- match ?c with _ => _ end <> _ =>
      destruct c eqn:Hc; try done; [|exfalso; by eapply Hchecked]
  end.
  by destruct (fn_Call tfn in_) as [?|[?|?]].
Qed.

End JSONResolve.

Section JSONResolveMore.
Context `{JSONOps}.

Lemma specialCases_default (jop : json_Operator) (tfn : opFunc) :
  op_Name jop ∉ specialNames ->
  specialCases jop tfn =
    Returns (Z.of_nat (length (fn_In tfn)),
             if fn_IsVariadic tfn then -1 else Z.of_nat (length (fn_In tfn)),
             false, op_Params jop).
Proof.
  intros Hn. unfold specialCases.
  repeat match goal with
         | |- context [String.eqb (op_Name jop) ?s] =>
             destruct (String.eqb_spec (op_Name jop) s) as [Heq|_];
             [exfalso; apply Hn; rewrite Heq; set_solver|]
         end.
  done.
Qed.

Lemma checkParams_first_null (name : string) (tfn : opFunc) (fpt : rtype) :
  forall (ps : list value) (i k : nat),
  ps !! i = Some VInvalid ->
  fn_In tfn !! (k + i)%nat = Some fpt ->
  kindOf fpt <> Interface ->
  (forall j p t, (j < i)%nat -> ps !! j = Some p ->
                 fn_In tfn !! (k + j)%nat = Some t -> passes t p) ->
  (forall j, (j < i)%nat -> is_Some (fn_In tfn !! (k + j)%nat)) ->
  checkParams name tfn k ps =
    Panics "reflect: call of reflect.Value.Type on zero Value".
Proof.
  induction ps as [|p ps IH]; intros i k Hi Hfpt Hkind Hbefore Hin; [done|].
  cbn [checkParams]. destruct i as [|i].
  - injection Hi as ->. rewrite Nat.add_0_r in Hfpt. rewrite Hfpt.
    by rewrite (Kind_eqb_neq _ _ Hkind).
  - destruct (Hin 0%nat) as [t Ht]; [lia|].
    pose proof (Hbefore 0%nat p t ltac:(lia) eq_refl Ht) as Hp.
    rewrite Nat.add_0_r in Ht. rewrite Ht.
    assert (checkParams name tfn (S k) ps =
            Panics "reflect: call of reflect.Value.Type on zero Value") as Hrest.
    { apply (IH i); [done| |done| |].
      - by replace (S k + i)%nat with (k + S i)%nat by lia.
      - intros j q t' Hj Hq Ht'. apply (Hbefore (S j)); [lia|done|].
        by replace (k + S j)%nat with (S k + j)%nat by lia.
      - intros j Hj. replace (S k + j)%nat with (k + S j)%nat by lia.
        apply Hin. lia. }
    destruct Hp as [Hp | (tp & Htp & Heq)].
    + rewrite Hp. cbn [Kind_eqb negb]. exact Hrest.
    + destruct (negb (Kind_eqb (kindOf t) Interface)); [|exact Hrest].
      by rewrite Htp, Heq.
Qed.

(** X21: a null parameter.  When an ordinary constructor with a fixed
    number of parameters is given that number of parameters, and one of
    them is null where the constructor asks for a type that is not an
    interface, the parameters before it passing their check, [resolveOp]
    does not return an error: it panics. *)
Theorem null_for_typed_parameter_panics (u : Location) (jop : json_Operator)
    (posInJSON : json_Position) (tfn : opFunc) (i : nat) (fpt : rtype) :
  allOperators (op_Name jop) = Some tfn ->
  lookupName forbiddenOpsInJSON (op_Name jop) = None ->
  op_Name jop ∉ specialNames ->
  fn_IsVariadic tfn = false ->
  length (op_Params jop) = length (fn_In tfn) ->
  op_Params jop !! i = Some VInvalid ->
  fn_In tfn !! i = Some fpt ->
  kindOf fpt <> Interface ->
  (forall j p t, (j < i)%nat -> op_Params jop !! j = Some p ->
                 fn_In tfn !! j = Some t -> passes t p) ->
  resolveOp u jop posInJSON =
    Panics "reflect: call of reflect.Value.Type on zero Value".
Proof.
  intros Hop Hforb Hname Hv Hlen Hi Hfpt Hkind Hbefore.
  unfold resolveOp. rewrite Hop, Hforb, specialCases_default, Hv by done.
  pose proof (lookup_lt_Some _ _ _ Hi) as Hlt.
  rewrite Hlen. replace (_ || _) with false by lia.
  replace (0 <? Z.of_nat (length (fn_In tfn))) with true by lia.
  cbn [andb]. rewrite Hlen. replace (_ || _) with false by lia.
  rewrite Nat2Z.id, <- Hlen, firstn_all.
  rewrite (checkParams_first_null _ tfn fpt (op_Params jop) i 0); try done.
  intros j Hj. apply lookup_lt_is_Some_2. lia.
Qed.

(** X22: the shortcuts.  [resolveOpShortcut] knows the nine names of
    [jsonOpShortcuts] and no other; the placeholder it makes has no number,
    holds the operator of that name, and prints as the quoted text
    [$^Name] that it was written as, without a comment. *)
Theorem shortcut_round_trip (u : Location) (opName : string)
    (posInJSON : json_Position) :
  (is_Some (resolveOpShortcut u opName posInJSON) <-> opName ∈ jsonOpShortcuts) /\
  forall p, resolveOpShortcut u opName posInJSON = Some p ->
    ph_num p = 0%N /\
    td_value (ph_TestDeep p) = td_value (shortcutOp opName) /\
    tdJSONPlaceholder_MarshalJSON p = Ok (dq +:+ "$^" +:+ opName +:+ dq).
Proof.
  unfold resolveOpShortcut. split.
  - destruct (bool_decide (opName ∈ jsonOpShortcuts)) eqn:Hin.
    + apply bool_decide_eq_true in Hin. split; [done | by eexists].
    + apply bool_decide_eq_false in Hin. split; [by intros [? ?] | done].
  - intros p. destruct (bool_decide _); [|done]. intros [= <-].
    split; [done|]. split; [done|]. done.
Qed.

(** X24: the number of parameters.  For an ordinary constructor, the
    number of parameters is checked before the parameters themselves: a
    constructor with a fixed number of parameters is refused any other
    number, and a variadic one is refused fewer parameters than its
    signature has, with a message that asks for at least one parameter
    whatever that number is. *)
Theorem wrong_number_of_parameters (u : Location) (jop : json_Operator)
    (posInJSON : json_Position) (tfn : opFunc) :
  allOperators (op_Name jop) = Some tfn ->
  lookupName forbiddenOpsInJSON (op_Name jop) = None ->
  op_Name jop ∉ specialNames ->
  let given := Z.of_nat (length (op_Params jop)) in
  let numIn := Z.of_nat (length (fn_In tfn)) in
  (fn_IsVariadic tfn = false -> given <> numIn ->
   resolveOp u jop posInJSON =
     Fails (if numIn =? 0 then
              Errorf "%s() requires no parameters" [AStr (op_Name jop)]
            else if numIn =? 1 then
              Errorf "%s() requires only one parameter" [AStr (op_Name jop)]
            else
              Errorf "%s() requires %d parameters"
                     [AStr (op_Name jop); AInt numIn])) /\
  (fn_IsVariadic tfn = true -> given < numIn ->
   resolveOp u jop posInJSON =
     Fails (Errorf "%s() requires at least one parameter" [AStr (op_Name jop)])).
Proof.
  intros Hop Hforb Hname given numIn.
  unfold resolveOp. rewrite Hop, Hforb, specialCases_default by done.
  fold given numIn. split.
  - intros -> Hne.
    replace ((given <? numIn) || (0 <=? numIn) && (numIn <? given))
      with true by lia.
    unfold arityError. replace (numIn <? 0) with false by lia.
    rewrite Z.eqb_refl. by destruct (numIn =? 0).
  - intros -> Hlt. replace (given <? numIn) with true by lia. done.
Qed.

Lemma replaceNewlines_line (indent line : string) :
  hasNewline line = false -> replaceNewlines indent line = line.
Proof.
  induction line as [|c line IH]; [done|]. cbn [hasNewline replaceNewlines].
  intros [Hc Hline]%orb_false_iff. rewrite Hc. by rewrite IH.
Qed.

Lemma replaceNewlines_app (indent line rest : string) :
  hasNewline line = false ->
  replaceNewlines indent (line +:+ String.String newline rest) =
    line +:+ indent +:+ replaceNewlines indent rest.
Proof.
  induction line as [|c line IH]; cbn [hasNewline].
  - intros _.
    change (replaceNewlines indent (String.String newline rest) =
            indent +:+ replaceNewlines indent rest).
    cbn [replaceNewlines]. by rewrite Ascii.eqb_refl.
  - intros [Hc Hline]%orb_false_iff.
    change (replaceNewlines indent
              (String.String c (line +:+ String.String newline rest)) =
            String.String c (line +:+ indent +:+ replaceNewlines indent rest)).
    cbn [replaceNewlines]. rewrite Hc. by rewrite IH.
Qed.

Lemma replaceNewlines_concat (indent : string) (lines : list string) :
  Forall (fun l => hasNewline l = false) lines ->
  replaceNewlines indent (String.concat (String.String newline EmptyString) lines) =
    String.concat indent lines.
Proof.
  induction lines as [|l [|l' lines] IH]; intros Hall; [done| |].
  - cbn [String.concat]. apply replaceNewlines_line.
    by apply Forall_cons in Hall as [? _].
  - apply Forall_cons in Hall as [Hl Hall].
    change (String.concat ?sep (l :: l' :: lines))
      with (l +:+ sep +:+ String.concat sep (l' :: lines)).
    change (String.String newline EmptyString +:+ ?x)
      with (String.String newline x).
    rewrite replaceNewlines_app by done. by rewrite IH.
Qed.

(** X23: what a placeholder prints.  [MarshalJSON] panics only on a
    placeholder that has neither a number nor a name.  A placeholder that
    is not a shortcut prints its number, or its name when it has no number,
    then the text of its operator in a comment, where each line after the
    first is moved right by the width of what comes before the text. *)
Theorem placeholder_comment_layout (p : tdJSONPlaceholder) (lines : list string) :
  TestDeep_String (ph_TestDeep p) =
    String.concat (String.String newline EmptyString) lines ->
  Forall (fun l => hasNewline l = false) lines ->
  (isOk (tdJSONPlaceholder_MarshalJSON p) = false <->
   ph_num p = 0%N /\ ph_name p = EmptyString) /\
  (isShortcut p = false ->
   (ph_num p = 0%N -> ph_name p <> EmptyString) ->
   let opening := placeholderText p +:+ " /* " in
   tdJSONPlaceholder_MarshalJSON p =
     Ok (opening +:+
         String.concat
           (String.String newline (strings_Repeat " " (String.length opening)))
           lines +:+
         " */")).
Proof.
  intros Hstr Hlines. unfold tdJSONPlaceholder_MarshalJSON, isShortcut,
    placeholderText.
  destruct (ph_num p =? 0)%N eqn:Hnum.
  - apply N.eqb_eq in Hnum. destruct (ph_name p) as [|c rest] eqn:Hname.
    + split; [done|]. intros _ Hne. by destruct (Hne Hnum).
    + split.
      { destruct (Ascii.eqb c caret); split; try done; by intros [_ ?]. }
      cbn [andb]. intros -> _. cbv zeta.
      by rewrite Hstr, replaceNewlines_concat.
  - apply N.eqb_neq in Hnum. split.
    + split; [done | by intros [? _]].
    + intros _ _. cbv zeta. by rewrite Hstr, replaceNewlines_concat.
Qed.

End JSONResolveMore.

Section JSONResolveExamples.
#[local] Existing Instance sampleOps.

(** X19 on [HasPrefix("Bob")] written at line 12 of the text of a [JSON]
    operator. *)
Lemma resolveOp_builds_witness :
  exists tfn args tdOp,
    allOperators "HasPrefix" = Some tfn /\
    lookupName forbiddenOpsInJSON "HasPrefix" = None /\
    fn_Call tfn args = inl tdOp /\
    VOp "HasPrefix" [VStr tString "Bob"] = td_value tdOp /\
    "file.go:23" = loc_Position sampleLocation /\
    "HasPrefix" = loc_Func (td_location tdOp) /\
    "line 12:7 (pos 123) inside operator JSON " =
      Position_String (mkPosition 123 12 7) +:+ " inside operator " +:+
      loc_Func sampleLocation +:+ " ".
Proof.
  refine (resolveOp_builds sampleLocation
            (mkOperator "HasPrefix" [VStr tString "Bob"]) (mkPosition 123 12 7)
            (mkTestDeep (VOp "HasPrefix" [VStr tString "Bob"])
               (mkLocation "file.go:23" "HasPrefix"
                  "line 12:7 (pos 123) inside operator JSON ")) _).
  reflexivity.
Defined.

(** X20 on a constructor that panics on what it is given. *)
Lemma resolveOp_does_not_panic_witness :
  resolveOp sampleLocation (mkOperator "Gt" [VStr tString "x"])
    (mkPosition 123 12 7) <> Panics "usage: Gt(NUM|TIME)".
Proof.
  refine (resolveOp_does_not_panic sampleLocation
            (mkOperator "Gt" [VStr tString "x"]) (mkPosition 123 12 7)
            _ _ _ _ "usage: Gt(NUM|TIME)").
  - intros tfn [= <-]. unfold signatureFits. cbn. lia.
  - by apply Forall_singleton.
  - reflexivity.
  - by intros [].
Defined.

(** X21 on [HasPrefix(null)]. *)
Lemma null_for_typed_parameter_panics_witness :
  resolveOp sampleLocation (mkOperator "HasPrefix" [VInvalid])
    (mkPosition 123 12 7) =
    Panics "reflect: call of reflect.Value.Type on zero Value".
Proof.
  refine (null_for_typed_parameter_panics sampleLocation
            (mkOperator "HasPrefix" [VInvalid]) (mkPosition 123 12 7)
            (mkOpFunc [tString] false
               (fun args => inl (mkTestDeep (VOp "HasPrefix" args)
                                   (mkLocation "ops.go:10" "HasPrefix" ""))))
            0 tString _ _ _ _ _ _ _ _ _).
  - reflexivity.
  - reflexivity.
  - by apply (bool_decide_unpack _).
  - reflexivity.
  - reflexivity.
  - reflexivity.
  - reflexivity.
  - discriminate.
  - intros j p t Hj. lia.
Defined.

(** X23 on the placeholder [$2] of an [All] of two operators. *)
Lemma placeholder_comment_layout_witness :
  tdJSONPlaceholder_MarshalJSON
    (mkPlaceholder
       (mkTestDeep (VOp "All" [VInvalid; VInvalid]) sampleLocation)
       EmptyString 2) =
    Ok (dq +:+ "$2" +:+ dq +:+ " /* " +:+
        String.concat
          (String.String newline "        ")
          ["All("; "  ...,"; "  ...,"; ")"] +:+
        " */").
Proof.
  pose proof (placeholder_comment_layout
                (mkPlaceholder
                   (mkTestDeep (VOp "All" [VInvalid; VInvalid]) sampleLocation)
                   EmptyString 2)
                ["All("; "  ...,"; "  ...,"; ")"]) as Hx.
  destruct Hx as [_ Hlayout].
  - reflexivity.
  - repeat constructor.
  - apply Hlayout; [reflexivity | discriminate].
Defined.

(** X24 on [HasPrefix] given two parameters, one of them null. *)
Lemma wrong_number_of_parameters_witness :
  resolveOp sampleLocation (mkOperator "HasPrefix" [VInvalid; VStr tString "x"])
    (mkPosition 123 12 7) =
    Fails (Errorf "%s() requires only one parameter" [AStr "HasPrefix"]).
Proof.
  pose proof (wrong_number_of_parameters sampleLocation
                (mkOperator "HasPrefix" [VInvalid; VStr tString "x"])
                (mkPosition 123 12 7)
                (mkOpFunc [tString] false
                   (fun args => inl (mkTestDeep (VOp "HasPrefix" args)
                                       (mkLocation "ops.go:10" "HasPrefix" ""))))) as Hx.
  destruct Hx as [Hfixed _].
  - reflexivity.
  - reflexivity.
  - by apply (bool_decide_unpack _).
  - apply Hfixed; [reflexivity | done].
Defined.

End JSONResolveExamples.

Section JSONParams.
Context `{Externals} `{JSONOps}.

Lemma tagsOf_cons (p : param) (params : list param) :
  tagsOf (p :: params) =
    match p with PTag tag _ => tag :: tagsOf params | _ => tagsOf params end.
Proof. by destruct p. Qed.

Lemma placeholders_inv (fn : string) (params : list param) :
  forall (i : nat) (byTag0 byTag : gmap string tdJSONPlaceholder)
         (slots : list slot),
  placeholders fn i params byTag0 = inr (slots, byTag) ->
  length slots = length params /\
  NoDup (tagsOf params) /\
  Forall encodable params /\
  (forall tag, tag ∈ tagsOf params -> byTag0 !! tag = None) /\
  (forall tag, tag ∉ tagsOf params -> byTag !! tag = byTag0 !! tag) /\
  (forall j op, params !! j = Some (POp op) ->
     slots !! j =
       Some (SPlaceholder (mkPlaceholder op EmptyString (N.of_nat (i + j + 1))))) /\
  (forall j tag op, params !! j = Some (PTag tag op) ->
     slots !! j = Some (STag tag op) /\
     byTag !! tag = Some (mkPlaceholder op tag 0)).
Proof.
  induction params as [|p params IH]; intros i byTag0 byTag slots Hrun.
  - injection Hrun as <- <-. repeat split; try done.
    + constructor.
    + by intros tag ?%elem_of_nil.
  - cbn [placeholders] in Hrun. rewrite tagsOf_cons.
    assert (forall p' byTag1,
              match placeholders fn (S i) params byTag1 with
              | inl e => inl e
              | inr (ps, tags) => inr (p' :: ps, tags)
              end = inr (slots, byTag) ->
              exists ps, slots = p' :: ps /\
                         placeholders fn (S i) params byTag1 = inr (ps, byTag))
      as Hcont.
    { intros p' byTag1 Hc.
      destruct (placeholders fn (S i) params byTag1) as [|[ps tags]]; [done|].
      injection Hc as <- <-. by exists ps. }
    destruct p as [tag op|op|v].
    + destruct (bool_decide (is_Some (byTag0 !! tag))) eqn:Htag; [done|].
      apply bool_decide_eq_false in Htag.
      apply eq_None_not_Some in Htag.
      apply Hcont in Hrun as (ps & -> & Hrun).
      destruct (IH _ _ _ _ Hrun) as (Hlen & Hnd & Henc & Hfresh & Hkeep & Hop & Htg).
      assert (tag ∉ tagsOf params) as Hnew.
      { intros Hin. apply Hfresh in Hin. by rewrite lookup_insert_eq in Hin. }
      split; [cbn; lia|]. split; [by constructor|].
      split; [by constructor|]. split; [|split; [|split]].
      * intros t [->|Hin]%elem_of_cons; [done|].
        pose proof (Hfresh _ Hin) as Hf.
        rewrite lookup_insert_ne in Hf; [done|]. by intros ->.
      * intros t [Hne Hnin]%not_elem_of_cons.
        by rewrite Hkeep, lookup_insert_ne.
      * intros [|j] op' Hj; [done|]. change (params !! j = Some (POp op')) in Hj; change ((?x :: ps) !! S j) with (ps !! j).
        rewrite (Hop _ _ Hj). do 4 f_equal. lia.
      * intros [|j] tag' op' Hj.
        -- injection Hj as <- <-. split; [done|].
           by rewrite Hkeep, lookup_insert_eq.
        -- by apply Htg.
    + apply Hcont in Hrun as (ps & -> & Hrun).
      destruct (IH _ _ _ _ Hrun) as (Hlen & Hnd & Henc & Hfresh & Hkeep & Hop & Htg).
      split; [cbn; lia|]. split; [done|]. split; [by constructor|].
      split; [done|]. split; [done|]. split.
      * intros [|j] op' Hj.
        -- injection Hj as <-. change ((?x :: ps) !! 0%nat) with (Some x). do 4 f_equal. lia.
        -- change (params !! j = Some (POp op')) in Hj; change ((?x :: ps) !! S j) with (ps !! j). rewrite (Hop _ _ Hj).
           do 4 f_equal. lia.
      * intros [|j] tag' op' Hj; [done|]. by apply Htg.
    + assert (exists p' , match placeholders fn (S i) params byTag0 with
                          | inl e => inl e
                          | inr (ps, tags) => inr (p' :: ps, tags)
                          end = inr (slots, byTag) /\ encodable (PValue v))
        as (p' & Hc & Hv).
      { unfold encodable. destruct (json_Marshal v) as [err|bp].
        - destruct (AsOperatorNotJSONMarshallableError err); [|done]. eauto.
        - eauto. }
      apply Hcont in Hc as (ps & -> & Hrun').
      destruct (IH _ _ _ _ Hrun') as (Hlen & Hnd & Henc & Hfresh & Hkeep & Hop & Htg).
      split; [cbn; lia|]. split; [done|]. split; [by constructor|].
      split; [done|]. split; [done|]. split.
      * intros [|j] op' Hj; [done|]. change (params !! j = Some (POp op')) in Hj; change ((?x :: ps) !! S j) with (ps !! j).
        rewrite (Hop _ _ Hj). do 4 f_equal. lia.
      * intros [|j] tag' op' Hj; [done|]. by apply Htg.
Qed.

Lemma placeholders_runs (fn : string) (params : list param) :
  forall (i : nat) (byTag0 : gmap string tdJSONPlaceholder),
  NoDup (tagsOf params) ->
  Forall encodable params ->
  (forall tag, tag ∈ tagsOf params -> byTag0 !! tag = None) ->
  exists r, placeholders fn i params byTag0 = inr r.
Proof.
  induction params as [|p params IH]; intros i byTag0 Hnd Henc Hfresh.
  - by eexists.
  - rewrite tagsOf_cons in Hnd, Hfresh.
    apply Forall_cons in Henc as [Hp Henc]. cbn [placeholders].
    destruct p as [tag op|op|v].
    + apply NoDup_cons in Hnd as [Hnew Hnd].
      rewrite bool_decide_eq_false_2.
      2:{ rewrite (Hfresh tag) by left. by intros [? ?]. }
      destruct (IH (S i) (<[tag := mkPlaceholder op tag 0]> byTag0) Hnd Henc)
        as [[ps tags] ->]; [|by eexists].
      intros t Ht. rewrite lookup_insert_ne; [|by intros ->].
      apply Hfresh. by right.
    + destruct (IH (S i) byTag0 Hnd Henc Hfresh) as [[ps tags] ->]. by eexists.
    + destruct (IH (S i) byTag0 Hnd Henc Hfresh) as [[ps tags] Hrest].
      unfold encodable in Hp. destruct (json_Marshal v) as [err|bp].
      * rewrite Hp, Hrest. by eexists.
      * rewrite Hrest. by eexists.
Qed.

(** X25: the placeholders of the parameters.  When the loop of [unmarshal]
    ends, every parameter is still at its place: an operator became the
    placeholder whose number is its position counted from 1 among all the
    parameters, a [Tag] operator is left as it was and is also known by its
    tag, as a placeholder that has this name and no number, and nothing
    else is known by a tag. *)
Theorem placeholders_by_position (fn : string) (params : list param)
    (slots : list slot) (byTag : gmap string tdJSONPlaceholder) :
  placeholders fn 0 params ∅ = inr (slots, byTag) ->
  length slots = length params /\
  (forall j op, params !! j = Some (POp op) ->
     slots !! j =
       Some (SPlaceholder (mkPlaceholder op EmptyString (N.of_nat (j + 1))))) /\
  (forall j tag op, params !! j = Some (PTag tag op) ->
     slots !! j = Some (STag tag op) /\
     byTag !! tag = Some (mkPlaceholder op tag 0)) /\
  (forall tag, is_Some (byTag !! tag) -> tag ∈ tagsOf params).
Proof.
  intros Hrun.
  destruct (placeholders_inv _ _ _ _ _ _ Hrun)
    as (Hlen & _ & _ & _ & Hkeep & Hop & Htg).
  split; [done|]. split; [exact Hop|]. split; [exact Htg|].
  intros tag Hsome. destruct (decide (tag ∈ tagsOf params)); [done|].
  rewrite Hkeep in Hsome by done. by destruct Hsome.
Qed.

(** X26: when the loop panics.  The loop of [unmarshal] ends without a panic
    exactly when no two [Tag] parameters have the same tag and every plain
    value can be encoded, or cannot only because it holds an operator. *)
Theorem placeholders_succeed_iff (fn : string) (params : list param) :
  (exists r, placeholders fn 0 params ∅ = inr r) <->
  NoDup (tagsOf params) /\ Forall encodable params.
Proof.
  split.
  - intros [[slots byTag] Hrun].
    by destruct (placeholders_inv _ _ _ _ _ _ Hrun) as (_ & ? & ? & _).
  - intros [Hnd Henc]. by apply placeholders_runs.
Qed.

End JSONParams.

Section JSONParamsExamples.
#[local] Existing Instance Ref.externals.
#[local] Existing Instance sampleOps.

(** X25 on the parameters of the documentation: a tagged operator, an
    operator and a plain value. *)
Lemma placeholders_by_position_witness :
  let tagOp := mkTestDeep (VOp "Tag" []) sampleLocation in
  let between := mkTestDeep (VOp "Between" []) sampleLocation in
  let params := [PTag "name" tagOp; POp between; PValue (VStr tString "male")] in
  let slots := [STag "name" tagOp;
                SPlaceholder (mkPlaceholder between EmptyString 2);
                SValue (VStr tString "male")] in
  let byTag : gmap string tdJSONPlaceholder :=
    {["name" := mkPlaceholder tagOp "name" 0]} in
  length slots = length params /\
  (forall j op, params !! j = Some (POp op) ->
     slots !! j =
       Some (SPlaceholder (mkPlaceholder op EmptyString (N.of_nat (j + 1))))) /\
  (forall j tag op, params !! j = Some (PTag tag op) ->
     slots !! j = Some (STag tag op) /\
     byTag !! tag = Some (mkPlaceholder op tag 0)) /\
  (forall tag, is_Some (byTag !! tag) -> tag ∈ tagsOf params).
Proof.
  intros tagOp between params slots byTag.
  refine (placeholders_by_position "JSON" params slots byTag _).
  by vm_compute.
Defined.

End JSONParamsExamples.

(** * Further properties of [Re] and [ReAll] *)

Section ReMore.
Context `{Externals}.

(** X27: a nil capture.  Giving [Re] a nil capture builds the operator that
    [Re] builds without a capture, and [ReAll] with a nil capture builds an
    operator with the same regexp that answers as that one does on every
    got value: without captures, the number of matches asked for is never
    looked at. *)
Theorem nil_capture_is_no_capture (reg : regArg) (r : tdRe) :
  Re reg [] = Ok r ->
  needCaptures r = false /\
  Re reg [VInvalid] = Ok r /\
  exists rall,
    ReAll reg VInvalid = Ok rall /\
    re rall = re r /\
    forall ctx got s,
      run (tdRe_Match ctx got) rall s = run (tdRe_Match ctx got) r s.
Proof.
  unfold Re, ReAll, newRe. cbn [andThen].
  destruct reg as [c|str|v]; cbn [andThen]; [| |done].
  - intros [= <-]. split; [done|]. split; [done|]. eexists.
    split; [done|]. split; [done|]. intros ctx got s.
    rewrite !run_tdRe_Match.
    by destruct (subjectOf got).
  - destruct (regexp_MustCompile str) as [c| |]; cbn [andThen]; try done.
    intros [= <-]. split; [done|]. split; [done|]. eexists.
    split; [done|]. split; [done|]. intros ctx got s.
    rewrite !run_tdRe_Match.
    by destruct (subjectOf got).
Qed.

End ReMore.

Section ReMoreExamples.
#[local] Existing Instance Ref.externals.

(** X27 on the pattern of the documentation, given compiled. *)
Lemma nil_capture_is_no_capture_witness :
  needCaptures (mkRe "Re" nameRe VInvalid 1) = false /\
  Re (RegCompiled nameRe) [VInvalid] = Ok (mkRe "Re" nameRe VInvalid 1) /\
  exists rall,
    ReAll (RegCompiled nameRe) VInvalid = Ok rall /\
    re rall = nameRe /\
    forall ctx got s,
      run (tdRe_Match ctx got) rall s =
      run (tdRe_Match ctx got) (mkRe "Re" nameRe VInvalid 1) s.
Proof.
  refine (nil_capture_is_no_capture (RegCompiled nameRe)
            (mkRe "Re" nameRe VInvalid 1) _).
  reflexivity.
Defined.

End ReMoreExamples.

(** * Properties of the wrapper [T] *)

Section WrapperProperties.
Import t_struct.
Context `{TEnv}.

(** X28: [AssertRequire].  It panics when [NewT] does, and otherwise returns
    what [Assert] and [Require] return on the same arguments: two wrappers
    of the same [testing.TB] whose configurations differ by the flag
    [FailureIsFatal] only, unset in the first and set in the second. *)
Theorem AssertRequire_is_Assert_and_Require (t : TB) (config : list ContextConfig) :
  match AssertRequire t config with
  | Made (assert, require) =>
      Assert t config = Made assert /\
      Require t config = Made require /\
      T_TB assert = T_TB require /\
      FailureIsFatal (Config assert) = false /\
      FailureIsFatal (Config require) = true /\
      T_FailureIsFatal [false] require = assert
  | Panicked why =>
      NewT t config = Panicked why /\
      Assert t config = Panicked why /\
      Require t config = Panicked why
  end.
Proof.
  unfold AssertRequire, Assert, Require.
  destruct (NewT t config) as [newT|why]; [|done].
  by destruct newT as [tb [? ? ? ? ?]].
Qed.

End WrapperProperties.
